(** * Identity reconciliation service: shallow embedding and verification

    The development embeds [src/services/identityService.ts] (class
    [IdentityService]) together with the validation step of
    [src/controllers/identityController.ts].

    Modelling conventions.
    - A JavaScript string is a [string] of code units; the character
      classes used by [trim], [toLowerCase] and the regular expression
      [\D] are written out for the code units 0..255.
    - An optional request field ([undefined]) and a nullable column
      ([null]) are both [option string]; where the source compares the
      two with [===] the comparison is written out ([strictEq]).
    - [createdAt] and [deletedAt] are timestamps in milliseconds, as
      [new Date(...).getTime()] yields them.
    - The Contact table is the list of its rows; [findMany] with
      [orderBy: { createdAt: 'asc' }] is a stable sort of the selected
      rows by [createdAt], so rows of equal [createdAt] come in table
      order.  The database is free in the order of such rows, and the
      order of the row list stands for its choice: [chainInvariants] asks
      nothing of that order, and what is proved under it holds for every
      listing.  The invariant [wfStore] moreover takes the table to list
      its rows in id order, the order in which the sequence hands ids
      out.  The source in
      [src/unnamed/part_000], a second text of the service, is the module
      [Unnamed].  The column [updatedAt] is never read by the service and
      is left out.
    - The service runs without transactions: every Prisma call acts on
      the table at once and a thrown [Error] leaves the writes made so
      far in place.  This is the monad [M]. *)

From Stdlib Require Import ZArith List Bool String Ascii Lia Permutation Sorted.
Import ListNotations.

Local Open Scope string_scope.
Local Open Scope list_scope.
Local Open Scope Z_scope.

Set Implicit Arguments.

(** ** Strings *)

Module Str.

Definition code (c : ascii) : N := N_of_ascii c.

(** White space removed by [String.prototype.trim]: TAB, LF, VT, FF,
    CR, SPACE and NO-BREAK SPACE. *)
Definition isWhitespace (c : ascii) : bool :=
  let n := code c in
  ((9 <=? n) && (n <=? 13) || (n =? 32) || (n =? 160))%N.

(** [\d] is [0-9]; [\D] is its complement. *)
Definition isDigit (c : ascii) : bool :=
  let n := code c in ((48 <=? n) && (n <=? 57))%N.

Definition isUpper (c : ascii) : bool :=
  let n := code c in
  ((65 <=? n) && (n <=? 90) || (192 <=? n) && (n <=? 222) && negb (n =? 215))%N.

Definition lowerChar (c : ascii) : ascii :=
  if isUpper c then ascii_of_N (code c + 32) else c.

Fixpoint toLowerCase (s : string) : string :=
  match s with
  | EmptyString => EmptyString
  | String c t => String (lowerChar c) (toLowerCase t)
  end.

Fixpoint trimStart (s : string) : string :=
  match s with
  | EmptyString => EmptyString
  | String c t => if isWhitespace c then trimStart t else s
  end.

Fixpoint trimEnd (s : string) : string :=
  match s with
  | EmptyString => EmptyString
  | String c t =>
      match trimEnd t with
      | EmptyString => if isWhitespace c then EmptyString else String c EmptyString
      | t' => String c t'
      end
  end.

Definition trim (s : string) : string := trimEnd (trimStart s).

(** [s.replace(/\D/g, '')] *)
Fixpoint stripNonDigits (s : string) : string :=
  match s with
  | EmptyString => EmptyString
  | String c t => if isDigit c then String c (stripNonDigits t) else stripNonDigits t
  end.

(** JavaScript truthiness of a string: every string but the empty one. *)
Definition nonEmpty (s : string) : bool :=
  match s with EmptyString => false | _ => true end.

End Str.

(** Truthiness of an optional string ([undefined], [null] and [''] are falsy). *)
Definition truthy (x : option string) : bool :=
  match x with
  | Some s => Str.nonEmpty s
  | None => false
  end.

(** ** Data model (prisma schema, [src/types/index.ts]) *)

Inductive LinkPrecedence : Type := PRIMARY | SECONDARY.

Definition LinkPrecedence_eqb (a b : LinkPrecedence) : bool :=
  match a, b with
  | PRIMARY, PRIMARY | SECONDARY, SECONDARY => true
  | _, _ => false
  end.

Record Contact : Type := mkContact {
  id : Z;
  phoneNumber : option string;
  email : option string;
  linkedId : option Z;
  linkPrecedence : LinkPrecedence;
  createdAt : Z;
  deletedAt : option Z
}.

Record IdentifyRequest : Type := mkRequest {
  req_email : option string;
  req_phoneNumber : option string
}.

Record IdentifyResponse : Type := mkResponse {
  primaryContactId : Z;
  emails : list string;
  phoneNumbers : list string;
  secondaryContactIds : list Z
}.

(** The errors the service can throw. *)
Inductive Error : Type :=
| SecondaryWithoutLinkedId   (* 'Data integrity issue: Secondary contacts without linkedId' *)
| NoPrimaryForLinkedIds      (* 'Data integrity issue: No primary contact found' *)
| NoPrimaryInChain           (* 'No primary contact found' *)
| RecordNotFound.            (* prisma: record to update not found *)

Inductive result (A : Type) : Type :=
| Ok (a : A)
| Err (e : Error).
Arguments Ok {A} a.
Arguments Err {A} e.

Definition isPrimary (c : Contact) : bool :=
  LinkPrecedence_eqb (linkPrecedence c) PRIMARY.

Definition isSecondary (c : Contact) : bool :=
  LinkPrecedence_eqb (linkPrecedence c) SECONDARY.

Definition notDeleted (c : Contact) : bool :=
  match deletedAt c with None => true | Some _ => false end.

(** ** The Contact store *)

Record Store : Type := mkStore {
  rows : list Contact;
  nextId : Z          (* the autoincrement sequence of [id] *)
}.

(** Stable insertion sort by an integer key: [orderBy ... 'asc'] and
    [Array.prototype.sort((a, b) => key(a) - key(b))]. *)
Section SortOn.
Variable A : Type.
Variable key : A -> Z.

Fixpoint insertOn (x : A) (l : list A) : list A :=
  match l with
  | [] => [x]
  | y :: t => if key x <=? key y then x :: y :: t else y :: insertOn x t
  end.

Fixpoint sortOn (l : list A) : list A :=
  match l with
  | [] => []
  | x :: t => insertOn x (sortOn t)
  end.

Definition keyLe (a b : A) : Prop := key a <= key b.
End SortOn.

Definition optZ_eqb (a b : option Z) : bool :=
  match a, b with
  | Some x, Some y => x =? y
  | None, None => true
  | _, _ => false
  end.

(** Equality filter of a [where] clause on a nullable string column
    against a given string. *)
Definition columnIs (col : option string) (v : string) : bool :=
  match col with
  | Some s => String.eqb s v
  | None => false
  end.

(** [a === b] for a column value ([string | null]) and a request field
    ([string | undefined]): [null === undefined] is false. *)
Definition strictEq (col : option string) (field : option string) : bool :=
  match col, field with
  | Some a, Some b => String.eqb a b
  | _, _ => false
  end.

(** The store/exception monad. *)
Definition M (A : Type) : Type := Store -> Store * result A.

Definition ret {A} (a : A) : M A := fun s => (s, Ok a).
Definition throw {A} (e : Error) : M A := fun s => (s, Err e).
Definition bind {A B} (m : M A) (k : A -> M B) : M B :=
  fun s => match m s with
           | (s', Ok a) => k a s'
           | (s', Err e) => (s', Err e)
           end.
Definition lift {A} (r : result A) : M A := fun s => (s, r).

Declare Scope svc_scope.
Delimit Scope svc_scope with svc.
Notation "x <- m ;; k" := (bind m (fun x => k))
  (at level 61, m at next level, right associativity) : svc_scope.
Notation "m ;;; k" := (bind m (fun _ => k))
  (at level 61, right associativity) : svc_scope.

Module Prisma.

(** [prisma.contact.findMany({ where, orderBy: { createdAt: 'asc' } })].
    The query orders by [createdAt] only.  Rows of equal [createdAt] come
    back in the order of the row list of the table, which stands for the
    order the database happens to return them in: a statement that is to
    hold for every such order is made for every listing of the table. *)
Definition findMany (where_ : Contact -> bool) : M (list Contact) :=
  fun s => (s, Ok (sortOn createdAt (filter where_ (rows s)))).

(** [prisma.contact.findFirst({ where, orderBy: { createdAt: 'asc' } })] *)
Definition findFirst (where_ : Contact -> bool) : M (option Contact) :=
  fun s => (s, Ok (hd_error (sortOn createdAt (filter where_ (rows s))))).

(** [prisma.contact.create({ data })]: [id] from the sequence,
    [createdAt] from the clock, [deletedAt] null. *)
Definition create (now : Z) (email_ phone_ : option string)
           (linkedId_ : option Z) (prec : LinkPrecedence) : M Contact :=
  fun s =>
    let c := mkContact (nextId s) phone_ email_ linkedId_ prec now None in
    (mkStore (rows s ++ [c]) (nextId s + 1), Ok c).

Definition setLink (prec : LinkPrecedence) (l : option Z) (c : Contact) : Contact :=
  mkContact (id c) (phoneNumber c) (email c) l prec (createdAt c) (deletedAt c).

Definition setLinkedId (l : option Z) (c : Contact) : Contact :=
  mkContact (id c) (phoneNumber c) (email c) l (linkPrecedence c)
            (createdAt c) (deletedAt c).

(** [prisma.contact.update({ where: { id }, data })]; throws when no row
    has that id. *)
Definition update (i : Z) (f : Contact -> Contact) : M unit :=
  fun s =>
    if existsb (fun c => id c =? i) (rows s)
    then (mkStore (map (fun c => if id c =? i then f c else c) (rows s)) (nextId s), Ok tt)
    else (s, Err RecordNotFound).

(** [prisma.contact.updateMany({ where, data })] *)
Definition updateMany (where_ : Contact -> bool) (f : Contact -> Contact) : M unit :=
  fun s =>
    (mkStore (map (fun c => if where_ c then f c else c) (rows s)) (nextId s), Ok tt).

End Prisma.

Local Open Scope svc_scope.

(** ** The service ([class IdentityService]) *)

Definition sanitizeInput (data : IdentifyRequest) : IdentifyRequest :=
  mkRequest
    (match req_email data with
     | Some e => Some (Str.toLowerCase (Str.trim e))
     | None => None
     end)
    (if truthy (req_phoneNumber data)
     then match req_phoneNumber data with
          | Some p => Some (Str.stripNonDigits p)
          | None => None
          end
     else None).

(** The [where] clause built by [findMatchingContacts]: the OR of the
    conditions pushed for the truthy fields. *)
Definition matchesWhere (email_ phone_ : option string) (c : Contact) : bool :=
  match email_ with
  | Some e => Str.nonEmpty e && columnIs (email c) e && notDeleted c
  | None => false
  end
  ||
  match phone_ with
  | Some p => Str.nonEmpty p && columnIs (phoneNumber c) p && notDeleted c
  | None => false
  end.

Definition findMatchingContacts (email_ phone_ : option string) : M (list Contact) :=
  if negb (truthy email_) && negb (truthy phone_)
  then ret []
  else Prisma.findMany (matchesWhere email_ phone_).

Definition shouldCreateNewContact (existingContacts : list Contact)
           (email_ phone_ : option string) : bool :=
  let hasExactMatch :=
    existsb (fun contact => strictEq (email contact) email_
                            && strictEq (phoneNumber contact) phone_)
            existingContacts in
  if hasExactMatch then false
  else
    let hasEmail := truthy email_ in
    let hasPhone := truthy phone_ in
    if hasEmail && hasPhone then true
    else if hasEmail
         then negb (existsb (fun c => strictEq (email c) email_) existingContacts)
         else if hasPhone
              then negb (existsb (fun c => strictEq (phoneNumber c) phone_) existingContacts)
              else false.

(** [arr.reduce(f)] without an initial value, on a non-empty array. *)
Definition reduce {A} (f : A -> A -> A) (first : A) (rest : list A) : A :=
  fold_left f rest first.

Definition older (oldest current : Contact) : Contact :=
  if createdAt oldest <? createdAt current then oldest else current.

Fixpoint linkedIdsOf (contacts : list Contact) : list Z :=
  match contacts with
  | [] => []
  | c :: t => match linkedId c with
              | Some i => i :: linkedIdsOf t
              | None => linkedIdsOf t
              end
  end.

Definition memZ (x : Z) (l : list Z) : bool := existsb (Z.eqb x) l.

(** The [where] clause of the look-up among the collected [linkedId]s in
    [findPrimaryContact]. *)
Definition primaryAmong (ids : list Z) (c : Contact) : bool :=
  memZ (id c) ids && isPrimary c && notDeleted c.

Definition findPrimaryContact (contacts : list Contact) : M Contact :=
  match filter isPrimary contacts with
  | first :: rest => ret (reduce older first rest)
  | [] =>
      let linkedIds := linkedIdsOf contacts in
      match linkedIds with
      | [] => throw SecondaryWithoutLinkedId
      | _ =>
          primaryContact <- Prisma.findFirst (primaryAmong linkedIds) ;;
          match primaryContact with
          | None => throw NoPrimaryForLinkedIds
          | Some p => ret p
          end
      end
  end.

(** The body of the [for] loop of [mergePrimaryContacts]. *)
Definition absorb (oldestId : Z) (contact : Contact) : M unit :=
  Prisma.update (id contact) (Prisma.setLink SECONDARY (Some oldestId)) ;;;
  Prisma.updateMany
    (fun c => optZ_eqb (linkedId c) (Some (id contact)) && notDeleted c)
    (Prisma.setLinkedId (Some oldestId)).

Fixpoint forEachM {A} (body : A -> M unit) (l : list A) : M unit :=
  match l with
  | [] => ret tt
  | x :: t => body x ;;; forEachM body t
  end.

Definition mergePrimaryContacts (primaryContacts : list Contact) : M unit :=
  match sortOn createdAt primaryContacts with
  | [] => ret tt
  | oldestPrimary :: newerPrimaries =>
      forEachM (absorb (id oldestPrimary)) newerPrimaries
  end.

Definition chainWhere (primaryId : Z) (c : Contact) : bool :=
  ((id c =? primaryId) || optZ_eqb (linkedId c) (Some primaryId)) && notDeleted c.

Definition getAllContactsInChain (initialContacts : list Contact) : M (list Contact) :=
  primaryContact <- findPrimaryContact initialContacts ;;
  Prisma.findMany (chainWhere (id primaryContact)).

(** [Set.prototype.add]: a [Set] keeps its members in insertion order. *)
Definition setAdd (acc : list string) (x : string) : list string :=
  if existsb (String.eqb x) acc then acc else acc ++ [x].

Definition addIfTruthy (acc : list string) (x : option string) : list string :=
  match x with
  | Some s => if Str.nonEmpty s then setAdd acc s else acc
  | None => acc
  end.

Definition formatResponse (contacts : list Contact) : result IdentifyResponse :=
  match find isPrimary contacts with
  | None => Err NoPrimaryInChain
  | Some primaryContact =>
      let emails_ := fold_left (fun acc c => addIfTruthy acc (email c)) contacts [] in
      let phones_ := fold_left (fun acc c => addIfTruthy acc (phoneNumber c)) contacts [] in
      let secondaryIds := map id (filter isSecondary contacts) in
      Ok (mkResponse (id primaryContact) emails_ phones_
                     (sortOn (fun z : Z => z) secondaryIds))
  end.

Definition handleNewContact (now : Z) (data : IdentifyRequest) : M IdentifyResponse :=
  newContact <- Prisma.create now (req_email data) (req_phoneNumber data) None PRIMARY ;;
  lift (formatResponse [newContact]).

Definition processExistingContacts (now : Z) (matchingContacts : list Contact)
           (data : IdentifyRequest) : M IdentifyResponse :=
  (if shouldCreateNewContact matchingContacts (req_email data) (req_phoneNumber data)
   then
     primaryContact <- findPrimaryContact matchingContacts ;;
     Prisma.create now (req_email data) (req_phoneNumber data)
                   (Some (id primaryContact)) SECONDARY ;;;
     ret tt
   else ret tt) ;;;
  let primaryContacts := filter isPrimary matchingContacts in
  (if (1 <? Z.of_nat (List.length primaryContacts))
   then mergePrimaryContacts primaryContacts
   else ret tt) ;;;
  allContacts <- getAllContactsInChain matchingContacts ;;
  lift (formatResponse allContacts).

Definition identify (now : Z) (data : IdentifyRequest) : M IdentifyResponse :=
  let sanitizedData := sanitizeInput data in
  matchingContacts <- findMatchingContacts (req_email sanitizedData)
                                           (req_phoneNumber sanitizedData) ;;
  match matchingContacts with
  | [] => handleNewContact now sanitizedData
  | _ => processExistingContacts now matchingContacts sanitizedData
  end.

(** The validation step of the controller ([identityController.ts]):
    a request with neither field is answered with status 400 and never
    reaches the service; an [Error] thrown by the service is answered with
    status 500. *)
Inductive HttpResponse : Type :=
| Http200 (body : IdentifyResponse)
| Http400
| Http500 (e : Error).

Definition orUndefined (x : option string) : option string :=
  if truthy x then x else None.

Definition controller (now : Z) (body : IdentifyRequest) (s : Store)
  : Store * HttpResponse :=
  if negb (truthy (req_email body)) && negb (truthy (req_phoneNumber body))
  then (s, Http400)
  else
    let processedData :=
      mkRequest (orUndefined (req_email body)) (orUndefined (req_phoneNumber body)) in
    match identify now processedData s with
    | (s', Ok r) => (s', Http200 r)
    | (s', Err e) => (s', Http500 e)
    end.

(** ** Specification-side definitions *)

(** The matching set of a request: what [findMatchingContacts] returns. *)
Definition matchingSet (email_ phone_ : option string) (s : Store) : list Contact :=
  sortOn createdAt (filter (matchesWhere email_ phone_) (rows s)).

(** The row of the table with a given id. *)
Definition rowById (i : Z) (s : Store) : option Contact :=
  find (fun c => id c =? i) (rows s).

(** The chain of a primary as the response query selects it. *)
Definition chainOf (primaryId : Z) (s : Store) : list Contact :=
  sortOn createdAt (filter (chainWhere primaryId) (rows s)).

(** A request field equals the column of a contact. *)
Definition fieldMatches (col field : option string) : Prop :=
  exists v, field = Some v /\ col = Some v.

(** Ascending by [createdAt], and by id among equal [createdAt]. *)
Definition olderThan (a b : Contact) : Prop :=
  createdAt a < createdAt b \/ (createdAt a = createdAt b /\ id a < id b).

(** Representation invariant of the table: rows are listed in ascending
    id order (so ids are unique) and the sequence is ahead of every id. *)
Definition idsAscending (l : list Contact) : Prop :=
  StronglySorted (fun a b => id a < id b) l.

(** Chain invariants on the non-deleted contacts: a primary carries no
    [linkedId]; a secondary points directly at a non-deleted primary. *)
Definition linkOk (l : list Contact) (c : Contact) : Prop :=
  match linkPrecedence c with
  | PRIMARY => linkedId c = None
  | SECONDARY =>
      exists p, In p l /\ linkedId c = Some (id p)
                /\ linkPrecedence p = PRIMARY /\ deletedAt p = None
  end.

Record wfStore (s : Store) : Prop := mkWf {
  wf_ids : idsAscending (rows s);
  wf_seq : Forall (fun c => id c < nextId s) (rows s);
  wf_links : forall c, In c (rows s) -> deletedAt c = None -> linkOk (rows s) c
}.

(** *** New-record policy, as the specification words it (section 4.3) *)

Definition optString_eqb (a b : option string) : bool :=
  match a, b with
  | Some x, Some y => String.eqb x y
  | None, None => true
  | _, _ => false
  end.

(** A field is supplied when it is present and not empty (the service
    tests the truthiness of the field, and the validator admits no empty
    value). *)
Definition supplied (x : option string) : bool := truthy x.

Definition newRecordPolicy (matching : list Contact)
           (email_ phone_ : option string) : bool :=
  (* 1. the exact combination is known, absent fields included *)
  if existsb (fun c => optString_eqb (email c) email_
                       && optString_eqb (phoneNumber c) phone_) matching
  then false
  (* 2. both supplied *)
  else if supplied email_ && supplied phone_ then true
  (* 3. only email supplied *)
  else if supplied email_
       then negb (existsb (fun c => optString_eqb (email c) email_) matching)
  (* 4. only phone supplied *)
  else if supplied phone_
       then negb (existsb (fun c => optString_eqb (phoneNumber c) phone_) matching)
  else false.

(** *** Response assembly, as the specification words it (section 4.5) *)

(** Membership test of a [Set] of strings. *)
Definition memS (x : string) (l : list string) : bool := existsb (String.eqb x) l.

(** The values that are present and not empty, in order. *)
Fixpoint nonEmptyValues (l : list (option string)) : list string :=
  match l with
  | [] => []
  | Some s :: t => if Str.nonEmpty s then s :: nonEmptyValues t else nonEmptyValues t
  | None :: t => nonEmptyValues t
  end.

(** Keep the first occurrence of every value. *)
Fixpoint firstOccurrences (l : list string) : list string :=
  match l with
  | [] => []
  | x :: t => x :: filter (fun y => negb (String.eqb y x)) (firstOccurrences t)
  end.

(** *** Raw requests that differ only in presentation *)

(** Same letters up to letter case. *)
Inductive sameModuloCase : string -> string -> Prop :=
| smc_nil : sameModuloCase EmptyString EmptyString
| smc_cons a b s t :
    Str.lowerChar a = Str.lowerChar b -> sameModuloCase s t ->
    sameModuloCase (String a s) (String b t).

Fixpoint allWhitespace (s : string) : bool :=
  match s with
  | EmptyString => true
  | String c t => Str.isWhitespace c && allWhitespace t
  end.

(** [s] is [core] with white space around it. *)
Definition padded (core s : string) : Prop :=
  exists l r, allWhitespace l = true /\ allWhitespace r = true
              /\ s = (l ++ core ++ r)%string.

(** Two emails that differ only in letter case or surrounding white space. *)
Definition emailVariant (e1 e2 : string) : Prop :=
  exists c1 c2, padded c1 e1 /\ padded c2 e2 /\ sameModuloCase c1 c2.

(** Two phone numbers that differ only in characters other than digits. *)
Inductive phoneVariant : string -> string -> Prop :=
| pv_nil : phoneVariant EmptyString EmptyString
| pv_same c s t : phoneVariant s t -> phoneVariant (String c s) (String c t)
| pv_skip_l c s t : Str.isDigit c = false -> phoneVariant s t -> phoneVariant (String c s) t
| pv_skip_r c s t : Str.isDigit c = false -> phoneVariant s t -> phoneVariant s (String c t).

Definition optRel (R : string -> string -> Prop) (a b : option string) : Prop :=
  match a, b with
  | Some x, Some y => R x y
  | None, None => True
  | _, _ => False
  end.

Definition requestVariant (r1 r2 : IdentifyRequest) : Prop :=
  optRel emailVariant (req_email r1) (req_email r2)
  /\ optRel phoneVariant (req_phoneNumber r1) (req_phoneNumber r2).

(** *** The effect of a merge on one row *)

(** One turn of the loop of [mergePrimaryContacts], seen on a single row. *)
Definition absorbRow (oldestId : Z) (contact : Contact) (c : Contact) : Contact :=
  let c1 := if id c =? id contact
            then Prisma.setLink SECONDARY (Some oldestId) c else c in
  if optZ_eqb (linkedId c1) (Some (id contact)) && notDeleted c1
  then Prisma.setLinkedId (Some oldestId) c1 else c1.

Definition mergeRow (oldestId : Z) (newer : list Contact) (c : Contact) : Contact :=
  fold_left (fun c a => absorbRow oldestId a c) newer c.

(** Closed form of [mergeRow] when the survivor is not among the absorbed. *)
Definition mergedRow (oldestId : Z) (newer : list Contact) (c : Contact) : Contact :=
  if memZ (id c) (map id newer)
  then Prisma.setLink SECONDARY (Some oldestId) c
  else match linkedId c with
       | Some l => if memZ l (map id newer) && notDeleted c
                   then Prisma.setLinkedId (Some oldestId) c else c
       | None => c
       end.

(** The writes of [processExistingContacts], before the response is
    assembled. *)
Definition processWrites (now : Z) (matchingContacts : list Contact)
           (data : IdentifyRequest) : M unit :=
  (if shouldCreateNewContact matchingContacts (req_email data) (req_phoneNumber data)
   then
     primaryContact <- findPrimaryContact matchingContacts ;;
     Prisma.create now (req_email data) (req_phoneNumber data)
                   (Some (id primaryContact)) SECONDARY ;;;
     ret tt
   else ret tt) ;;;
  let primaryContacts := filter isPrimary matchingContacts in
  (if (1 <? Z.of_nat (List.length primaryContacts))
   then mergePrimaryContacts primaryContacts
   else ret tt).

(** *** The writes of a request, in closed form *)

(** The row [handleNewContact] inserts. *)
Definition newPrimary (now : Z) (d : IdentifyRequest) (s : Store) : Contact :=
  mkContact (nextId s) (req_phoneNumber d) (req_email d) None PRIMARY now None.

(** The row the service inserts for a new combination. *)
Definition secondaryFor (now : Z) (d : IdentifyRequest) (s : Store)
           (primaryContact : Contact) : Contact :=
  mkContact (nextId s) (req_phoneNumber d) (req_email d)
            (Some (id primaryContact)) SECONDARY now None.

(** The rows [processExistingContacts] inserts. *)
Definition createdRows (now : Z) (m : list Contact) (d : IdentifyRequest)
           (s : Store) : list Contact :=
  if shouldCreateNewContact m (req_email d) (req_phoneNumber d)
  then match snd (findPrimaryContact m s) with
       | Ok p => [secondaryFor now d s p]
       | Err _ => []
       end
  else [].

(** The error that stops [processExistingContacts] before any write. *)
Definition writesFail (m : list Contact) (d : IdentifyRequest) (s : Store)
  : option Error :=
  if shouldCreateNewContact m (req_email d) (req_phoneNumber d)
  then match snd (findPrimaryContact m s) with
       | Ok _ => None
       | Err e => Some e
       end
  else None.

(** What the merge of the primaries of [m] does to one row. *)
Definition mergeFn (m : list Contact) (c : Contact) : Contact :=
  match sortOn createdAt (filter isPrimary m) with
  | [] => c
  | oldestPrimary :: newerPrimaries => mergeRow (id oldestPrimary) newerPrimaries c
  end.

(** The table after the writes of a request with a non-empty matching set. *)
Definition afterWrites (now : Z) (m : list Contact) (d : IdentifyRequest)
           (s : Store) : Store :=
  mkStore (map (mergeFn m) (rows s ++ createdRows now m d s))
          (nextId s + Z.of_nat (List.length (createdRows now m d s))).

(** *** Data-integrity failures (section 7) *)

Definition isIntegrityError (e : Error) : Prop :=
  e = SecondaryWithoutLinkedId \/ e = NoPrimaryForLinkedIds \/ e = NoPrimaryInChain.

(** The matching set, which is not empty, holds secondaries only and none
    of their [linkedId]s is the id of a non-deleted primary. *)
Definition orphanedMatching (m : list Contact) (s : Store) : Prop :=
  m <> []
  /\ (forall c, In c m -> linkPrecedence c = SECONDARY)
  /\ ~ exists p, In p (rows s) /\ In (id p) (linkedIdsOf m)
                 /\ linkPrecedence p = PRIMARY /\ deletedAt p = None.

(** The chain assembled for the response, after the writes of the
    request, holds no primary. *)
Definition chainWithoutPrimary (now : Z) (m : list Contact) (d : IdentifyRequest)
           (s : Store) : Prop :=
  m <> []
  /\ exists s1 chain,
       processWrites now m d s = (s1, Ok tt)
       /\ getAllContactsInChain m s1 = (s1, Ok chain)
       /\ forall c, In c chain -> linkPrecedence c = SECONDARY.

(** The request the controller hands to the service. *)
Definition processedData (body : IdentifyRequest) : IdentifyRequest :=
  mkRequest (orUndefined (req_email body)) (orUndefined (req_phoneNumber body)).

(** The controller's validation rejects the body. *)
Definition rejected (body : IdentifyRequest) : bool :=
  negb (truthy (req_email body)) && negb (truthy (req_phoneNumber body)).

(** *** Sample tables *)

Definition emptyStore : Store := mkStore [] 1.

(** A chain in creation order: a primary and a later secondary. *)
Definition lorraine : Contact :=
  mkContact 1 (Some "123456") (Some "lorraine@hillvalley.edu") None PRIMARY 1000 None.
Definition marty : Contact :=
  mkContact 2 (Some "123456") (Some "mcfly@hillvalley.edu") (Some 1) SECONDARY 2000 None.
Definition orderedStore : Store := mkStore [lorraine; marty] 3.

(** Two primaries created in the same millisecond, and the request that
    bridges them. *)
Definition george : Contact :=
  mkContact 1 (Some "919191") (Some "george@hillvalley.edu") None PRIMARY 1000 None.
Definition biff : Contact :=
  mkContact 2 (Some "717171") (Some "biffsucks@hillvalley.edu") None PRIMARY 1000 None.
Definition tiedStore : Store := mkStore [george; biff] 3.
Definition bridgeRequest : IdentifyRequest :=
  mkRequest (Some "george@hillvalley.edu") (Some "717171").

(** Two chains, the second with a secondary and a soft-deleted secondary. *)
Definition biffLate : Contact :=
  mkContact 2 (Some "717171") (Some "biffsucks@hillvalley.edu") None PRIMARY 2000 None.
Definition griff : Contact :=
  mkContact 3 (Some "717171") (Some "griff@hillvalley.edu") (Some 2) SECONDARY 2500 None.
Definition needles : Contact :=
  mkContact 4 (Some "717171") (Some "needles@hillvalley.edu") (Some 2) SECONDARY 2600
            (Some 2700).
Definition hillValley : Store := mkStore [george; biffLate; griff; needles] 5.

(** The table and the response after the bridging request on [hillValley]. *)
Definition afterBridge : Store :=
  Eval vm_compute in fst (identify 3000 bridgeRequest hillValley).
Definition bridgeResponse : IdentifyResponse :=
  mkResponse 1
    ["george@hillvalley.edu"; "biffsucks@hillvalley.edu"; "griff@hillvalley.edu"]
    ["919191"; "717171"] [2; 3; 5].

(** *** Further notions used by the additional properties *)

(** Every character is a digit. *)
Fixpoint allDigits (s : string) : bool :=
  match s with
  | EmptyString => true
  | String c t => Str.isDigit c && allDigits t
  end.

(** The pattern [/^[0-9]{1,15}$/] of the validator
    ([src/validators/identifyValidator.ts]). *)
Definition matchesPhonePattern (s : string) : bool :=
  (1 <=? String.length s)%nat && (String.length s <=? 15)%nat && allDigits s.

(** A string that does not begin with white space. *)
Definition startsClean (s : string) : bool :=
  match s with
  | EmptyString => true
  | String c _ => negb (Str.isWhitespace c)
  end.

(** What the service never rewrites in a row. *)
Definition contactData (c : Contact)
  : Z * option string * option string * Z * option Z :=
  (id c, email c, phoneNumber c, createdAt c, deletedAt c).

(** A row after a write: the same data, and a secondary is still one. *)
Definition rowKept (c c' : Contact) : Prop :=
  contactData c' = contactData c
  /\ (linkPrecedence c = SECONDARY -> linkPrecedence c' = SECONDARY).

(** *** The service as [src/unnamed/part_000] has it *)

(** The repository keeps a second text of the service.  It validates the
    request in [identify] itself and does not normalize it; it tests the
    presence of a field, not its truthiness, when it decides on a new row;
    it resolves a listed primary by sorting; and it puts the values of the
    primary first in a response.  The loop of [mergePrimaryContacts] is the
    one above. *)
Module Unnamed.

(** What [identify] throws: the error of its own validation, or an error
    of the calls it makes. *)
Inductive Failure : Type :=
| EitherFieldRequired      (* 'Either email or phoneNumber must be provided' *)
| Raised (e : Error).

Inductive Outcome : Type :=
| Answered (r : IdentifyResponse)
| Failed (f : Failure).

(** The [where] clause [{ OR: whereConditions, deletedAt: null }]; an
    empty [OR] selects no row. *)
Definition matchesWhere (email_ phone_ : option string) (c : Contact) : bool :=
  (match email_ with
   | Some e => Str.nonEmpty e && columnIs (email c) e
   | None => false
   end
   ||
   match phone_ with
   | Some p => Str.nonEmpty p && columnIs (phoneNumber c) p
   | None => false
   end)
  && notDeleted c.

Definition findMatchingContacts (email_ phone_ : option string) : M (list Contact) :=
  Prisma.findMany (matchesWhere email_ phone_).

(** [x !== null && x !== undefined] *)
Definition present (x : option string) : bool :=
  match x with Some _ => true | None => false end.

Definition shouldCreateNewContact (existingContacts : list Contact)
           (email_ phone_ : option string) : bool :=
  let hasExactMatch :=
    existsb (fun contact => strictEq (email contact) email_
                            && strictEq (phoneNumber contact) phone_)
            existingContacts in
  if hasExactMatch then false
  else
    let hasEmail := present email_ in
    let hasPhone := present phone_ in
    if hasEmail && hasPhone then true
    else if hasEmail && negb hasPhone
         then negb (existsb (fun c => strictEq (email c) email_) existingContacts)
         else if hasPhone && negb hasEmail
              then negb (existsb (fun c => strictEq (phoneNumber c) phone_) existingContacts)
              else false.

Definition findPrimaryContact (contacts : list Contact) : M Contact :=
  match filter isPrimary contacts with
  | first :: rest => ret (hd first (sortOn createdAt (first :: rest)))
  | [] =>
      let linkedIds := linkedIdsOf contacts in
      primaryContact <- Prisma.findFirst (primaryAmong linkedIds) ;;
      match primaryContact with
      | None => throw NoPrimaryForLinkedIds
      | Some p => ret p
      end
  end.

Definition getAllContactsInChain (initialContacts : list Contact) : M (list Contact) :=
  primaryContact <- findPrimaryContact initialContacts ;;
  Prisma.findMany (chainWhere (id primaryContact)).

Definition formatResponse (contacts : list Contact) : result IdentifyResponse :=
  match find isPrimary contacts with
  | None => Err NoPrimaryInChain
  | Some primaryContact =>
      let emails0 := addIfTruthy [] (email primaryContact) in
      let phones0 := addIfTruthy [] (phoneNumber primaryContact) in
      let emails_ :=
        fold_left (fun acc c => if isSecondary c then addIfTruthy acc (email c) else acc)
                  contacts emails0 in
      let phones_ :=
        fold_left (fun acc c => if isSecondary c then addIfTruthy acc (phoneNumber c) else acc)
                  contacts phones0 in
      let secondaryIds := map id (filter isSecondary contacts) in
      Ok (mkResponse (id primaryContact) emails_ phones_
                     (sortOn (fun z : Z => z) secondaryIds))
  end.

(** The body of [identify] after its validation. *)
Definition reconcile (now : Z) (email_ phone_ : option string) : M IdentifyResponse :=
  matchingContacts <- findMatchingContacts email_ phone_ ;;
  match matchingContacts with
  | [] =>
      newContact <- Prisma.create now email_ phone_ None PRIMARY ;;
      lift (formatResponse [newContact])
  | _ =>
      let needsNewContact := shouldCreateNewContact matchingContacts email_ phone_ in
      (if needsNewContact
       then
         primaryContact <- findPrimaryContact matchingContacts ;;
         Prisma.create now email_ phone_ (Some (id primaryContact)) SECONDARY ;;;
         ret tt
       else ret tt) ;;;
      let primaryContacts := filter isPrimary matchingContacts in
      (if (1 <? Z.of_nat (List.length primaryContacts))
       then mergePrimaryContacts primaryContacts
       else ret tt) ;;;
      allContacts <- getAllContactsInChain matchingContacts ;;
      lift (formatResponse allContacts)
  end.

Definition identify (now : Z) (data : IdentifyRequest) (s : Store) : Store * Outcome :=
  if negb (truthy (req_email data)) && negb (truthy (req_phoneNumber data))
  then (s, Failed EitherFieldRequired)
  else match reconcile now (req_email data) (req_phoneNumber data) s with
       | (s', Ok r) => (s', Answered r)
       | (s', Err e) => (s', Failed (Raised e))
       end.

End Unnamed.

(** The single primary of a list of contacts. *)
Definition onlyPrimary (p : Contact) (contacts : list Contact) : Prop :=
  In p contacts /\ linkPrecedence p = PRIMARY
  /\ forall c, In c contacts -> linkPrecedence c = PRIMARY -> c = p.

(** *** The chain invariants, whatever the order of the rows *)

(** The invariants of section 3 on their own: ids are unique and behind
    the sequence, a primary carries no [linkedId] and a secondary points
    directly at a non-deleted primary.  Nothing is asked of the order in
    which the table lists its rows: that order is the order in which a
    query returns rows of equal [createdAt], which the database is free
    to choose. *)
Record chainInvariants (s : Store) : Prop := mkInv {
  inv_ids : NoDup (map id (rows s));
  inv_seq : Forall (fun c => id c < nextId s) (rows s);
  inv_links : forall c, In c (rows s) -> deletedAt c = None -> linkOk (rows s) c
}.

(** The engine adds a row to the table. *)
Definition createsRow (now : Z) (req : IdentifyRequest) (s : Store) : Prop :=
  List.length (rows (fst (identify now req s))) = S (List.length (rows s)).

(** The engine leaves the number of rows as it is. *)
Definition createsNoRow (now : Z) (req : IdentifyRequest) (s : Store) : Prop :=
  List.length (rows (fst (identify now req s))) = List.length (rows s).

(** Primary resolution answers on the matching set (nothing is to be
    resolved on an empty one). *)
Definition resolves (m : list Contact) (s : Store) : Prop :=
  m = [] \/ exists p, snd (findPrimaryContact m s) = Ok p.

(** *** Further sample tables *)

(** The two primaries of [tiedStore], listed the other way round. *)
Definition swappedStore : Store := mkStore [biff; george] 3.

(** A secondary whose primary has no row. *)
Definition strandedStore : Store := mkStore [griff] 5.

(** A secondary created in the same millisecond as its primary, and a
    table that lists it first. *)
Definition jennifer : Contact :=
  mkContact 2 (Some "123456") (Some "jennifer@hillvalley.edu") (Some 1) SECONDARY 1000 None.
Definition sameMillisecond : Store := mkStore [jennifer; lorraine] 3.

(* ================================================================== *)
(** * Theorems *)

(** ** Stable sorting by a key *)

Section SortOnFacts.
Variable A : Type.
Variable key : A -> Z.

Lemma insertOn_perm (x : A) (l : list A) :
  Permutation (insertOn key x l) (x :: l).
Proof.
  induction l as [|y t IH]; simpl.
  - apply Permutation_refl.
  - destruct (key x <=? key y).
    + apply Permutation_refl.
    + eapply Permutation_trans; [apply perm_skip, IH | apply perm_swap].
Qed.

Lemma sortOn_perm (l : list A) : Permutation (sortOn key l) l.
Proof.
  induction l as [|x t IH]; simpl.
  - apply perm_nil.
  - eapply Permutation_trans; [apply insertOn_perm | apply perm_skip, IH].
Qed.

Lemma sortOn_In (l : list A) (x : A) : In x (sortOn key l) <-> In x l.
Proof.
  split; apply Permutation_in;
    [apply sortOn_perm | apply Permutation_sym, sortOn_perm].
Qed.

Lemma sortOn_length (l : list A) : List.length (sortOn key l) = List.length l.
Proof. apply Permutation_length, sortOn_perm. Qed.

Lemma sortOn_nil_iff (l : list A) : sortOn key l = [] <-> l = [].
Proof.
  split; intros H.
  - apply Permutation_nil. rewrite <- H. apply sortOn_perm.
  - subst. reflexivity.
Qed.

Lemma insertOn_sorted (x : A) (l : list A) :
  StronglySorted (keyLe key) l -> StronglySorted (keyLe key) (insertOn key x l).
Proof.
  induction 1 as [|y t Hs IH Hall]; simpl.
  - constructor; [constructor | constructor].
  - destruct (key x <=? key y) eqn:E.
    + apply Z.leb_le in E. constructor.
      * constructor; assumption.
      * constructor; [exact E|].
        rewrite Forall_forall in *. intros z Hz.
        specialize (Hall z Hz). unfold keyLe in *. lia.
    + apply Z.leb_gt in E. constructor; [exact IH|].
      rewrite Forall_forall in *. intros z Hz.
      apply (Permutation_in _ (insertOn_perm x t)) in Hz.
      destruct Hz as [<-|Hz]; [unfold keyLe; lia | auto].
Qed.

Lemma sortOn_sorted (l : list A) : StronglySorted (keyLe key) (sortOn key l).
Proof.
  induction l as [|x t IH]; simpl; [constructor | apply insertOn_sorted, IH].
Qed.

(** Sorting a list that is already in order leaves it as it is. *)
Lemma sortOn_id (l : list A) : StronglySorted (keyLe key) l -> sortOn key l = l.
Proof.
  induction 1 as [|x t Hs IH Hall]; simpl; [reflexivity|].
  rewrite IH. destruct t as [|y t']; [reflexivity|]. simpl.
  inversion Hall as [|? ? Hxy _]; subst. unfold keyLe in Hxy.
  apply Z.leb_le in Hxy. rewrite Hxy. reflexivity.
Qed.

(** Selection commutes with the sort. *)
Lemma filter_insertOn (p : A -> bool) (x : A) (l : list A) :
  StronglySorted (keyLe key) l ->
  filter p (insertOn key x l)
  = if p x then insertOn key x (filter p l) else filter p l.
Proof.
  induction 1 as [|y t Hs IH Hall]; simpl.
  - destruct (p x); reflexivity.
  - destruct (key x <=? key y) eqn:E; simpl.
    + destruct (p x) eqn:Px, (p y) eqn:Py; simpl; rewrite ?E; try reflexivity.
      (* x kept, y dropped: x goes in front of what is left of t *)
      apply Z.leb_le in E.
      assert (Hx : Forall (keyLe key x) (filter p t)).
      { rewrite Forall_forall in *. intros z Hz. apply filter_In in Hz.
        destruct Hz as [Hz _]. specialize (Hall z Hz). unfold keyLe in *. lia. }
      destruct (filter p t) as [|z t']; [reflexivity|]. simpl.
      inversion Hx as [|? ? Hxz _]; subst. unfold keyLe in Hxz.
      apply Z.leb_le in Hxz. rewrite Hxz. reflexivity.
    + rewrite IH. destruct (p x), (p y); simpl; rewrite ?E; reflexivity.
Qed.

Lemma filter_sortOn (p : A -> bool) (l : list A) :
  filter p (sortOn key l) = sortOn key (filter p l).
Proof.
  induction l as [|x t IH]; simpl; [reflexivity|].
  rewrite filter_insertOn by apply sortOn_sorted.
  rewrite IH. destruct (p x); reflexivity.
Qed.

(** A strict minimum is sorted to the front. *)
Lemma insertOn_front (x : A) (l : list A) :
  Forall (fun y => key x <= key y) l -> insertOn key x l = x :: l.
Proof.
  intros H. destruct l as [|y t]; simpl; [reflexivity|].
  inversion H as [|? ? Hxy _]; subst. apply Z.leb_le in Hxy.
  rewrite Hxy. reflexivity.
Qed.

Lemma insertOn_behind (x m : A) (l : list A) :
  key m < key x -> insertOn key x (m :: l) = m :: insertOn key x l.
Proof.
  intros H. simpl. apply Z.leb_gt in H. rewrite H. reflexivity.
Qed.

Lemma sortOn_strict_min (l1 l2 : list A) (m : A) :
  (forall y, In y (l1 ++ l2) -> key m < key y) ->
  sortOn key (l1 ++ m :: l2) = m :: sortOn key (l1 ++ l2).
Proof.
  induction l1 as [|x t IH]; simpl; intros H.
  - apply insertOn_front. rewrite Forall_forall. intros y Hy.
    apply (proj1 (sortOn_In _ _)) in Hy. specialize (H y Hy). lia.
  - rewrite IH by (intros y Hy; apply H; right; exact Hy).
    apply insertOn_behind. apply H. left. reflexivity.
Qed.

End SortOnFacts.

Lemma sortOn_map (A : Type) (key : A -> Z) (g : A -> A) (l : list A) :
  (forall x, key (g x) = key x) ->
  sortOn key (map g l) = map g (sortOn key l).
Proof.
  intros Hg. induction l as [|x t IH]; simpl; [reflexivity|]. rewrite IH.
  generalize (sortOn key t). intros l'.
  induction l' as [|y t' IH']; simpl; [reflexivity|].
  rewrite !Hg. destruct (key x <=? key y); simpl; [reflexivity|].
  rewrite IH'. reflexivity.
Qed.

(** ** Boolean tests *)

Lemma optString_eqb_eq (a b : option string) : optString_eqb a b = true <-> a = b.
Proof.
  destruct a as [x|], b as [y|]; simpl; split; intros H;
    try discriminate; try reflexivity.
  - apply String.eqb_eq in H. subst. reflexivity.
  - inversion H. apply String.eqb_refl.
Qed.

Lemma optZ_eqb_eq (a b : option Z) : optZ_eqb a b = true <-> a = b.
Proof.
  destruct a as [x|], b as [y|]; simpl; split; intros H;
    try discriminate; try reflexivity.
  - apply Z.eqb_eq in H. subst. reflexivity.
  - inversion H. apply Z.eqb_refl.
Qed.

Lemma memZ_In (x : Z) (l : list Z) : memZ x l = true <-> In x l.
Proof.
  unfold memZ. rewrite existsb_exists. split.
  - intros [y [Hy E]]. apply Z.eqb_eq in E. subst. exact Hy.
  - intros H. exists x. split; [exact H | apply Z.eqb_refl].
Qed.

Lemma isPrimary_true (c : Contact) : isPrimary c = true <-> linkPrecedence c = PRIMARY.
Proof. unfold isPrimary. destruct (linkPrecedence c); simpl; split; congruence. Qed.

Lemma isPrimary_false (c : Contact) : isPrimary c = false <-> linkPrecedence c = SECONDARY.
Proof. unfold isPrimary. destruct (linkPrecedence c); simpl; split; congruence. Qed.

Lemma isSecondary_negb (c : Contact) : isSecondary c = negb (isPrimary c).
Proof. unfold isSecondary, isPrimary. destruct (linkPrecedence c); reflexivity. Qed.

Lemma notDeleted_true (c : Contact) : notDeleted c = true <-> deletedAt c = None.
Proof. unfold notDeleted. destruct (deletedAt c); split; congruence. Qed.

Lemma filter_nil_iff (A : Type) (f : A -> bool) (l : list A) :
  filter f l = [] <-> forall x, In x l -> f x = false.
Proof.
  induction l as [|x t IH]; simpl.
  - split; [intros _ y [] | reflexivity].
  - destruct (f x) eqn:E; split; intros H.
    + discriminate.
    + specialize (H x (or_introl eq_refl)). congruence.
    + intros y [<-|Hy]; [exact E | apply IH; assumption].
    + apply IH. intros y Hy. apply H. right. exact Hy.
Qed.

(** ** The matching query *)

Lemma matchesWhere_falsy (e p : option string) (c : Contact) :
  truthy e = false -> truthy p = false -> matchesWhere e p c = false.
Proof.
  unfold matchesWhere, truthy. intros He Hp.
  destruct e as [e|], p as [p|]; simpl; rewrite ?He, ?Hp; reflexivity.
Qed.

Lemma findMatchingContacts_eq (e p : option string) (s : Store) :
  findMatchingContacts e p s = (s, Ok (matchingSet e p s)).
Proof.
  unfold findMatchingContacts, matchingSet.
  destruct (truthy e) eqn:He; simpl; [reflexivity|].
  destruct (truthy p) eqn:Hp; simpl; [reflexivity|].
  unfold ret. replace (filter (matchesWhere e p) (rows s)) with (@nil Contact);
    [reflexivity|].
  symmetry. apply filter_nil_iff. intros c _. apply matchesWhere_falsy; assumption.
Qed.

Lemma matchingSet_In (e p : option string) (s : Store) (c : Contact) :
  In c (matchingSet e p s) <-> In c (rows s) /\ matchesWhere e p c = true.
Proof. unfold matchingSet. rewrite sortOn_In. apply filter_In. Qed.

Lemma matchesWhere_notDeleted (e p : option string) (c : Contact) :
  matchesWhere e p c = true -> deletedAt c = None.
Proof.
  unfold matchesWhere. intros H. apply notDeleted_true.
  destruct e as [e|], p as [p|]; simpl in H;
    repeat (apply orb_true_iff in H; destruct H as [H|H]);
    repeat (apply andb_true_iff in H; destruct H as [H ?]);
    try discriminate; assumption.
Qed.

(** ** New identity *)


Lemma handleNewContact_eq (now : Z) (d : IdentifyRequest) (s : Store) :
  handleNewContact now d s
  = (mkStore (rows s ++ [newPrimary now d s]) (nextId s + 1),
     Ok (mkResponse (nextId s)
                    (addIfTruthy [] (req_email d))
                    (addIfTruthy [] (req_phoneNumber d)) [])).
Proof. reflexivity. Qed.

Lemma identify_no_match (now : Z) (req : IdentifyRequest) (s : Store) :
  let d := sanitizeInput req in
  matchingSet (req_email d) (req_phoneNumber d) s = [] ->
  identify now req s = handleNewContact now d s.
Proof.
  intros d H. unfold identify, bind. fold d.
  rewrite findMatchingContacts_eq, H. reflexivity.
Qed.


Lemma matchesWhere_fieldMatches (e p : option string) (c : Contact) :
  matchesWhere e p c = true ->
  fieldMatches (email c) e \/ fieldMatches (phoneNumber c) p.
Proof.
  unfold matchesWhere, fieldMatches, columnIs. intros H.
  apply orb_true_iff in H. destruct H as [H|H]; [left|right].
  - destruct e as [e|]; [|discriminate].
    repeat (apply andb_true_iff in H; destruct H as [H ?]).
    destruct (email c) as [x|]; [|discriminate].
    match goal with E : String.eqb _ _ = true |- _ => apply String.eqb_eq in E; subst end.
    exists e. split; reflexivity.
  - destruct p as [p|]; [|discriminate].
    repeat (apply andb_true_iff in H; destruct H as [H ?]).
    destruct (phoneNumber c) as [x|]; [|discriminate].
    match goal with E : String.eqb _ _ = true |- _ => apply String.eqb_eq in E; subst end.
    exists p. split; reflexivity.
Qed.

(** C8. A request whose normalized email and phone match no non-deleted
    contact creates exactly one contact, a primary carrying the normalized
    fields, and the response names that contact as primary and lists no
    secondary. *)
Theorem identify_new_identity (now : Z) (req : IdentifyRequest) (s : Store) :
  let d := sanitizeInput req in
  (forall c, In c (rows s) -> deletedAt c = None ->
             ~ fieldMatches (email c) (req_email d)
             /\ ~ fieldMatches (phoneNumber c) (req_phoneNumber d)) ->
  exists c r,
    identify now req s = (mkStore (rows s ++ [c]) (nextId s + 1), Ok r)
    /\ linkPrecedence c = PRIMARY
    /\ linkedId c = None
    /\ email c = req_email d
    /\ phoneNumber c = req_phoneNumber d
    /\ deletedAt c = None
    /\ primaryContactId r = id c
    /\ secondaryContactIds r = [].
Proof.
  intros d H.
  assert (Hm : matchingSet (req_email d) (req_phoneNumber d) s = []).
  { unfold matchingSet. apply sortOn_nil_iff, filter_nil_iff. intros c Hc.
    destruct (matchesWhere (req_email d) (req_phoneNumber d) c) eqn:E; [|reflexivity].
    exfalso. destruct (H c Hc (matchesWhere_notDeleted _ _ _ E)) as [H1 H2].
    destruct (matchesWhere_fieldMatches _ _ _ E); tauto. }
  exists (newPrimary now d s),
         (mkResponse (nextId s) (addIfTruthy [] (req_email d))
                     (addIfTruthy [] (req_phoneNumber d)) []).
  rewrite (identify_no_match now req s Hm), handleNewContact_eq.
  repeat split.
Qed.


Lemma identify_new_identity_witness :
  exists c r,
    identify 10 (mkRequest (Some "doc@hillvalley.edu") (Some "555-0100")) emptyStore
    = (mkStore (rows emptyStore ++ [c]) (nextId emptyStore + 1), Ok r)
    /\ linkPrecedence c = PRIMARY
    /\ linkedId c = None
    /\ email c = Some "doc@hillvalley.edu"
    /\ phoneNumber c = Some "5550100"
    /\ deletedAt c = None
    /\ primaryContactId r = id c
    /\ secondaryContactIds r = [].
Proof.
  apply (identify_new_identity 10
           (mkRequest (Some "doc@hillvalley.edu") (Some "555-0100")) emptyStore).
  simpl. intros c [].
Defined.

(** C10. With neither field present the service does not throw: the
    matching query answers the empty list, a primary with both fields
    absent is created, and the response carries its id and three empty
    lists. *)
Theorem identify_without_fields (now : Z) (s : Store) :
  findMatchingContacts None None s = (s, Ok [])
  /\ identify now (mkRequest None None) s
     = (mkStore (rows s ++ [mkContact (nextId s) None None None PRIMARY now None])
                (nextId s + 1),
        Ok (mkResponse (nextId s) [] [] [])).
Proof. split; reflexivity. Qed.

(** ** New-record decision *)

Lemma existsb_ext_in (A : Type) (f g : A -> bool) (l : list A) :
  (forall x, In x l -> f x = g x) -> existsb f l = existsb g l.
Proof.
  induction l as [|x t IH]; simpl; intros H; [reflexivity|].
  rewrite (H x (or_introl eq_refl)), IH; [reflexivity|].
  intros y Hy. apply H. right. exact Hy.
Qed.

Lemma strictEq_Some (col : option string) (v : string) :
  strictEq col (Some v) = optString_eqb col (Some v).
Proof. destruct col; reflexivity. Qed.

Lemma strictEq_None (col : option string) : strictEq col None = false.
Proof. destruct col; reflexivity. Qed.

Lemma existsb_weaken (A : Type) (f g : A -> bool) (l : list A) :
  (forall x, f x = true -> g x = true) ->
  existsb f l = true -> existsb g l = true.
Proof.
  intros H Hf. apply existsb_exists in Hf. destruct Hf as [x [Hx Hfx]].
  apply existsb_exists. exists x. split; [exact Hx | apply H, Hfx].
Qed.

(** The decision of [shouldCreateNewContact] is the policy of section 4.3
    evaluated in order, for every list of matched contacts and every pair
    of input fields. *)
Lemma shouldCreateNewContact_policy
        (matching : list Contact) (email_ phone_ : option string) :
  shouldCreateNewContact matching email_ phone_
  = newRecordPolicy matching email_ phone_.
Proof.
  unfold shouldCreateNewContact, newRecordPolicy, supplied.
  destruct email_ as [e|], phone_ as [p|].
  - rewrite (existsb_ext_in _
               (fun c => optString_eqb (email c) (Some e)
                         && optString_eqb (phoneNumber c) (Some p))).
    2:{ intros c _. rewrite !strictEq_Some. reflexivity. }
    rewrite (existsb_ext_in (fun c => strictEq (email c) (Some e))
                            (fun c => optString_eqb (email c) (Some e)))
      by (intros c _; apply strictEq_Some).
    rewrite (existsb_ext_in (fun c => strictEq (phoneNumber c) (Some p))
                            (fun c => optString_eqb (phoneNumber c) (Some p)))
      by (intros c _; apply strictEq_Some).
    reflexivity.
  - (* phone absent: [=== undefined] never holds on a column *)
    rewrite (existsb_ext_in _ (fun _ => false)).
    2:{ intros c _. rewrite strictEq_None. apply andb_false_r. }
    rewrite (existsb_ext_in (fun c => strictEq (email c) (Some e))
                            (fun c => optString_eqb (email c) (Some e)))
      by (intros c _; apply strictEq_Some).
    replace (existsb (fun _ : Contact => false) matching) with false
      by (induction matching; simpl; auto).
    simpl truthy at 2 4. rewrite !andb_false_r.
    destruct (existsb (fun c => optString_eqb (email c) (Some e)
                                && optString_eqb (phoneNumber c) None) matching) eqn:X.
    + apply (existsb_weaken _ (fun c => optString_eqb (email c) (Some e))) in X.
      2:{ intros c Hc. apply andb_true_iff in Hc. tauto. }
      rewrite X. destruct (truthy (Some e)); reflexivity.
    + reflexivity.
  - rewrite (existsb_ext_in _ (fun _ => false)).
    2:{ intros c _. rewrite strictEq_None. reflexivity. }
    rewrite (existsb_ext_in (fun c => strictEq (phoneNumber c) (Some p))
                            (fun c => optString_eqb (phoneNumber c) (Some p)))
      by (intros c _; apply strictEq_Some).
    replace (existsb (fun _ : Contact => false) matching) with false
      by (induction matching; simpl; auto).
    simpl truthy at 1 3. simpl andb at 1. cbv iota.
    destruct (existsb (fun c => optString_eqb (email c) None
                                && optString_eqb (phoneNumber c) (Some p)) matching) eqn:X.
    + apply (existsb_weaken _ (fun c => optString_eqb (phoneNumber c) (Some p))) in X.
      2:{ intros c Hc. apply andb_true_iff in Hc. tauto. }
      rewrite X. destruct (truthy (Some p)); reflexivity.
    + reflexivity.
  - rewrite (existsb_ext_in _ (fun _ => false)).
    2:{ intros c _. rewrite strictEq_None. reflexivity. }
    replace (existsb (fun _ : Contact => false) matching) with false
      by (induction matching; simpl; auto).
    simpl. destruct (existsb _ matching); reflexivity.
Qed.

(** ** Primary resolution *)

Lemma older_cases (a b : Contact) :
  (older a b = a /\ createdAt a < createdAt b)
  \/ (older a b = b /\ createdAt b <= createdAt a).
Proof.
  unfold older. destruct (createdAt a <? createdAt b) eqn:E.
  - left. apply Z.ltb_lt in E. auto.
  - right. apply Z.ltb_ge in E. auto.
Qed.

(** [reduce older] returns an element of least [createdAt]; of several
    with that [createdAt] it returns the one listed last. *)
Lemma fold_older_spec (rest : list Contact) : forall acc : Contact,
  exists l1 l2,
    acc :: rest = l1 ++ fold_left older rest acc :: l2
    /\ (forall q, In q l1 -> createdAt (fold_left older rest acc) <= createdAt q)
    /\ (forall q, In q l2 -> createdAt (fold_left older rest acc) < createdAt q).
Proof.
  induction rest as [|x t IH]; intros acc; simpl.
  - exists [], []. repeat split; intros q [].
  - destruct (IH (older acc x)) as [l1 [l2 [E [H1 H2]]]].
    remember (fold_left older t (older acc x)) as r eqn:Hr. clear Hr IH.
    destruct (older_cases acc x) as [[Ho Hlt]|[Ho Hle]]; rewrite Ho in E;
      destruct l1 as [|y l1']; simpl in E; injection E as E1 E2; subst.
    + exists [], (x :: l2). simpl. split; [reflexivity|].
      split; [intros q []|]. intros q [<-|Hq]; [exact Hlt | apply H2, Hq].
    + exists (y :: x :: l1'), l2. simpl. split; [reflexivity|].
      split; [|exact H2].
      assert (Hf : createdAt r <= createdAt y) by (apply H1; left; reflexivity).
      intros q [<-|[<-|Hq]]; [exact Hf | lia | apply H1; right; exact Hq].
    + exists [acc], l2. simpl. split; [reflexivity|].
      split; [|exact H2]. intros q [<-|[]]. exact Hle.
    + exists (acc :: y :: l1'), l2. simpl. split; [reflexivity|].
      split; [|exact H2].
      assert (Hx : createdAt r <= createdAt y) by (apply H1; left; reflexivity).
      intros q [<-|[<-|Hq]]; [lia | exact Hx | apply H1; right; exact Hq].
Qed.

Lemma reduce_older_spec (first : Contact) (rest : list Contact) :
  exists l1 l2,
    first :: rest = l1 ++ reduce older first rest :: l2
    /\ (forall q, In q l1 -> createdAt (reduce older first rest) <= createdAt q)
    /\ (forall q, In q l2 -> createdAt (reduce older first rest) < createdAt q).
Proof. apply fold_older_spec. Qed.

Lemma reduce_older_In (first : Contact) (rest : list Contact) :
  In (reduce older first rest) (first :: rest).
Proof.
  destruct (reduce_older_spec first rest) as [l1 [l2 [E _]]].
  rewrite E. apply in_or_app. right. left. reflexivity.
Qed.

Lemma reduce_older_least (first : Contact) (rest : list Contact) (q : Contact) :
  In q (first :: rest) -> createdAt (reduce older first rest) <= createdAt q.
Proof.
  destruct (reduce_older_spec first rest) as [l1 [l2 [E [H1 H2]]]].
  rewrite E. intros Hq. apply in_app_or in Hq.
  destruct Hq as [Hq|[<-|Hq]]; [apply H1, Hq | lia | specialize (H2 q Hq); lia].
Qed.

(** With a primary in the list, resolution reads nothing from the store
    and answers a listed primary of least [createdAt]. *)
Lemma findPrimaryContact_listed (contacts : list Contact) (s : Store) :
  filter isPrimary contacts <> [] ->
  exists p,
    findPrimaryContact contacts s = (s, Ok p)
    /\ In p contacts
    /\ linkPrecedence p = PRIMARY
    /\ (forall q, In q contacts -> linkPrecedence q = PRIMARY ->
                  createdAt p <= createdAt q).
Proof.
  unfold findPrimaryContact. intros Hne.
  destruct (filter isPrimary contacts) as [|first rest] eqn:E; [congruence|].
  exists (reduce older first rest).
  assert (Hin : In (reduce older first rest) (filter isPrimary contacts))
    by (rewrite E; apply reduce_older_In).
  apply filter_In in Hin. destruct Hin as [Hin Hp].
  repeat split; [exact Hin | apply isPrimary_true, Hp |].
  intros q Hq Hqp. apply reduce_older_least. rewrite <- E.
  apply filter_In. split; [exact Hq | apply isPrimary_true, Hqp].
Qed.

(** C2. Of two primaries with the same [createdAt], [findPrimaryContact]
    answers the one listed last, here the larger id, while
    [mergePrimaryContacts] keeps the one listed first as the survivor.
    The bridging request therefore demotes the contact it then resolves
    as primary, and fails while assembling the response. *)
Theorem findPrimaryContact_tie_keeps_later :
  createdAt george = createdAt biff
  /\ id george < id biff
  /\ findPrimaryContact [george; biff] tiedStore = (tiedStore, Ok biff)
  /\ rows (fst (mergePrimaryContacts [george; biff] tiedStore))
     = [george; Prisma.setLink SECONDARY (Some (id george)) biff]
  /\ snd (identify 2000 bridgeRequest tiedStore) = Err NoPrimaryInChain.
Proof. repeat split; vm_compute; reflexivity. Qed.

(** ** Input normalization *)

Lemma isWhitespace_lowerChar (c : ascii) :
  Str.isWhitespace (Str.lowerChar c) = Str.isWhitespace c.
Proof.
  destruct c as [[] [] [] [] [] [] [] []]; reflexivity.
Qed.

Lemma trimStart_toLowerCase (s : string) :
  Str.trimStart (Str.toLowerCase s) = Str.toLowerCase (Str.trimStart s).
Proof.
  induction s as [|c t IH]; simpl; [reflexivity|].
  rewrite isWhitespace_lowerChar. destruct (Str.isWhitespace c); [exact IH | reflexivity].
Qed.

Lemma trimEnd_toLowerCase (s : string) :
  Str.trimEnd (Str.toLowerCase s) = Str.toLowerCase (Str.trimEnd s).
Proof.
  induction s as [|c t IH]; simpl; [reflexivity|].
  rewrite IH, isWhitespace_lowerChar.
  destruct (Str.trimEnd t); simpl; [destruct (Str.isWhitespace c)|]; reflexivity.
Qed.

Lemma trim_toLowerCase (s : string) :
  Str.trim (Str.toLowerCase s) = Str.toLowerCase (Str.trim s).
Proof. unfold Str.trim. rewrite trimStart_toLowerCase. apply trimEnd_toLowerCase. Qed.

Lemma sameModuloCase_toLowerCase (s t : string) :
  sameModuloCase s t -> Str.toLowerCase s = Str.toLowerCase t.
Proof. induction 1; simpl; congruence. Qed.

Lemma trimStart_ws (l s : string) :
  allWhitespace l = true -> Str.trimStart (l ++ s) = Str.trimStart s.
Proof.
  induction l as [|c t IH]; simpl; intros H; [reflexivity|].
  apply andb_true_iff in H. destruct H as [Hc Ht]. rewrite Hc. apply IH, Ht.
Qed.

Lemma trimEnd_allWhitespace (r : string) :
  allWhitespace r = true -> Str.trimEnd r = "".
Proof.
  induction r as [|c t IH]; simpl; intros H; [reflexivity|].
  apply andb_true_iff in H. destruct H as [Hc Ht]. rewrite (IH Ht), Hc. reflexivity.
Qed.

Lemma trimEnd_ws (s r : string) :
  allWhitespace r = true -> Str.trimEnd (s ++ r) = Str.trimEnd s.
Proof.
  intros H. induction s as [|c t IH]; simpl.
  - apply trimEnd_allWhitespace, H.
  - rewrite IH. reflexivity.
Qed.

Lemma trimStart_allWhitespace (r : string) :
  allWhitespace r = true -> Str.trimStart r = "".
Proof.
  induction r as [|c t IH]; simpl; intros H; [reflexivity|].
  apply andb_true_iff in H. destruct H as [Hc Ht]. rewrite Hc. apply IH, Ht.
Qed.

Lemma trim_core_ws (c r : string) :
  allWhitespace r = true -> Str.trim (c ++ r) = Str.trim c.
Proof.
  unfold Str.trim. intros H. induction c as [|a t IH]; simpl.
  - rewrite (trimStart_allWhitespace _ H). reflexivity.
  - destruct (Str.isWhitespace a); [exact IH|].
    change (String a (t ++ r)) with (String a t ++ r)%string.
    apply trimEnd_ws, H.
Qed.

Lemma trim_padded (core s : string) : padded core s -> Str.trim s = Str.trim core.
Proof.
  intros [l [r [Hl [Hr ->]]]]. unfold Str.trim at 1.
  rewrite trimStart_ws by exact Hl. apply (trim_core_ws core r Hr).
Qed.

Lemma emailVariant_normalized (e1 e2 : string) :
  emailVariant e1 e2 ->
  Str.toLowerCase (Str.trim e1) = Str.toLowerCase (Str.trim e2).
Proof.
  intros [c1 [c2 [H1 [H2 Hc]]]].
  rewrite (trim_padded H1), (trim_padded H2), <- !trim_toLowerCase.
  rewrite (sameModuloCase_toLowerCase Hc). reflexivity.
Qed.

Lemma phoneVariant_normalized (p1 p2 : string) :
  phoneVariant p1 p2 -> Str.stripNonDigits p1 = Str.stripNonDigits p2.
Proof.
  induction 1 as [|c s t _ IH|c s t Hc _ IH|c s t Hc _ IH]; simpl.
  - reflexivity.
  - rewrite IH. reflexivity.
  - rewrite Hc. exact IH.
  - rewrite Hc. exact IH.
Qed.

(** C9 (as amended). The service normalizes its input before it touches
    the store: two raw requests that differ only in the letter case or
    surrounding white space of the email, or in the non-digit characters
    of the phone number, are normalized to the same request, and
    [identify] then makes the same writes and gives the same answer,
    provided the two phone numbers are both empty or both non-empty. *)
Theorem identify_normalizes_input (r1 r2 : IdentifyRequest) :
  requestVariant r1 r2 ->
  truthy (req_phoneNumber r1) = truthy (req_phoneNumber r2) ->
  sanitizeInput r1 = sanitizeInput r2
  /\ forall now s, identify now r1 s = identify now r2 s.
Proof.
  intros [He Hp] Ht.
  assert (E : sanitizeInput r1 = sanitizeInput r2).
  { unfold sanitizeInput. rewrite <- Ht.
    destruct r1 as [e1 p1], r2 as [e2 p2]; simpl in *. f_equal.
    - destruct e1 as [e1|], e2 as [e2|]; simpl in He; try contradiction;
        [f_equal; apply emailVariant_normalized, He | reflexivity].
    - destruct (truthy p1); [|reflexivity].
      destruct p1 as [p1|], p2 as [p2|]; simpl in Hp; try contradiction;
        [f_equal; apply phoneVariant_normalized, Hp | reflexivity]. }
  split; [exact E|]. intros now s. unfold identify. rewrite E. reflexivity.
Qed.

Lemma identify_normalizes_input_witness :
  sanitizeInput (mkRequest (Some "  Doc@HillValley.EDU ") (Some "+1 (555) 0100"))
  = sanitizeInput (mkRequest (Some "doc@hillvalley.edu") (Some "15550100"))
  /\ forall now s,
       identify now (mkRequest (Some "  Doc@HillValley.EDU ") (Some "+1 (555) 0100")) s
       = identify now (mkRequest (Some "doc@hillvalley.edu") (Some "15550100")) s.
Proof.
  apply identify_normalizes_input.
  - split; simpl.
    + exists "Doc@HillValley.EDU", "doc@hillvalley.edu".
      split; [exists "  ", " "; repeat split|].
      split; [exists "", ""; repeat split|].
      repeat (constructor; [reflexivity|]). constructor.
    + repeat (first [ apply pv_nil
                    | apply pv_same
                    | apply pv_skip_l; [reflexivity|] ]).
  - reflexivity.
Defined.

(** C9 (as stated) fails: the empty phone number and a phone number made
    of one hyphen differ only in a non-digit character, yet the first is
    stored as absent and the second as the empty string. *)
Lemma identify_normalizes_input_counterexample :
  requestVariant (mkRequest (Some "doc@hillvalley.edu") (Some ""))
                 (mkRequest (Some "doc@hillvalley.edu") (Some "-"))
  /\ identify 10 (mkRequest (Some "doc@hillvalley.edu") (Some "")) emptyStore
     <> identify 10 (mkRequest (Some "doc@hillvalley.edu") (Some "-")) emptyStore.
Proof.
  split.
  - split; simpl.
    + exists "doc@hillvalley.edu", "doc@hillvalley.edu".
      split; [exists "", ""; repeat split|].
      split; [exists "", ""; repeat split|].
      repeat (constructor; [reflexivity|]). constructor.
    + apply pv_skip_r; [reflexivity | apply pv_nil].
  - vm_compute. discriminate.
Qed.

(** ** Response assembly *)

Lemma memS_In (x : string) (l : list string) : memS x l = true <-> In x l.
Proof.
  unfold memS. rewrite existsb_exists. split.
  - intros [y [Hy E]]. apply String.eqb_eq in E. subst. exact Hy.
  - intros H. exists x. split; [exact H | apply String.eqb_refl].
Qed.

Lemma memS_app (x : string) (l1 l2 : list string) :
  memS x (l1 ++ l2) = memS x l1 || memS x l2.
Proof. unfold memS. apply existsb_app. Qed.

Lemma filter_filter (A : Type) (f g : A -> bool) (l : list A) :
  filter f (filter g l) = filter (fun x => g x && f x) l.
Proof.
  induction l as [|x t IH]; simpl; [reflexivity|].
  destruct (g x); simpl; [destruct (f x)|]; rewrite IH; reflexivity.
Qed.

(** Adding the values of a list to a [Set] that holds [acc]. *)
Lemma fold_setAdd (l : list (option string)) : forall acc : list string,
  fold_left addIfTruthy l acc
  = acc ++ filter (fun y => negb (memS y acc))
                  (firstOccurrences (nonEmptyValues l)).
Proof.
  induction l as [|x t IH]; intros acc; simpl.
  - rewrite app_nil_r. reflexivity.
  - destruct x as [v|]; simpl; [|apply IH].
    destruct (Str.nonEmpty v); [|apply IH].
    unfold setAdd. fold (memS v acc). rewrite IH. simpl.
    destruct (memS v acc) eqn:Hv; simpl.
    + f_equal. rewrite filter_filter. apply filter_ext_in. intros y _.
      destruct (String.eqb y v) eqn:E; simpl; [|reflexivity].
      apply String.eqb_eq in E. subst. rewrite Hv. reflexivity.
    + rewrite <- app_assoc. simpl. f_equal. f_equal.
      rewrite filter_filter. apply filter_ext_in. intros y _.
      rewrite memS_app. simpl. rewrite orb_false_r, negb_orb.
      rewrite andb_comm. reflexivity.
Qed.

Lemma fold_left_map (A B C : Type) (f : C -> B -> C) (g : A -> B) (l : list A) :
  forall acc, fold_left (fun acc c => f acc (g c)) l acc = fold_left f (map g l) acc.
Proof. induction l as [|x t IH]; intros acc; simpl; [reflexivity | apply IH]. Qed.

Lemma collected_values (A : Type) (g : A -> option string) (l : list A) :
  fold_left (fun acc c => addIfTruthy acc (g c)) l []
  = firstOccurrences (nonEmptyValues (map g l)).
Proof.
  rewrite fold_left_map, fold_setAdd. simpl.
  induction (firstOccurrences (nonEmptyValues (map g l))) as [|x t IH];
    simpl; congruence.
Qed.

(** What [formatResponse] computes from a list that holds a primary. *)
Lemma formatResponse_eq (contacts : list Contact) (p : Contact) :
  find isPrimary contacts = Some p ->
  formatResponse contacts
  = Ok (mkResponse (id p)
          (firstOccurrences (nonEmptyValues (map email contacts)))
          (firstOccurrences (nonEmptyValues (map phoneNumber contacts)))
          (sortOn (fun z => z) (map id (filter isSecondary contacts)))).
Proof.
  intros H. unfold formatResponse. rewrite H, !collected_values. reflexivity.
Qed.

Lemma formatResponse_error (contacts : list Contact) :
  find isPrimary contacts = None -> formatResponse contacts = Err NoPrimaryInChain.
Proof. intros H. unfold formatResponse. rewrite H. reflexivity. Qed.

Lemma sortOn_Z_sorted (l : list Z) : StronglySorted Z.le (sortOn (fun z => z) l).
Proof. apply (sortOn_sorted (fun z : Z => z)). Qed.

(** ** The table invariant *)

Lemma idsAscending_lt (l : list Contact) (x : Contact) :
  Forall (fun c => id c < id x) l -> ~ In (id x) (map id l).
Proof.
  intros H Hin. apply in_map_iff in Hin. destruct Hin as [c [E Hc]].
  rewrite Forall_forall in H. specialize (H c Hc). lia.
Qed.

Lemma idsAscending_NoDup (l : list Contact) : idsAscending l -> NoDup (map id l).
Proof.
  induction 1 as [|x t Hs IH Hall]; simpl; constructor; [|exact IH].
  intros Hin. apply in_map_iff in Hin. destruct Hin as [c [E Hc]].
  rewrite Forall_forall in Hall. specialize (Hall c Hc). lia.
Qed.

(** Two rows of the table with the same id are the same row. *)
Lemma NoDup_ids_inj (l : list Contact) (a b : Contact) :
  NoDup (map id l) -> In a l -> In b l -> id a = id b -> a = b.
Proof.
  induction l as [|x t IH]; simpl; intros Hn Ha Hb E; [contradiction|].
  inversion Hn as [|? ? Hx Ht]; subst.
  destruct Ha as [<-|Ha], Hb as [<-|Hb].
  - reflexivity.
  - exfalso. apply Hx. rewrite E. apply in_map, Hb.
  - exfalso. apply Hx. rewrite <- E. apply in_map, Ha.
  - apply IH; assumption.
Qed.

Lemma idsAscending_inj (l : list Contact) (a b : Contact) :
  idsAscending l -> In a l -> In b l -> id a = id b -> a = b.
Proof. intros H. apply NoDup_ids_inj, idsAscending_NoDup, H. Qed.

Lemma NoDup_ids_split (l1 l2 : list Contact) (p c : Contact) :
  NoDup (map id (l1 ++ p :: l2)) -> In c (l1 ++ l2) -> id c <> id p.
Proof.
  rewrite map_app. simpl. intros Hn Hc E.
  apply NoDup_remove_2 in Hn. apply Hn. rewrite <- map_app, <- E.
  apply in_map, Hc.
Qed.

(** ** The merge, row by row *)

Lemma store_eta (s : Store) : mkStore (rows s) (nextId s) = s.
Proof. destruct s; reflexivity. Qed.

Lemma absorbRow_id (o : Z) (a c : Contact) : id (absorbRow o a c) = id c.
Proof.
  unfold absorbRow. destruct (id c =? id a); simpl;
    match goal with |- context [if ?b then _ else _] => destruct b end; reflexivity.
Qed.

Lemma mergeRow_id (o : Z) (newer : list Contact) (c : Contact) :
  id (mergeRow o newer c) = id c.
Proof.
  unfold mergeRow. revert c.
  induction newer as [|a t IH]; intros c; simpl; [reflexivity|].
  rewrite IH. apply absorbRow_id.
Qed.

Lemma absorbRow_fields (o : Z) (a c : Contact) :
  email (absorbRow o a c) = email c
  /\ phoneNumber (absorbRow o a c) = phoneNumber c
  /\ createdAt (absorbRow o a c) = createdAt c
  /\ deletedAt (absorbRow o a c) = deletedAt c.
Proof.
  unfold absorbRow. destruct (id c =? id a); simpl;
    match goal with |- context [if ?b then _ else _] => destruct b end;
    simpl; auto.
Qed.

Lemma mergeRow_fields (o : Z) (newer : list Contact) (c : Contact) :
  email (mergeRow o newer c) = email c
  /\ phoneNumber (mergeRow o newer c) = phoneNumber c
  /\ createdAt (mergeRow o newer c) = createdAt c
  /\ deletedAt (mergeRow o newer c) = deletedAt c.
Proof.
  unfold mergeRow. revert c.
  induction newer as [|a t IH]; intros c; simpl; [auto|].
  destruct (IH (absorbRow o a c)) as [H1 [H2 [H3 H4]]].
  destruct (absorbRow_fields o a c) as [G1 [G2 [G3 G4]]].
  repeat split; congruence.
Qed.

Lemma memZ_cons (x y : Z) (l : list Z) : memZ x (y :: l) = (x =? y) || memZ x l.
Proof. reflexivity. Qed.

(** The loop of [mergePrimaryContacts] rewrites a row at most once. *)
Lemma mergeRow_closed (o : Z) (newer : list Contact) :
  ~ In o (map id newer) ->
  forall c, mergeRow o newer c = mergedRow o newer c.
Proof.
  induction newer as [|a t IH]; intros Ho c.
  - unfold mergeRow, mergedRow. simpl. destruct (linkedId c); reflexivity.
  - assert (Hoa : o <> id a) by (intros E; apply Ho; left; auto).
    assert (Hot : ~ In o (map id t)) by (intros E; apply Ho; right; auto).
    assert (Hmo : memZ o (map id t) = false).
    { destruct (memZ o (map id t)) eqn:E; [|reflexivity].
      apply memZ_In in E. contradiction. }
    change (mergeRow o (a :: t) c) with (mergeRow o t (absorbRow o a c)).
    rewrite (IH Hot). unfold mergedRow, absorbRow. simpl map. rewrite !memZ_cons.
    destruct (id c =? id a) eqn:Eca; simpl.
    + (* the row of an absorbed primary *)
      assert (Eo : (o =? id a) = false) by (apply Z.eqb_neq; exact Hoa).
      rewrite Eo. simpl. rewrite Hmo. simpl.
      destruct (memZ (id c) (map id t)); reflexivity.
    + destruct (linkedId c) as [l|] eqn:El; simpl.
      * destruct (l =? id a) eqn:Ela; simpl.
        -- destruct (notDeleted c) eqn:Ed; simpl.
           ++ rewrite Hmo. simpl.
              destruct (memZ (id c) (map id t)); reflexivity.
           ++ rewrite El, Ed, andb_false_r.
              destruct (memZ (id c) (map id t)); reflexivity.
        -- rewrite El. reflexivity.
      * rewrite El. reflexivity.
Qed.

Lemma absorb_eq (o : Z) (a : Contact) (s : Store) :
  In (id a) (map id (rows s)) ->
  absorb o a s = (mkStore (map (absorbRow o a) (rows s)) (nextId s), Ok tt).
Proof.
  intros Hin. unfold absorb, bind, Prisma.update, Prisma.updateMany.
  assert (E : existsb (fun c => id c =? id a) (rows s) = true).
  { apply in_map_iff in Hin. destruct Hin as [c [Ec Hc]].
    apply existsb_exists. exists c. split; [exact Hc | apply Z.eqb_eq, Ec]. }
  rewrite E. simpl. rewrite map_map. reflexivity.
Qed.

Lemma forEachM_absorb_eq (o : Z) (newer : list Contact) : forall s : Store,
  (forall a, In a newer -> In (id a) (map id (rows s))) ->
  forEachM (absorb o) newer s
  = (mkStore (map (mergeRow o newer) (rows s)) (nextId s), Ok tt).
Proof.
  induction newer as [|a t IH]; intros s H; simpl.
  - unfold ret, mergeRow. simpl. rewrite map_id, store_eta. reflexivity.
  - unfold bind. rewrite absorb_eq by (apply H; left; reflexivity).
    rewrite IH.
    + simpl. rewrite map_map. reflexivity.
    + intros x Hx. simpl. rewrite map_map.
      rewrite (map_ext (fun c => id (absorbRow o a c)) id)
        by (intros c; apply absorbRow_id).
      apply H. right. exact Hx.
Qed.

(** The merge step of [processExistingContacts]. *)
Lemma mergeStep_eq (m : list Contact) (s : Store) :
  (forall a, In a m -> In (id a) (map id (rows s))) ->
  (if 1 <? Z.of_nat (List.length (filter isPrimary m))
   then mergePrimaryContacts (filter isPrimary m) else ret tt) s
  = (mkStore (map (mergeFn m) (rows s)) (nextId s), Ok tt).
Proof.
  intros H. unfold mergeFn, mergePrimaryContacts.
  assert (Hlen := sortOn_length createdAt (filter isPrimary m)).
  assert (Hin : forall a, In a (sortOn createdAt (filter isPrimary m)) ->
                          In (id a) (map id (rows s))).
  { intros a Ha. apply (proj1 (sortOn_In _ _ _)) in Ha. apply filter_In in Ha.
    apply H. tauto. }
  destruct (sortOn createdAt (filter isPrimary m)) as [|o newer] eqn:E.
  - rewrite <- Hlen. simpl. unfold ret. rewrite map_id, store_eta. reflexivity.
  - destruct (1 <? Z.of_nat (List.length (filter isPrimary m))) eqn:L.
    + apply forEachM_absorb_eq. intros a Ha. apply Hin. right. exact Ha.
    + (* a single primary: nothing to absorb *)
      rewrite <- Hlen in L. simpl List.length in L. apply Z.ltb_ge in L.
      destruct newer as [|x t]; [|simpl List.length in L; lia].
      unfold ret, mergeRow. simpl. rewrite map_id, store_eta. reflexivity.
Qed.

(** ** Primary resolution never writes *)

Lemma findPrimaryContact_store (contacts : list Contact) (s : Store) :
  fst (findPrimaryContact contacts s) = s.
Proof.
  unfold findPrimaryContact.
  destruct (filter isPrimary contacts); [|reflexivity].
  destruct (linkedIdsOf contacts); [reflexivity|].
  unfold bind, Prisma.findFirst.
  destruct (hd_error _); reflexivity.
Qed.

Lemma findPrimaryContact_pair (contacts : list Contact) (s : Store) :
  findPrimaryContact contacts s = (s, snd (findPrimaryContact contacts s)).
Proof.
  rewrite <- (findPrimaryContact_store contacts s) at 2.
  destruct (findPrimaryContact contacts s); reflexivity.
Qed.

(** ** The writes of [processExistingContacts] *)

Lemma processExistingContacts_eq (now : Z) (m : list Contact)
      (d : IdentifyRequest) (s : Store) :
  processExistingContacts now m d s
  = bind (processWrites now m d)
         (fun _ => bind (getAllContactsInChain m)
                        (fun allContacts => lift (formatResponse allContacts))) s.
Proof.
  unfold processExistingContacts, processWrites, bind.
  destruct (shouldCreateNewContact m (req_email d) (req_phoneNumber d)).
  - destruct (findPrimaryContact m s) as [s1 [p|e]]; [|reflexivity].
    simpl. match goal with |- context [if ?b then _ else _] => destruct b end.
    + destruct (mergePrimaryContacts _ _) as [s2 [u|e]]; reflexivity.
    + reflexivity.
  - simpl. match goal with |- context [if ?b then _ else _] => destruct b end.
    + destruct (mergePrimaryContacts _ _) as [s2 [u|e]]; reflexivity.
    + reflexivity.
Qed.

Lemma processWrites_eq (now : Z) (m : list Contact) (d : IdentifyRequest) (s : Store) :
  (forall a, In a m -> In a (rows s)) ->
  processWrites now m d s
  = match writesFail m d s with
    | Some e => (s, Err e)
    | None =>
        (mkStore (map (mergeFn m) (rows s ++ createdRows now m d s))
                 (nextId s + Z.of_nat (List.length (createdRows now m d s))),
         Ok tt)
    end.
Proof.
  intros Hm. unfold processWrites, writesFail, createdRows.
  unfold bind at 1.
  destruct (shouldCreateNewContact m (req_email d) (req_phoneNumber d)).
  - unfold bind at 1 2. rewrite (findPrimaryContact_pair m s).
    destruct (snd (findPrimaryContact m s)) as [p|e]; [|reflexivity].
    simpl snd. cbv beta iota.
    unfold Prisma.create at 1. unfold ret at 1.
    rewrite mergeStep_eq.
    + simpl. reflexivity.
    + intros a Ha. simpl. rewrite map_app. apply in_or_app. left.
      apply in_map, Hm, Ha.
  - unfold ret at 1. rewrite mergeStep_eq.
    + simpl. rewrite app_nil_r, Z.add_0_r. reflexivity.
    + intros a Ha. apply in_map, Hm, Ha.
Qed.

Lemma identify_eq (now : Z) (req : IdentifyRequest) (s : Store) :
  let d := sanitizeInput req in
  let m := matchingSet (req_email d) (req_phoneNumber d) s in
  identify now req s
  = match m with
    | [] => handleNewContact now d s
    | _ => processExistingContacts now m d s
    end.
Proof.
  intros d m. unfold identify, bind. fold d.
  rewrite findMatchingContacts_eq. fold m. destruct m; reflexivity.
Qed.

Lemma getAllContactsInChain_store (m : list Contact) (s : Store) :
  fst (getAllContactsInChain m s) = s.
Proof.
  unfold getAllContactsInChain, bind. rewrite (findPrimaryContact_pair m s).
  destruct (snd (findPrimaryContact m s)); reflexivity.
Qed.

(** The table after [processExistingContacts] is the table after its writes. *)
Lemma processExistingContacts_store (now : Z) (m : list Contact)
      (d : IdentifyRequest) (s : Store) :
  fst (processExistingContacts now m d s) = fst (processWrites now m d s).
Proof.
  rewrite processExistingContacts_eq. unfold bind.
  destruct (processWrites now m d s) as [s1 [u|e]]; [|reflexivity].
  assert (H := getAllContactsInChain_store m s1).
  destruct (getAllContactsInChain m s1) as [s2 [chain|e]]; simpl in *;
    [unfold lift; simpl | ]; exact H.
Qed.

(** ** What primary resolution answers *)

Lemma linkedIdsOf_In (l : list Contact) (i : Z) :
  In i (linkedIdsOf l) <-> exists c, In c l /\ linkedId c = Some i.
Proof.
  induction l as [|x t IH]; simpl.
  - split; [intros [] | intros [c [[] _]]].
  - destruct (linkedId x) as [j|] eqn:E; simpl; rewrite IH; split.
    + intros [<-|[c [Hc Hl]]]; [exists x; auto | exists c; auto].
    + intros [c [[<-|Hc] Hl]]; [left; congruence | right; exists c; auto].
    + intros [c [Hc Hl]]. exists c. auto.
    + intros [c [[<-|Hc] Hl]]; [congruence | exists c; auto].
Qed.

Lemma hd_error_sortOn_In (A : Type) (key : A -> Z) (l : list A) (x : A) :
  hd_error (sortOn key l) = Some x -> In x l.
Proof.
  intros H. apply (proj1 (sortOn_In key l x)).
  destruct (sortOn key l); simpl in H; [discriminate|].
  inversion H. left. reflexivity.
Qed.

Lemma hd_error_sortOn_None (A : Type) (key : A -> Z) (l : list A) :
  hd_error (sortOn key l) = None <-> l = [].
Proof.
  rewrite <- (sortOn_nil_iff key l).
  destruct (sortOn key l); simpl; split; congruence.
Qed.

Lemma findPrimaryContact_cases (contacts : list Contact) (s : Store) :
  (exists p, snd (findPrimaryContact contacts s) = Ok p
             /\ filter isPrimary contacts <> []
             /\ In p contacts /\ linkPrecedence p = PRIMARY)
  \/ (exists p, snd (findPrimaryContact contacts s) = Ok p
                /\ filter isPrimary contacts = []
                /\ hd_error (sortOn createdAt
                               (filter (primaryAmong (linkedIdsOf contacts)) (rows s)))
                   = Some p)
  \/ (exists e, snd (findPrimaryContact contacts s) = Err e
                /\ e <> RecordNotFound /\ e <> NoPrimaryInChain
                /\ filter isPrimary contacts = []
                /\ filter (primaryAmong (linkedIdsOf contacts)) (rows s) = []).
Proof.
  destruct (filter isPrimary contacts) as [|first rest] eqn:E.
  - right. unfold findPrimaryContact. rewrite E.
    destruct (linkedIdsOf contacts) as [|i ids] eqn:L.
    + right. exists SecondaryWithoutLinkedId. simpl.
      repeat split; try discriminate.
      apply filter_nil_iff. intros c _. reflexivity.
    + unfold bind, Prisma.findFirst. fold (primaryAmong (i :: ids)).
      destruct (hd_error _) as [p|] eqn:H; simpl.
      * left. exists p. auto.
      * right. exists NoPrimaryForLinkedIds. repeat split; try discriminate.
        apply hd_error_sortOn_None in H. exact H.
  - left. destruct (@findPrimaryContact_listed contacts s) as [p [H1 [H2 [H3 _]]]].
    { rewrite E. discriminate. }
    exists p. rewrite H1. repeat split; auto. discriminate.
Qed.

Lemma primaryAmong_true (ids : list Z) (c : Contact) :
  primaryAmong ids c = true
  <-> In (id c) ids /\ linkPrecedence c = PRIMARY /\ deletedAt c = None.
Proof.
  unfold primaryAmong. rewrite !andb_true_iff, memZ_In, isPrimary_true, notDeleted_true.
  tauto.
Qed.

(** A resolved primary is a non-deleted primary row of the table. *)
Lemma findPrimaryContact_sound (contacts : list Contact) (s : Store) (p : Contact) :
  (forall c, In c contacts -> In c (rows s) /\ deletedAt c = None) ->
  snd (findPrimaryContact contacts s) = Ok p ->
  In p (rows s) /\ linkPrecedence p = PRIMARY /\ deletedAt p = None.
Proof.
  intros Hc Hp.
  destruct (findPrimaryContact_cases contacts s)
    as [[q [H1 [_ [H2 H3]]]] | [[q [H1 [_ H2]]] | [e [H1 _]]]];
    rewrite H1 in Hp; inversion Hp; subst.
  - destruct (Hc p H2). auto.
  - apply hd_error_sortOn_In in H2. apply filter_In in H2.
    destruct H2 as [H2 H3]. apply primaryAmong_true in H3. tauto.
Qed.

Lemma matchingSet_rows (e p : option string) (s : Store) (c : Contact) :
  In c (matchingSet e p s) -> In c (rows s) /\ deletedAt c = None.
Proof.
  intros H. apply matchingSet_In in H. destruct H as [H1 H2].
  split; [exact H1 | apply (matchesWhere_notDeleted _ _ _ H2)].
Qed.

(** ** Preservation of the chain invariants *)

Lemma idsAscending_map (g : Contact -> Contact) (l : list Contact) :
  (forall c, id (g c) = id c) -> idsAscending l -> idsAscending (map g l).
Proof.
  intros Hg. induction 1 as [|x t Hs IH Hall]; simpl; constructor; [exact IH|].
  rewrite Forall_forall in *. intros y Hy. apply in_map_iff in Hy.
  destruct Hy as [c [<- Hc]]. rewrite !Hg. apply Hall, Hc.
Qed.

Lemma idsAscending_snoc (l : list Contact) (n : Contact) :
  idsAscending l -> Forall (fun c => id c < id n) l -> idsAscending (l ++ [n]).
Proof.
  induction 1 as [|x t Hs IH Hall]; simpl; intros Hn.
  - repeat constructor.
  - inversion Hn as [|? ? Hx Ht]; subst. constructor; [apply IH, Ht|].
    apply Forall_app. split; [exact Hall | constructor; [exact Hx | constructor]].
Qed.

Lemma linkOk_mono (l l' : list Contact) (c : Contact) :
  (forall x, In x l -> In x l') -> linkOk l c -> linkOk l' c.
Proof.
  unfold linkOk. intros Hsub. destruct (linkPrecedence c); [auto|].
  intros [p [H1 H2]]. exists p. split; [apply Hsub, H1 | exact H2].
Qed.

Lemma wfStore_insert (s : Store) (n : Contact) :
  wfStore s ->
  id n = nextId s ->
  linkOk (rows s ++ [n]) n ->
  wfStore (mkStore (rows s ++ [n]) (nextId s + 1)).
Proof.
  intros [H1 H2 H3] Hid Hn. constructor; simpl.
  - apply idsAscending_snoc; [exact H1|]. rewrite Hid. exact H2.
  - apply Forall_app. split.
    + eapply Forall_impl; [|exact H2]. simpl. intros; lia.
    + constructor; [lia | constructor].
  - intros c Hc Hd. apply in_app_or in Hc. destruct Hc as [Hc|[<-|[]]].
    + apply (@linkOk_mono (rows s)); [|apply H3; assumption].
      intros x Hx. apply in_or_app. left. exact Hx.
    + exact Hn.
Qed.

Lemma mergedRow_keeps_primary (o : Z) (newer : list Contact) (p : Contact) :
  ~ In (id p) (map id newer) -> linkedId p = None -> mergedRow o newer p = p.
Proof.
  intros Hn Hl. unfold mergedRow. rewrite Hl.
  destruct (memZ (id p) (map id newer)) eqn:E; [|reflexivity].
  apply memZ_In in E. contradiction.
Qed.

Lemma linkOk_primary (l : list Contact) (p : Contact) :
  linkOk l p -> linkPrecedence p = PRIMARY -> linkedId p = None.
Proof. unfold linkOk. intros H E. rewrite E in H. exact H. Qed.

Lemma linkOk_secondary (l : list Contact) (c : Contact) :
  linkOk l c -> linkPrecedence c = SECONDARY ->
  exists p, In p l /\ linkedId c = Some (id p)
            /\ linkPrecedence p = PRIMARY /\ deletedAt p = None.
Proof. unfold linkOk. intros H E. rewrite E in H. exact H. Qed.

Lemma linkOk_linked (l : list Contact) (c : Contact) (i : Z) :
  linkOk l c -> linkedId c = Some i -> linkPrecedence c = SECONDARY.
Proof.
  unfold linkOk. intros H E. destruct (linkPrecedence c); [congruence | reflexivity].
Qed.

Lemma wfStore_merge (s : Store) (survivor : Contact) (newer : list Contact) :
  wfStore s ->
  In survivor (rows s) ->
  linkPrecedence survivor = PRIMARY ->
  deletedAt survivor = None ->
  ~ In (id survivor) (map id newer) ->
  wfStore (mkStore (map (mergeRow (id survivor) newer) (rows s)) (nextId s)).
Proof.
  intros [H1 H2 H3] HS Hprim Hdel Hnot.
  set (g := mergeRow (id survivor) newer).
  assert (Hgid : forall c, id (g c) = id c) by (intros; apply mergeRow_id).
  assert (Hkeep : forall p, In p (rows s) -> linkPrecedence p = PRIMARY ->
                            deletedAt p = None ->
                            ~ In (id p) (map id newer) -> In p (map g (rows s))).
  { intros p Hp Hpp Hpd Hpn.
    assert (E : g p = p).
    { unfold g. rewrite mergeRow_closed by exact Hnot.
      apply mergedRow_keeps_primary; [exact Hpn|].
      apply (@linkOk_primary (rows s) p (H3 p Hp Hpd) Hpp). }
    rewrite <- E. apply in_map, Hp. }
  assert (HinS : In survivor (map g (rows s))) by (apply Hkeep; assumption).
  constructor; simpl.
  - apply idsAscending_map; assumption.
  - rewrite Forall_forall in *. intros y Hy. apply in_map_iff in Hy.
    destruct Hy as [c [<- Hc]]. rewrite Hgid. apply H2, Hc.
  - intros c' Hc' Hd'. apply in_map_iff in Hc'. destruct Hc' as [c [<- Hc]].
    destruct (mergeRow_fields (id survivor) newer c) as [_ [_ [_ Hdg]]].
    fold g in Hdg. rewrite Hdg in Hd'. pose proof (H3 c Hc Hd') as Hc3.
    unfold g. rewrite mergeRow_closed by exact Hnot. unfold mergedRow.
    destruct (memZ (id c) (map id newer)) eqn:E.
    + (* an absorbed primary *)
      unfold linkOk. simpl. exists survivor. auto.
    + destruct (linkedId c) as [l|] eqn:El.
      * assert (Hsec : linkPrecedence c = SECONDARY)
          by (apply (@linkOk_linked (rows s) c l Hc3 El)).
        apply notDeleted_true in Hd'. rewrite Hd', andb_true_r.
        destruct (memZ l (map id newer)) eqn:Em.
        -- (* a secondary of an absorbed primary *)
           unfold linkOk. simpl. rewrite Hsec. exists survivor. auto.
        -- (* a secondary of another chain: its primary is kept *)
           destruct (@linkOk_secondary (rows s) c Hc3 Hsec) as [p [Hp [Hlp [Hpp Hpd]]]].
           unfold linkOk. rewrite Hsec. exists p. split; [|auto].
           apply Hkeep; try assumption.
           intros Hin. apply memZ_In in Hin.
           rewrite El in Hlp. inversion Hlp. congruence.
      * (* a row without link: a primary *)
        unfold linkOk in *. destruct (linkPrecedence c); [exact El|].
        destruct Hc3 as [p [_ [Hlp _]]]. congruence.
Qed.

Lemma ids_NoDup_filter (keep : Contact -> bool) (table : list Contact) :
  NoDup (map id table) -> NoDup (map id (filter keep table)).
Proof.
  induction table as [|x t IH]; simpl; intros H; [constructor|].
  inversion H as [|? ? Hx Ht]; subst.
  destruct (keep x); simpl; [constructor|]; auto.
  intros Hin. apply Hx. apply in_map_iff in Hin. destruct Hin as [y [E Hy]].
  apply filter_In in Hy. rewrite <- E. apply in_map. tauto.
Qed.

Lemma matchingSet_NoDup (e p : option string) (s : Store) :
  idsAscending (rows s) ->
  NoDup (map id (sortOn createdAt (filter isPrimary (matchingSet e p s)))).
Proof.
  intros H. unfold matchingSet.
  eapply Permutation_NoDup.
  - apply Permutation_map, Permutation_sym, sortOn_perm.
  - apply ids_NoDup_filter.
    eapply Permutation_NoDup.
    + apply Permutation_map, Permutation_sym, sortOn_perm.
    + apply ids_NoDup_filter, idsAscending_NoDup, H.
Qed.

(** The survivor of a merge and the primaries it absorbs. *)
Lemma matchingSet_survivor (e p : option string) (s : Store)
      (survivor : Contact) (newer : list Contact) :
  idsAscending (rows s) ->
  sortOn createdAt (filter isPrimary (matchingSet e p s)) = survivor :: newer ->
  In survivor (rows s)
  /\ linkPrecedence survivor = PRIMARY
  /\ deletedAt survivor = None
  /\ ~ In (id survivor) (map id newer).
Proof.
  intros Hids E.
  assert (Hin : In survivor (sortOn createdAt (filter isPrimary (matchingSet e p s))))
    by (rewrite E; left; reflexivity).
  apply (proj1 (sortOn_In _ _ _)) in Hin. apply filter_In in Hin.
  destruct Hin as [Hm Hp]. destruct (matchingSet_rows _ _ _ _ Hm) as [Hr Hd].
  repeat split; [exact Hr | apply isPrimary_true, Hp | exact Hd |].
  pose proof (@matchingSet_NoDup e p s Hids) as Hn. rewrite E in Hn.
  simpl in Hn. inversion Hn. assumption.
Qed.

Lemma wfStore_created (now : Z) (m : list Contact) (d : IdentifyRequest) (s : Store) :
  wfStore s ->
  (forall c, In c m -> In c (rows s) /\ deletedAt c = None) ->
  wfStore (mkStore (rows s ++ createdRows now m d s)
                   (nextId s + Z.of_nat (List.length (createdRows now m d s)))).
Proof.
  intros Hwf Hm. unfold createdRows.
  destruct (shouldCreateNewContact m (req_email d) (req_phoneNumber d)).
  - destruct (snd (findPrimaryContact m s)) as [p|e] eqn:E.
    + simpl List.length. apply wfStore_insert; [exact Hwf | reflexivity |].
      destruct (findPrimaryContact_sound m s Hm E) as [H1 [H2 H3]].
      unfold linkOk. simpl. exists p. repeat split; auto.
      apply in_or_app. left. exact H1.
    + simpl. rewrite app_nil_r, Z.add_0_r, store_eta. exact Hwf.
  - simpl. rewrite app_nil_r, Z.add_0_r, store_eta. exact Hwf.
Qed.

Lemma mergeFn_nil (m : list Contact) :
  sortOn createdAt (filter isPrimary m) = [] -> forall l, map (mergeFn m) l = l.
Proof.
  intros E l. unfold mergeFn. rewrite E. apply map_id.
Qed.

Lemma mergeFn_cons (m : list Contact) (o : Contact) (newer l : list Contact) :
  sortOn createdAt (filter isPrimary m) = o :: newer ->
  map (mergeFn m) l = map (mergeRow (id o) newer) l.
Proof.
  intros E. apply map_ext. intros c. unfold mergeFn. rewrite E. reflexivity.
Qed.

Lemma wfStore_writes (now : Z) (req : IdentifyRequest) (s : Store) :
  wfStore s ->
  let d := sanitizeInput req in
  let m := matchingSet (req_email d) (req_phoneNumber d) s in
  wfStore (mkStore (map (mergeFn m) (rows s ++ createdRows now m d s))
                   (nextId s + Z.of_nat (List.length (createdRows now m d s)))).
Proof.
  intros Hwf d m.
  pose proof (@wfStore_created now m d s Hwf (matchingSet_rows _ _ s)) as HA.
  destruct (sortOn createdAt (filter isPrimary m)) as [|o newer] eqn:E.
  - rewrite (@mergeFn_nil m E). exact HA.
  - rewrite (@mergeFn_cons m o newer _ E).
    destruct (@matchingSet_survivor _ _ s o newer (wf_ids Hwf) E) as [H1 [H2 [H3 H4]]].
    apply (@wfStore_merge _ o newer HA); simpl; auto.
    apply in_or_app. left. exact H1.
Qed.

Lemma identify_store (now : Z) (req : IdentifyRequest) (s : Store) :
  let d := sanitizeInput req in
  let m := matchingSet (req_email d) (req_phoneNumber d) s in
  fst (identify now req s)
  = match m with
    | [] => mkStore (rows s ++ [newPrimary now d s]) (nextId s + 1)
    | _ => match writesFail m d s with
           | Some _ => s
           | None =>
               mkStore (map (mergeFn m) (rows s ++ createdRows now m d s))
                       (nextId s + Z.of_nat (List.length (createdRows now m d s)))
           end
    end.
Proof.
  intros d m. rewrite identify_eq. fold d m.
  destruct m as [|c t] eqn:Em; [reflexivity|]. rewrite <- Em.
  rewrite processExistingContacts_store, processWrites_eq.
  - destruct (writesFail m d s); reflexivity.
  - intros a Ha. apply (matchingSet_rows _ _ _ _ Ha).
Qed.

(** The invariants, read chain by chain. *)
Lemma wfStore_chains (s : Store) :
  wfStore s ->
  (forall c, In c (rows s) -> deletedAt c = None ->
     exists p, In p (rows s) /\ linkPrecedence p = PRIMARY /\ deletedAt p = None
               /\ In c (chainOf (id p) s))
  /\ (forall p x, In p (rows s) -> linkPrecedence p = PRIMARY -> deletedAt p = None ->
        In x (chainOf (id p) s) ->
        x = p \/ (linkPrecedence x = SECONDARY /\ linkedId x = Some (id p))).
Proof.
  intros [H1 H2 H3]. split.
  - intros c Hc Hd. pose proof (H3 c Hc Hd) as Hl.
    assert (Hnd : notDeleted c = true) by (apply notDeleted_true, Hd).
    destruct (linkPrecedence c) eqn:E.
    + exists c. repeat split; auto. unfold chainOf. apply sortOn_In, filter_In.
      split; [exact Hc|]. unfold chainWhere. rewrite Z.eqb_refl, Hnd. reflexivity.
    + destruct (@linkOk_secondary (rows s) c Hl E) as [p [Hp [Hlp [Hpp Hpd]]]].
      exists p. repeat split; auto. unfold chainOf. apply sortOn_In, filter_In.
      split; [exact Hc|]. unfold chainWhere. rewrite Hlp, Hnd. simpl.
      rewrite Z.eqb_refl, orb_true_r. reflexivity.
  - intros p x Hp Hpp Hpd Hx. unfold chainOf in Hx.
    apply (proj1 (sortOn_In _ _ _)) in Hx. apply filter_In in Hx.
    destruct Hx as [Hx Hw]. unfold chainWhere in Hw.
    apply andb_true_iff in Hw. destruct Hw as [Hw Hnd].
    apply notDeleted_true in Hnd. apply orb_true_iff in Hw.
    destruct Hw as [Hw|Hw].
    + left. apply Z.eqb_eq in Hw. apply (@idsAscending_inj (rows s) x p H1 Hx Hp Hw).
    + right. apply optZ_eqb_eq in Hw. split; [|exact Hw].
      apply (@linkOk_linked (rows s) x (id p) (H3 x Hx Hnd) Hw).
Qed.

(** C4. Every request preserves the chain invariants: afterwards every
    non-deleted contact lies in the chain of a non-deleted primary, and
    every member of a chain other than its primary is a secondary whose
    [linkedId] is that primary's id. *)
Theorem identify_preserves_chains (now : Z) (req : IdentifyRequest) (s : Store) :
  wfStore s ->
  let s' := fst (identify now req s) in
  wfStore s'
  /\ (forall c, In c (rows s') -> deletedAt c = None ->
        exists p, In p (rows s') /\ linkPrecedence p = PRIMARY /\ deletedAt p = None
                  /\ In c (chainOf (id p) s'))
  /\ (forall p x, In p (rows s') -> linkPrecedence p = PRIMARY -> deletedAt p = None ->
        In x (chainOf (id p) s') ->
        x = p \/ (linkPrecedence x = SECONDARY /\ linkedId x = Some (id p))).
Proof.
  intros Hwf s'.
  assert (H : wfStore s').
  { unfold s'. rewrite identify_store.
    destruct (matchingSet _ _ s) as [|c t] eqn:Em.
    - apply wfStore_insert; [exact Hwf | reflexivity |]. reflexivity.
    - rewrite <- Em. destruct (writesFail _ _ s); [exact Hwf|].
      apply wfStore_writes, Hwf. }
  split; [exact H | apply wfStore_chains, H].
Qed.

(** ** The order of the matching set *)

Lemma StronglySorted_filter (A : Type) (R : A -> A -> Prop) (f : A -> bool)
      (l : list A) :
  StronglySorted R l -> StronglySorted R (filter f l).
Proof.
  induction 1 as [|x t Hs IH Hall]; simpl; [constructor|].
  destruct (f x); [constructor|]; auto.
  rewrite Forall_forall in *. intros y Hy. apply filter_In in Hy. apply Hall. tauto.
Qed.

Lemma StronglySorted_weaken (A : Type) (R R' : A -> A -> Prop) (l : list A) :
  (forall a b, R a b -> R' a b) -> StronglySorted R l -> StronglySorted R' l.
Proof.
  intros H. induction 1 as [|x t Hs IH Hall]; constructor; [exact IH|].
  eapply Forall_impl; [|exact Hall]. intros a. apply H.
Qed.

Lemma olderThan_keyLe (a b : Contact) : olderThan a b -> keyLe createdAt a b.
Proof. unfold olderThan, keyLe. lia. Qed.

Lemma insertOn_olderThan (x : Contact) (l : list Contact) :
  StronglySorted olderThan l ->
  Forall (fun y => id x < id y) l ->
  StronglySorted olderThan (insertOn createdAt x l).
Proof.
  induction 1 as [|y t Hs IH Hall]; simpl; intros Hid.
  - repeat constructor.
  - inversion Hid as [|? ? Hy Ht]; subst.
    destruct (createdAt x <=? createdAt y) eqn:E.
    + apply Z.leb_le in E. constructor; [constructor; assumption|].
      constructor; [unfold olderThan; lia|].
      rewrite Forall_forall in *. intros z Hz.
      specialize (Hall z Hz). specialize (Ht z Hz). unfold olderThan in *. lia.
    + apply Z.leb_gt in E. constructor; [apply IH, Ht|].
      rewrite Forall_forall in *. intros z Hz.
      apply (Permutation_in _ (insertOn_perm createdAt x t)) in Hz.
      destruct Hz as [<-|Hz]; [unfold olderThan; lia | apply Hall, Hz].
Qed.

(** A table in id order is sorted by [createdAt], then id. *)
Lemma sortOn_olderThan (l : list Contact) :
  idsAscending l -> StronglySorted olderThan (sortOn createdAt l).
Proof.
  induction 1 as [|x t Hs IH Hall]; simpl; [constructor|].
  apply insertOn_olderThan; [exact IH|].
  rewrite Forall_forall in *. intros y Hy.
  apply Hall. apply (proj1 (sortOn_In createdAt t y)), Hy.
Qed.

Lemma idsAscending_filter (f : Contact -> bool) (l : list Contact) :
  idsAscending l -> idsAscending (filter f l).
Proof. apply StronglySorted_filter. Qed.

Lemma matchingSet_olderThan (e p : option string) (s : Store) :
  idsAscending (rows s) -> StronglySorted olderThan (matchingSet e p s).
Proof. intros H. apply sortOn_olderThan, idsAscending_filter, H. Qed.

(** The primaries of a matching set are already in merge order. *)
Lemma matchingSet_primaries_sorted (e p : option string) (s : Store) :
  idsAscending (rows s) ->
  sortOn createdAt (filter isPrimary (matchingSet e p s))
  = filter isPrimary (matchingSet e p s).
Proof.
  intros H. apply sortOn_id.
  apply (@StronglySorted_weaken _ olderThan); [apply olderThan_keyLe|].
  apply StronglySorted_filter, matchingSet_olderThan, H.
Qed.

Lemma rowById_map (g : Contact -> Contact) (l : list Contact) (x : Contact) :
  (forall c, id (g c) = id c) ->
  NoDup (map id l) -> In x l ->
  find (fun c => id c =? id x) (map g l) = Some (g x).
Proof.
  intros Hg. induction l as [|y t IH]; simpl; intros Hn Hx; [contradiction|].
  inversion Hn as [|? ? Hy Ht]; subst. rewrite Hg.
  destruct Hx as [<-|Hx].
  - rewrite Z.eqb_refl. reflexivity.
  - destruct (id y =? id x) eqn:E; [|apply IH; assumption].
    apply Z.eqb_eq in E. exfalso. apply Hy. rewrite E. apply in_map, Hx.
Qed.

Lemma writesFail_primaries (m : list Contact) (d : IdentifyRequest) (s : Store) :
  filter isPrimary m <> [] -> writesFail m d s = None.
Proof.
  intros H. unfold writesFail.
  destruct (shouldCreateNewContact m (req_email d) (req_phoneNumber d)); [|reflexivity].
  destruct (@findPrimaryContact_listed m s H) as [p [E _]]. rewrite E. reflexivity.
Qed.

Lemma identify_store_matched (now : Z) (req : IdentifyRequest) (s : Store) :
  let d := sanitizeInput req in
  let m := matchingSet (req_email d) (req_phoneNumber d) s in
  m <> [] ->
  fst (identify now req s)
  = match writesFail m d s with
    | Some _ => s
    | None =>
        mkStore (map (mergeFn m) (rows s ++ createdRows now m d s))
                (nextId s + Z.of_nat (List.length (createdRows now m d s)))
    end.
Proof.
  intros d m Hm. rewrite identify_store. fold d m.
  destruct m; [congruence | reflexivity].
Qed.

Lemma hillValley_wf : wfStore hillValley.
Proof.
  constructor.
  - repeat constructor.
  - repeat constructor.
  - intros c [<-|[<-|[<-|[<-|[]]]]] Hd; try discriminate Hd;
      [reflexivity | reflexivity | ].
    exists biffLate. simpl. repeat split. right. left. reflexivity.
Defined.

Lemma identify_preserves_chains_witness :
  let s' := fst (identify 3000 bridgeRequest hillValley) in
  wfStore s'
  /\ (forall c, In c (rows s') -> deletedAt c = None ->
        exists p, In p (rows s') /\ linkPrecedence p = PRIMARY /\ deletedAt p = None
                  /\ In c (chainOf (id p) s'))
  /\ (forall p x, In p (rows s') -> linkPrecedence p = PRIMARY -> deletedAt p = None ->
        In x (chainOf (id p) s') ->
        x = p \/ (linkPrecedence x = SECONDARY /\ linkedId x = Some (id p))).
Proof.
  apply (@identify_preserves_chains 3000 bridgeRequest hillValley).
  exact hillValley_wf.
Defined.

(** ** The course of a request *)

Lemma getAllContactsInChain_eq (m : list Contact) (s : Store) :
  getAllContactsInChain m s
  = match snd (findPrimaryContact m s) with
    | Ok p => (s, Ok (chainOf (id p) s))
    | Err e => (s, Err e)
    end.
Proof.
  unfold getAllContactsInChain, bind. rewrite (findPrimaryContact_pair m s).
  destruct (snd (findPrimaryContact m s)); reflexivity.
Qed.

(** A request with a non-empty matching set: the writes, then primary
    resolution on the matching set as it was read, then the response. *)
Lemma identify_matched (now : Z) (req : IdentifyRequest) (s : Store) :
  let d := sanitizeInput req in
  let m := matchingSet (req_email d) (req_phoneNumber d) s in
  m <> [] ->
  identify now req s
  = match writesFail m d s with
    | Some e => (s, Err e)
    | None =>
        let s1 := afterWrites now m d s in
        match snd (findPrimaryContact m s1) with
        | Ok p => (s1, formatResponse (chainOf (id p) s1))
        | Err e => (s1, Err e)
        end
    end.
Proof.
  intros d m Hm. rewrite identify_eq. fold d m.
  transitivity (processExistingContacts now m d s).
  { destruct m; [congruence | reflexivity]. }
  rewrite processExistingContacts_eq. unfold bind at 1.
  rewrite processWrites_eq by (intros a Ha; apply (matchingSet_rows _ _ _ _ Ha)).
  destruct (writesFail m d s); [reflexivity|].
  fold (afterWrites now m d s). unfold bind.
  rewrite getAllContactsInChain_eq.
  destruct (snd (findPrimaryContact m (afterWrites now m d s))); reflexivity.
Qed.

Lemma findPrimaryContact_errors (contacts : list Contact) (s : Store) (e : Error) :
  snd (findPrimaryContact contacts s) = Err e ->
  e = SecondaryWithoutLinkedId \/ e = NoPrimaryForLinkedIds.
Proof.
  unfold findPrimaryContact.
  destruct (filter isPrimary contacts); [|discriminate].
  destruct (linkedIdsOf contacts).
  - simpl. intros H. inversion H. auto.
  - unfold bind, Prisma.findFirst. destruct (hd_error _); simpl; [discriminate|].
    intros H. inversion H. auto.
Qed.

Lemma findPrimaryContact_fails_iff (contacts : list Contact) (s : Store) :
  (exists e, snd (findPrimaryContact contacts s) = Err e)
  <-> filter isPrimary contacts = []
      /\ filter (primaryAmong (linkedIdsOf contacts)) (rows s) = [].
Proof.
  destruct (findPrimaryContact_cases contacts s)
    as [[p [H1 [H2 _]]] | [[p [H1 [H2 H3]]] | [e [H1 [_ [_ [H2 H3]]]]]]].
  - split; [intros [e He]; congruence | intros [E _]; congruence].
  - split; [intros [e He]; congruence |].
    intros [_ E]. rewrite E in H3. discriminate.
  - split; [auto | intros _; exists e; exact H1].
Qed.

Lemma no_primary_listed (l : list Contact) :
  filter isPrimary l = [] <-> forall c, In c l -> linkPrecedence c = SECONDARY.
Proof.
  rewrite filter_nil_iff. split; intros H c Hc; apply isPrimary_false, H, Hc.
Qed.

Lemma no_primary_among (ids : list Z) (l : list Contact) :
  filter (primaryAmong ids) l = []
  <-> ~ exists p, In p l /\ In (id p) ids
                  /\ linkPrecedence p = PRIMARY /\ deletedAt p = None.
Proof.
  rewrite filter_nil_iff. split.
  - intros H [p [Hp Hq]]. specialize (H p Hp).
    apply (proj2 (primaryAmong_true ids p)) in Hq. congruence.
  - intros H p Hp. destruct (primaryAmong ids p) eqn:E; [|reflexivity].
    exfalso. apply H. exists p. split; [exact Hp | apply primaryAmong_true, E].
Qed.

Lemma find_isPrimary_None (l : list Contact) :
  find isPrimary l = None <-> forall c, In c l -> linkPrecedence c = SECONDARY.
Proof.
  split.
  - intros H c Hc. apply isPrimary_false. apply (find_none _ _ H c Hc).
  - intros H. induction l as [|x t IH]; simpl; [reflexivity|].
    rewrite (proj2 (isPrimary_false x) (H x (or_introl eq_refl))).
    apply IH. intros c Hc. apply H. right. exact Hc.
Qed.

Lemma createdRows_secondary (now : Z) (m : list Contact) (d : IdentifyRequest)
      (s : Store) (c : Contact) :
  In c (createdRows now m d s) -> linkPrecedence c = SECONDARY.
Proof.
  unfold createdRows.
  destruct (shouldCreateNewContact _ _ _); [|intros []].
  destruct (snd (findPrimaryContact m s)); [|intros []].
  intros [<-|[]]. reflexivity.
Qed.

(** Without a primary in the matching set nothing is merged. *)
Lemma afterWrites_no_primary (now : Z) (m : list Contact) (d : IdentifyRequest)
      (s : Store) :
  filter isPrimary m = [] ->
  rows (afterWrites now m d s) = rows s ++ createdRows now m d s.
Proof.
  intros E. unfold afterWrites. simpl. apply mergeFn_nil. rewrite E. reflexivity.
Qed.

Lemma orphanedMatching_iff (m : list Contact) (s : Store) :
  orphanedMatching m s
  <-> m <> [] /\ exists e, snd (findPrimaryContact m s) = Err e.
Proof.
  unfold orphanedMatching.
  rewrite findPrimaryContact_fails_iff, no_primary_listed, no_primary_among.
  tauto.
Qed.

(** Resolution after the writes fails exactly when it fails before them. *)
Lemma findPrimaryContact_afterWrites (now : Z) (m : list Contact)
      (d : IdentifyRequest) (s : Store) :
  (exists e, snd (findPrimaryContact m (afterWrites now m d s)) = Err e)
  <-> (exists e, snd (findPrimaryContact m s) = Err e).
Proof.
  rewrite !findPrimaryContact_fails_iff. split; intros [H1 H2]; split; auto.
  - rewrite (@afterWrites_no_primary now m d s H1), filter_app in H2.
    apply app_eq_nil in H2. tauto.
  - rewrite (@afterWrites_no_primary now m d s H1), filter_app, H2. simpl.
    apply filter_nil_iff. intros c Hc.
    apply createdRows_secondary, isPrimary_false in Hc.
    unfold primaryAmong. rewrite Hc, andb_false_r. reflexivity.
Qed.

Lemma writesFail_Some (m : list Contact) (d : IdentifyRequest) (s : Store) (e : Error) :
  writesFail m d s = Some e -> snd (findPrimaryContact m s) = Err e.
Proof.
  unfold writesFail. destruct (shouldCreateNewContact _ _ _); [|discriminate].
  destruct (snd (findPrimaryContact m s)); [discriminate|].
  intros H. inversion H. reflexivity.
Qed.

Lemma chainWithoutPrimary_iff (now : Z) (m : list Contact) (d : IdentifyRequest)
      (s : Store) :
  (forall a, In a m -> In a (rows s)) ->
  chainWithoutPrimary now m d s
  <-> m <> [] /\ writesFail m d s = None
      /\ exists p, snd (findPrimaryContact m (afterWrites now m d s)) = Ok p
                   /\ find isPrimary (chainOf (id p) (afterWrites now m d s)) = None.
Proof.
  intros Hm. unfold chainWithoutPrimary. rewrite processWrites_eq by exact Hm.
  fold (afterWrites now m d s). split.
  - intros [H0 [s1 [chain [H1 [H2 H3]]]]]. split; [exact H0|].
    destruct (writesFail m d s); [discriminate|]. split; [reflexivity|].
    inversion H1; subst s1. rewrite getAllContactsInChain_eq in H2.
    destruct (snd (findPrimaryContact m (afterWrites now m d s))) as [p|e];
      [|discriminate].
    exists p. split; [reflexivity|]. inversion H2; subst chain.
    apply find_isPrimary_None, H3.
  - intros [H0 [H1 [p [H2 H3]]]]. split; [exact H0|].
    exists (afterWrites now m d s), (chainOf (id p) (afterWrites now m d s)).
    rewrite H1, getAllContactsInChain_eq, H2.
    repeat split. apply find_isPrimary_None, H3.
Qed.

Lemma identify_unmatched_ok (now : Z) (req : IdentifyRequest) (s : Store) :
  let d := sanitizeInput req in
  matchingSet (req_email d) (req_phoneNumber d) s = [] ->
  exists s' r, identify now req s = (s', Ok r).
Proof.
  intros d H. rewrite (identify_no_match now req s H), handleNewContact_eq.
  eexists. eexists. reflexivity.
Qed.

(** C7. A request fails exactly when its non-empty matching set holds
    only secondaries none of whose [linkedId]s names a non-deleted primary,
    or when the chain assembled for the response holds no primary.  The
    error is one of the three integrity errors; the controller answers it
    with status 500, and answers 400 only for a body it rejects without
    calling the service. *)
Theorem identify_fails_iff (now : Z) (req : IdentifyRequest) (s : Store) :
  let d := sanitizeInput req in
  let m := matchingSet (req_email d) (req_phoneNumber d) s in
  ((exists s' e, identify now req s = (s', Err e))
   <-> orphanedMatching m s \/ chainWithoutPrimary now m d s)
  /\ (forall s' e, identify now req s = (s', Err e) -> isIntegrityError e)
  /\ (rejected req = true -> controller now req s = (s, Http400))
  /\ (rejected req = false ->
      forall s' e, identify now (processedData req) s = (s', Err e) ->
                   controller now req s = (s', Http500 e)).
Proof.
  intros d m.
  assert (Hrows : forall a, In a m -> In a (rows s)).
  { intros a Ha. apply (matchingSet_rows _ _ _ _ Ha). }
  rewrite orphanedMatching_iff, (@chainWithoutPrimary_iff now m d s Hrows).
  destruct m as [|c0 t0] eqn:Em.
  { (* nothing matched: a primary is created *)
    destruct (@identify_unmatched_ok now req s Em) as [s1 [r1 E1]].
    split; [|split; [|split]].
    - split; [intros [s' [e H]]; congruence | intros [[H _]|[H _]]; congruence].
    - intros s' e H. congruence.
    - intros Hr. unfold controller. fold (rejected req). rewrite Hr. reflexivity.
    - intros Hr s' e H. unfold controller. fold (rejected req) (processedData req).
      rewrite Hr, H. reflexivity. }
  rewrite <- Em in *.
  assert (Hm : m <> []) by (rewrite Em; discriminate).
  pose proof (@identify_matched now req s Hm) as Hid. fold d m in Hid. simpl in Hid.
  split; [|split; [|split]].
  - rewrite Hid. destruct (writesFail m d s) as [e|] eqn:Hw.
    + apply writesFail_Some in Hw. split; intros _.
      * left. split; [exact Hm | exists e; exact Hw].
      * exists s, e. reflexivity.
    + destruct (snd (findPrimaryContact m (afterWrites now m d s))) as [p|e] eqn:Hp.
      * destruct (find isPrimary (chainOf (id p) (afterWrites now m d s))) eqn:Hf.
        -- rewrite (formatResponse_eq _ Hf). split.
           ++ intros [s' [e H]]. discriminate.
           ++ intros [[_ H]|[_ [_ [q [Hq1 Hq2]]]]].
              ** apply (findPrimaryContact_afterWrites now m d s) in H.
                 destruct H as [e He]. congruence.
              ** inversion Hq1; subst q. congruence.
        -- rewrite (formatResponse_error _ Hf). split; intros _.
           ++ right. split; [exact Hm|]. split; [reflexivity|]. exists p. auto.
           ++ eexists. eexists. reflexivity.
      * split; intros _.
        -- left. split; [exact Hm|].
           apply (findPrimaryContact_afterWrites now m d s). exists e. exact Hp.
        -- eexists. eexists. reflexivity.
  - intros s' e. rewrite Hid. unfold isIntegrityError.
    destruct (writesFail m d s) as [e0|] eqn:Hw.
    + apply writesFail_Some, findPrimaryContact_errors in Hw.
      intros H. inversion H; subst. tauto.
    + destruct (snd (findPrimaryContact m (afterWrites now m d s))) as [p|e0] eqn:Hp.
      * unfold formatResponse. destruct (find isPrimary _); intros H; inversion H. auto.
      * apply findPrimaryContact_errors in Hp. intros H. inversion H; subst. tauto.
  - intros Hr. unfold controller. fold (rejected req). rewrite Hr. reflexivity.
  - intros Hr s' e H. unfold controller. fold (rejected req) (processedData req).
    rewrite Hr, H. reflexivity.
Qed.

(** ** Running a request again *)

Lemma mergeFn_fields (m : list Contact) (c : Contact) :
  id (mergeFn m c) = id c
  /\ email (mergeFn m c) = email c
  /\ phoneNumber (mergeFn m c) = phoneNumber c
  /\ createdAt (mergeFn m c) = createdAt c
  /\ deletedAt (mergeFn m c) = deletedAt c.
Proof.
  unfold mergeFn. destruct (sortOn createdAt (filter isPrimary m)) as [|o newer].
  - repeat split.
  - split; [apply mergeRow_id | apply mergeRow_fields].
Qed.

Lemma matchesWhere_fields (e p : option string) (c c' : Contact) :
  email c' = email c -> phoneNumber c' = phoneNumber c -> deletedAt c' = deletedAt c ->
  matchesWhere e p c' = matchesWhere e p c.
Proof.
  intros H1 H2 H3. unfold matchesWhere, notDeleted. rewrite H1, H2, H3. reflexivity.
Qed.

Lemma filter_map_comm (A : Type) (f : A -> bool) (g : A -> A) (l : list A) :
  (forall x, f (g x) = f x) -> filter f (map g l) = map g (filter f l).
Proof.
  intros H. induction l as [|x t IH]; simpl; [reflexivity|].
  rewrite H, IH. destruct (f x); reflexivity.
Qed.

(** The matching set of the same request, read after its writes. *)
Lemma matchingSet_afterWrites (now : Z) (e p : option string) (m : list Contact)
      (d : IdentifyRequest) (s : Store) :
  matchingSet e p (afterWrites now m d s)
  = map (mergeFn m)
        (sortOn createdAt (filter (matchesWhere e p) (rows s ++ createdRows now m d s))).
Proof.
  unfold matchingSet, afterWrites. simpl rows.
  rewrite filter_map_comm.
  - apply sortOn_map. intros c. apply (mergeFn_fields m c).
  - intros c. destruct (mergeFn_fields m c) as [_ [H1 [H2 [_ H3]]]].
    apply matchesWhere_fields; assumption.
Qed.

Lemma existsb_sortOn (A : Type) (key : A -> Z) (f : A -> bool) (l : list A) :
  existsb f (sortOn key l) = existsb f l.
Proof.
  apply eq_true_iff_eq. rewrite !existsb_exists.
  split; intros [x [Hx Hf]]; exists x; split; auto; apply (sortOn_In key l x); exact Hx.
Qed.

Lemma shouldCreateNewContact_ext (l l' : list Contact) (e p : option string) :
  (forall f : Contact -> bool,
      (forall c c', email c' = email c -> phoneNumber c' = phoneNumber c -> f c' = f c) ->
      existsb f l' = existsb f l) ->
  shouldCreateNewContact l' e p = shouldCreateNewContact l e p.
Proof.
  intros H. unfold shouldCreateNewContact.
  rewrite !H; [reflexivity | | |]; intros c c' H1 H2; rewrite ?H1, ?H2; reflexivity.
Qed.

Lemma shouldCreateNewContact_sortOn (l : list Contact) (e p : option string) :
  shouldCreateNewContact (sortOn createdAt l) e p = shouldCreateNewContact l e p.
Proof.
  apply shouldCreateNewContact_ext. intros f _. apply existsb_sortOn.
Qed.

Lemma shouldCreateNewContact_map (g : Contact -> Contact) (l : list Contact)
      (e p : option string) :
  (forall c, email (g c) = email c /\ phoneNumber (g c) = phoneNumber c) ->
  shouldCreateNewContact (map g l) e p = shouldCreateNewContact l e p.
Proof.
  intros Hg. apply shouldCreateNewContact_ext. intros f Hf.
  induction l as [|x t IH]; simpl; [reflexivity|].
  rewrite IH. destruct (Hg x) as [H1 H2]. rewrite (Hf x (g x) H1 H2). reflexivity.
Qed.

Lemma strictEq_refl_truthy (x : option string) :
  truthy x = true -> strictEq x x = true.
Proof. destruct x as [v|]; simpl; [intros _; apply String.eqb_refl | discriminate]. Qed.

(** A contact that carries exactly the two supplied fields settles the
    decision. *)
Lemma shouldCreateNewContact_exact (l : list Contact) (e p : option string)
      (c : Contact) :
  In c l -> email c = e -> phoneNumber c = p ->
  truthy e = true -> truthy p = true ->
  shouldCreateNewContact l e p = false.
Proof.
  intros Hc He Hp Te Tp. unfold shouldCreateNewContact.
  assert (X : existsb (fun contact => strictEq (email contact) e
                                      && strictEq (phoneNumber contact) p) l = true).
  { apply existsb_exists. exists c. split; [exact Hc|].
    rewrite He, Hp, !strictEq_refl_truthy by assumption. reflexivity. }
  rewrite X. reflexivity.
Qed.

(** With one field supplied, a match on that field settles the decision. *)
Lemma shouldCreateNewContact_single (l : list Contact) (e p : option string)
      (c : Contact) :
  In c l -> matchesWhere e p c = true ->
  truthy e && truthy p = false ->
  shouldCreateNewContact l e p = false.
Proof.
  intros Hc Hw Hboth. unfold shouldCreateNewContact.
  destruct (existsb _ l); [reflexivity|]. rewrite Hboth.
  unfold matchesWhere in Hw. apply orb_true_iff in Hw.
  destruct (truthy e) eqn:Te.
  - simpl in Hboth. destruct Hw as [Hw|Hw].
    + destruct e as [x|]; [|discriminate].
      apply andb_true_iff in Hw. destruct Hw as [Hw _].
      apply andb_true_iff in Hw. destruct Hw as [_ Hw].
      assert (X : existsb (fun c0 => strictEq (email c0) (Some x)) l = true).
      { apply existsb_exists. exists c. split; [exact Hc|].
        unfold columnIs in Hw. unfold strictEq. destruct (email c); assumption. }
      rewrite X. reflexivity.
    + destruct p as [y|]; [|discriminate]. simpl in Hboth.
      rewrite Hboth in Hw. discriminate.
  - destruct Hw as [Hw|Hw].
    + destruct e as [x|]; [|discriminate]. simpl in Te. rewrite Te in Hw. discriminate.
    + destruct p as [y|]; [|discriminate].
      apply andb_true_iff in Hw. destruct Hw as [Hw _].
      apply andb_true_iff in Hw. destruct Hw as [Hy Hw].
      simpl. rewrite Hy.
      assert (X : existsb (fun c0 => strictEq (phoneNumber c0) (Some y)) l = true).
      { apply existsb_exists. exists c. split; [exact Hc|].
        unfold columnIs in Hw. unfold strictEq. destruct (phoneNumber c); assumption. }
      rewrite X. reflexivity.
Qed.

(** On a non-empty matching set a new row is decided only for a request
    that supplies both fields. *)
Lemma shouldCreateNewContact_both (e p : option string) (s : Store) :
  matchingSet e p s <> [] ->
  shouldCreateNewContact (matchingSet e p s) e p = true ->
  truthy e = true /\ truthy p = true.
Proof.
  intros Hne H.
  destruct (truthy e && truthy p) eqn:B; [apply andb_true_iff, B|].
  destruct (matchingSet e p s) as [|c t] eqn:Em; [congruence|].
  assert (Hc : In c (matchingSet e p s)) by (rewrite Em; left; reflexivity).
  apply matchingSet_In in Hc. destruct Hc as [_ Hw].
  rewrite (@shouldCreateNewContact_single (c :: t) e p c (or_introl eq_refl) Hw B) in H.
  discriminate.
Qed.

Lemma writesFail_None (now : Z) (m : list Contact) (d : IdentifyRequest) (s : Store) :
  writesFail m d s = None ->
  (shouldCreateNewContact m (req_email d) (req_phoneNumber d) = false
   /\ createdRows now m d s = [])
  \/ (shouldCreateNewContact m (req_email d) (req_phoneNumber d) = true
      /\ exists p, snd (findPrimaryContact m s) = Ok p
                   /\ createdRows now m d s = [secondaryFor now d s p]).
Proof.
  unfold writesFail, createdRows.
  destruct (shouldCreateNewContact _ _ _); [|auto].
  destruct (snd (findPrimaryContact m s)) as [p|e]; [|discriminate].
  intros _. right. split; [reflexivity|]. exists p. auto.
Qed.

Lemma matchesWhere_own_fields (c : Contact) :
  deletedAt c = None ->
  truthy (email c) = true \/ truthy (phoneNumber c) = true ->
  matchesWhere (email c) (phoneNumber c) c = true.
Proof.
  intros Hd H. unfold matchesWhere, columnIs.
  apply notDeleted_true in Hd. rewrite Hd.
  destruct H as [H|H]; apply orb_true_iff; [left|right].
  - destruct (email c) as [x|]; [|discriminate]. simpl in H.
    rewrite H, String.eqb_refl. reflexivity.
  - destruct (phoneNumber c) as [x|]; [|discriminate]. simpl in H.
    rewrite H, String.eqb_refl. reflexivity.
Qed.

Lemma mergeRow_nil (o : Z) (c : Contact) : mergeRow o [] c = c.
Proof. reflexivity. Qed.

(** With at most one primary in the matching set nothing is rewritten. *)
Lemma mergeFn_single (m : list Contact) (l : list Contact) :
  (List.length (filter isPrimary m) <= 1)%nat -> map (mergeFn m) l = l.
Proof.
  intros H. rewrite <- (sortOn_length createdAt) in H.
  destruct (sortOn createdAt (filter isPrimary m)) as [|o newer] eqn:E.
  - apply (@mergeFn_nil m E).
  - rewrite (@mergeFn_cons m o newer l E).
    destruct newer; [apply map_id | simpl in H; lia].
Qed.

Lemma mergedRow_isPrimary (o : Z) (newer : list Contact) (c : Contact) :
  isPrimary (mergedRow o newer c)
  = isPrimary c && negb (memZ (id c) (map id newer)).
Proof.
  unfold mergedRow. destruct (memZ (id c) (map id newer)); simpl.
  - rewrite andb_false_r. reflexivity.
  - rewrite andb_true_r. destruct (linkedId c); [|reflexivity].
    destruct (_ && _); reflexivity.
Qed.

Lemma filter_all_false (A : Type) (f : A -> bool) (l : list A) :
  (forall x, In x l -> f x = false) -> filter f l = [].
Proof. apply filter_nil_iff. Qed.

Lemma filter_isPrimary_created (now : Z) (m : list Contact) (d : IdentifyRequest)
      (s : Store) (f : Contact -> bool) :
  filter isPrimary (filter f (createdRows now m d s)) = [].
Proof.
  apply filter_all_false. intros c Hc. apply filter_In in Hc.
  apply isPrimary_false. apply (@createdRows_secondary now m d s c). tauto.
Qed.

(** The primaries that match before the writes. *)
Lemma primaries_before_merge (now : Z) (e p : option string) (m : list Contact)
      (d : IdentifyRequest) (s : Store) :
  filter isPrimary
         (sortOn createdAt (filter (matchesWhere e p) (rows s ++ createdRows now m d s)))
  = filter isPrimary (matchingSet e p s).
Proof.
  unfold matchingSet. rewrite !filter_sortOn, filter_app, filter_app.
  rewrite filter_isPrimary_created, app_nil_r. reflexivity.
Qed.

Lemma filter_map_pre (A : Type) (f : A -> bool) (g : A -> A) (l : list A) :
  filter f (map g l) = map g (filter (fun x => f (g x)) l).
Proof.
  induction l as [|x t IH]; simpl; [reflexivity|].
  rewrite IH. destruct (f (g x)); reflexivity.
Qed.

(** After the writes at most the survivor is still a matching primary. *)
Lemma primaries_afterWrites (now : Z) (d : IdentifyRequest) (s : Store) :
  wfStore s ->
  let e := req_email d in
  let p := req_phoneNumber d in
  let m := matchingSet e p s in
  filter isPrimary (matchingSet e p (afterWrites now m d s))
  = match filter isPrimary m with
    | [] => []
    | survivor :: _ => [survivor]
    end.
Proof.
  intros Hwf e p m. pose proof (wf_ids Hwf) as Hids.
  pose proof (@matchingSet_primaries_sorted e p s Hids) as Hsorted. fold m in Hsorted.
  rewrite matchingSet_afterWrites.
  set (M0 := sortOn createdAt
               (filter (matchesWhere e p) (rows s ++ createdRows now m d s))).
  assert (HM0 : filter isPrimary M0 = filter isPrimary m).
  { apply primaries_before_merge. }
  destruct (filter isPrimary m) as [|survivor newer] eqn:Ep.
  - rewrite (@mergeFn_nil m) by (rewrite Ep; reflexivity). exact HM0.
  - rewrite <- Ep in Hsorted at 1.
    destruct (@matchingSet_survivor e p s survivor newer Hids Hsorted)
      as [HSr [HSp [HSd HSn]]].
    rewrite (@mergeFn_cons m survivor newer M0 Hsorted).
    rewrite (map_ext _ _ (@mergeRow_closed (id survivor) newer HSn)).
    rewrite filter_map_pre.
    rewrite (filter_ext _ _ (mergedRow_isPrimary (id survivor) newer)).
    rewrite <- filter_filter, HM0. simpl.
    assert (E1 : memZ (id survivor) (map id newer) = false).
    { destruct (memZ (id survivor) (map id newer)) eqn:X; [|reflexivity].
      apply memZ_In in X. contradiction. }
    rewrite E1. simpl.
    rewrite (@filter_all_false _ _ newer).
    + simpl. f_equal. apply mergedRow_keeps_primary; [exact HSn|].
      apply (@linkOk_primary (rows s) survivor (wf_links Hwf survivor HSr HSd) HSp).
    + intros x Hx. apply negb_false_iff, memZ_In, in_map, Hx.
Qed.

(** The second run decides against a new row. *)
Lemma second_run_decision (now : Z) (d : IdentifyRequest) (s : Store) :
  let e := req_email d in
  let p := req_phoneNumber d in
  let m := matchingSet e p s in
  m <> [] ->
  writesFail m d s = None ->
  shouldCreateNewContact (matchingSet e p (afterWrites now m d s)) e p = false.
Proof.
  intros e p m Hm Hw.
  rewrite matchingSet_afterWrites.
  rewrite shouldCreateNewContact_map
    by (intros c; destruct (mergeFn_fields m c) as [_ [H1 [H2 _]]]; auto).
  rewrite shouldCreateNewContact_sortOn.
  destruct (@writesFail_None now m d s Hw) as [[H1 H2]|[H1 [q [H2 H3]]]].
  - rewrite H2, app_nil_r. fold e p in H1.
    unfold m, matchingSet in H1. rewrite shouldCreateNewContact_sortOn in H1.
    exact H1.
  - fold e p in H1. rewrite H3.
    destruct (@shouldCreateNewContact_both e p s Hm H1) as [Te Tp].
    apply (@shouldCreateNewContact_exact _ e p (secondaryFor now d s q));
      try reflexivity; try assumption.
    apply filter_In. split.
    + apply in_or_app. right. left. reflexivity.
    + apply (@matchesWhere_own_fields (secondaryFor now d s q)); [reflexivity|].
      left. exact Te.
Qed.

Lemma no_writes (now : Z) (m : list Contact) (d : IdentifyRequest) (s : Store) :
  shouldCreateNewContact m (req_email d) (req_phoneNumber d) = false ->
  (List.length (filter isPrimary m) <= 1)%nat ->
  writesFail m d s = None /\ afterWrites now m d s = s.
Proof.
  intros H1 H2. unfold writesFail, afterWrites, createdRows. rewrite H1.
  split; [reflexivity|]. simpl. rewrite app_nil_r, Z.add_0_r.
  rewrite (@mergeFn_single m (rows s) H2). apply store_eta.
Qed.

(** The primary resolved from the old matching set is the survivor,
    whenever the chain assembled for it holds a primary. *)
Lemma resolved_is_survivor (now : Z) (d : IdentifyRequest) (s : Store)
      (survivor resolved q : Contact) (newer : list Contact) :
  idsAscending (rows s) ->
  let e := req_email d in
  let p := req_phoneNumber d in
  let m := matchingSet e p s in
  let s1 := afterWrites now m d s in
  filter isPrimary m = survivor :: newer ->
  snd (findPrimaryContact m s1) = Ok resolved ->
  find isPrimary (chainOf (id resolved) s1) = Some q ->
  resolved = survivor.
Proof.
  intros Hids e p m s1 Ep Hres Hq.
  pose proof (@matchingSet_primaries_sorted e p s Hids) as Hsorted.
  fold m in Hsorted. rewrite Ep in Hsorted. rewrite <- Ep in Hsorted at 1.
  destruct (@matchingSet_survivor e p s survivor newer Hids Hsorted)
    as [_ [_ [_ HSn]]].
  assert (Hin : In resolved (survivor :: newer)).
  { unfold findPrimaryContact in Hres. rewrite Ep in Hres. simpl in Hres.
    inversion Hres. apply reduce_older_In. }
  destruct Hin as [<-|Hin]; [reflexivity|]. exfalso.
  assert (Hmem : memZ (id resolved) (map id newer) = true)
    by (apply memZ_In, in_map, Hin).
  apply find_some in Hq. destruct Hq as [Hq Hqp].
  unfold chainOf in Hq. apply (proj1 (sortOn_In _ _ _)) in Hq.
  apply filter_In in Hq. destruct Hq as [Hq Hw].
  unfold s1, afterWrites in Hq. simpl in Hq.
  rewrite (@mergeFn_cons m survivor newer _ Hsorted) in Hq.
  apply in_map_iff in Hq. destruct Hq as [c [Ec Hc]].
  rewrite mergeRow_closed in Ec by exact HSn. subst q.
  rewrite mergedRow_isPrimary in Hqp. apply andb_true_iff in Hqp.
  destruct Hqp as [Hcp Hcn]. apply negb_true_iff in Hcn.
  unfold chainWhere in Hw. apply andb_true_iff in Hw. destruct Hw as [Hw Hnd].
  unfold mergedRow in Hw, Hnd. rewrite Hcn in Hw, Hnd.
  apply orb_true_iff in Hw. destruct Hw as [Hw|Hw].
  - (* the row of the resolved contact itself: it was demoted *)
    destruct (linkedId c) as [l|]; [destruct (memZ l (map id newer) && notDeleted c)|];
      simpl in Hw; apply Z.eqb_eq in Hw; rewrite Hw in Hcn; congruence.
  - (* a row linked to the resolved contact: it was re-pointed *)
    destruct (linkedId c) as [l|] eqn:El.
    + destruct (memZ l (map id newer) && notDeleted c) eqn:B.
      * simpl in Hw. apply Z.eqb_eq in Hw. apply HSn. rewrite Hw.
        apply in_map, Hin.
      * rewrite El in Hw. simpl in Hw. apply Z.eqb_eq in Hw. subst l.
        rewrite Hmem, Hnd in B. discriminate.
    + rewrite El in Hw. discriminate.
Qed.

Lemma findPrimaryContact_same_links (l l' : list Contact) (s : Store) (p : Contact) :
  filter isPrimary l = [] ->
  filter isPrimary l' = [] ->
  (forall i, In i (linkedIdsOf l') <-> In i (linkedIdsOf l)) ->
  snd (findPrimaryContact l s) = Ok p ->
  snd (findPrimaryContact l' s) = Ok p.
Proof.
  intros Hl Hl' Hids Hp.
  assert (Hext : filter (primaryAmong (linkedIdsOf l')) (rows s)
                 = filter (primaryAmong (linkedIdsOf l)) (rows s)).
  { apply filter_ext. intros c. unfold primaryAmong. f_equal. f_equal.
    apply eq_true_iff_eq. rewrite !memZ_In. apply Hids. }
  assert (Hhd : hd_error (sortOn createdAt
                            (filter (primaryAmong (linkedIdsOf l)) (rows s))) = Some p).
  { destruct (findPrimaryContact_cases l s)
      as [[q [H1 [H2 _]]] | [[q [H1 [_ H3]]] | [e [H1 _]]]]; try congruence. }
  destruct (findPrimaryContact_cases l' s)
    as [[q [H1 [H2 _]]] | [[q [H1 [_ H3]]] | [e [H1 [_ [_ [_ H3]]]]]]].
  - congruence.
  - rewrite Hext in H3. congruence.
  - rewrite Hext in H3. rewrite H3 in Hhd. discriminate.
Qed.

Lemma linkedIdsOf_sortOn (l : list Contact) (i : Z) :
  In i (linkedIdsOf (sortOn createdAt l)) <-> In i (linkedIdsOf l).
Proof.
  rewrite !linkedIdsOf_In.
  split; intros [c [Hc Hl]]; exists c; split; auto; apply (sortOn_In createdAt l c), Hc.
Qed.

Lemma linkedIdsOf_app (l1 l2 : list Contact) (i : Z) :
  In i (linkedIdsOf (l1 ++ l2)) <-> In i (linkedIdsOf l1) \/ In i (linkedIdsOf l2).
Proof.
  rewrite !linkedIdsOf_In. split.
  - intros [c [Hc Hl]]. apply in_app_or in Hc.
    destruct Hc; [left | right]; exists c; auto.
  - intros [[c [Hc Hl]]|[c [Hc Hl]]]; exists c; split; auto;
      apply in_or_app; auto.
Qed.

(** Without a matching primary, the second run resolves the same primary
    among the same [linkedId]s. *)
Lemma resolved_again (now : Z) (d : IdentifyRequest) (s : Store) (resolved : Contact) :
  let e := req_email d in
  let p := req_phoneNumber d in
  let m := matchingSet e p s in
  let s1 := afterWrites now m d s in
  filter isPrimary m = [] ->
  writesFail m d s = None ->
  snd (findPrimaryContact m s1) = Ok resolved ->
  snd (findPrimaryContact (matchingSet e p s1) s1) = Ok resolved.
Proof.
  intros e p m s1 Ep Hw Hres.
  assert (Ep' : filter isPrimary (matchingSet e p s1) = []).
  { unfold s1. rewrite matchingSet_afterWrites.
    rewrite (@mergeFn_nil m) by (rewrite Ep; reflexivity).
    rewrite primaries_before_merge. exact Ep. }
  apply (@findPrimaryContact_same_links m _ s1 resolved Ep Ep'); [|exact Hres].
  intros i. unfold s1. rewrite matchingSet_afterWrites.
  rewrite (@mergeFn_nil m) by (rewrite Ep; reflexivity).
  rewrite linkedIdsOf_sortOn, filter_app, linkedIdsOf_app.
  assert (Hlinks : forall j, In j (linkedIdsOf m)
                             <-> In j (linkedIdsOf (filter (matchesWhere e p) (rows s))))
    by (intros j; apply linkedIdsOf_sortOn).
  rewrite (Hlinks i).
  split; [|auto]. intros [H|H]; [exact H|].
  destruct (@writesFail_None now m d s Hw) as [[_ H2]|[_ [q [H2 H3]]]].
  - rewrite H2 in H. simpl in H. contradiction.
  - rewrite H3 in H. simpl in H.
    destruct (matchesWhere e p (secondaryFor now d s q)); [|contradiction].
    simpl in H. destruct H as [<-|[]].
    destruct (findPrimaryContact_cases m s)
      as [[q' [H1 [H4 _]]] | [[q' [H1 [_ H5]]] | [e' [H1 _]]]]; try congruence.
    rewrite H2 in H1. inversion H1; subst q'.
    apply hd_error_sortOn_In, filter_In in H5. destruct H5 as [_ H5].
    apply primaryAmong_true in H5. apply Hlinks. tauto.
Qed.

(** No row of a well-formed table lies in the chain of the next id. *)
Lemma chainWhere_next (s : Store) (c : Contact) :
  wfStore s -> In c (rows s) -> chainWhere (nextId s) c = false.
Proof.
  intros Hwf Hc. unfold chainWhere.
  pose proof (wf_seq Hwf) as Hseq. rewrite Forall_forall in Hseq.
  assert (E : (id c =? nextId s) = false).
  { apply Z.eqb_neq. specialize (Hseq c Hc). lia. }
  rewrite E. simpl.
  destruct (notDeleted c) eqn:Hd; [|apply andb_false_r].
  rewrite andb_true_r.
  destruct (optZ_eqb (linkedId c) (Some (nextId s))) eqn:L; [|reflexivity].
  exfalso. apply optZ_eqb_eq in L. apply notDeleted_true in Hd.
  pose proof (wf_links Hwf c Hc Hd) as Hl.
  destruct (@linkOk_secondary (rows s) c Hl
              (@linkOk_linked (rows s) c (nextId s) Hl L)) as [q [Hq [Hlq _]]].
  specialize (Hseq q Hq). rewrite L in Hlq. inversion Hlq. lia.
Qed.

Lemma chainOf_new (now : Z) (d : IdentifyRequest) (s : Store) :
  wfStore s ->
  chainOf (nextId s) (mkStore (rows s ++ [newPrimary now d s]) (nextId s + 1))
  = [newPrimary now d s].
Proof.
  intros Hwf. unfold chainOf. simpl rows. rewrite filter_app.
  rewrite (@filter_all_false _ _ (rows s))
    by (intros c Hc; apply (@chainWhere_next s c Hwf Hc)).
  simpl. unfold chainWhere. simpl. rewrite Z.eqb_refl. reflexivity.
Qed.

Lemma filter_singleton (A : Type) (f : A -> bool) (x : A) :
  f x = true -> filter f [x] = [x].
Proof. simpl. intros H. rewrite H. reflexivity. Qed.

(** The second run after a new identity was created. *)
Lemma identify_again_new (now later : Z) (req : IdentifyRequest) (s : Store) :
  wfStore s ->
  let d := sanitizeInput req in
  truthy (req_email d) = true \/ truthy (req_phoneNumber d) = true ->
  matchingSet (req_email d) (req_phoneNumber d) s = [] ->
  identify later req (fst (handleNewContact now d s)) = handleNewContact now d s.
Proof.
  intros Hwf d Ht Hm. rewrite handleNewContact_eq. simpl fst.
  set (n := newPrimary now d s).
  set (s1 := mkStore (rows s ++ [n]) (nextId s + 1)).
  assert (Hwn : matchesWhere (req_email d) (req_phoneNumber d) n = true).
  { apply (@matchesWhere_own_fields n); [reflexivity | exact Ht]. }
  assert (Hm1 : matchingSet (req_email d) (req_phoneNumber d) s1 = [n]).
  { unfold matchingSet in *. simpl rows. rewrite filter_app.
    apply sortOn_nil_iff in Hm. rewrite Hm, (filter_singleton _ _ Hwn). reflexivity. }
  assert (Hdec : shouldCreateNewContact [n] (req_email d) (req_phoneNumber d) = false).
  { destruct (truthy (req_email d) && truthy (req_phoneNumber d)) eqn:B.
    - apply andb_true_iff in B. destruct B as [B1 B2].
      apply (@shouldCreateNewContact_exact [n] _ _ n); auto. left. reflexivity.
    - apply (@shouldCreateNewContact_single [n] _ _ n); auto. left. reflexivity. }
  destruct (@no_writes later [n] d s1 Hdec) as [Hw Ha]; [simpl; lia|].
  pose proof (@identify_matched later req s1) as Hid. cbv zeta in Hid.
  fold d in Hid. rewrite Hm1 in Hid. rewrite Hid by discriminate.
  rewrite Hw, Ha. simpl snd. cbv beta iota.
  change (chainOf (id n) s1) with (chainOf (nextId s) s1).
  unfold s1, n. rewrite (@chainOf_new now d s Hwf). reflexivity.
Qed.

Lemma matchingSet_afterWrites_nonempty (now : Z) (d : IdentifyRequest) (s : Store) :
  let e := req_email d in
  let p := req_phoneNumber d in
  let m := matchingSet e p s in
  m <> [] -> matchingSet e p (afterWrites now m d s) <> [].
Proof.
  intros e p m Hm. rewrite matchingSet_afterWrites.
  destruct m as [|c t] eqn:Em; [congruence|]. rewrite <- Em in *.
  assert (Hc : In c m) by (rewrite Em; left; reflexivity).
  apply matchingSet_In in Hc. destruct Hc as [Hc Hw].
  assert (Hin : In (mergeFn m c)
                   (map (mergeFn m)
                        (sortOn createdAt
                                (filter (matchesWhere e p)
                                        (rows s ++ createdRows now m d s))))).
  { apply in_map, sortOn_In, filter_In. split; [|exact Hw].
    apply in_or_app. left. exact Hc. }
  intros E. rewrite E in Hin. contradiction.
Qed.

(** The second run after a request that found matches. *)
Lemma identify_again_matched (now later : Z) (req : IdentifyRequest) (s : Store)
      (r1 : IdentifyResponse) :
  wfStore s ->
  let d := sanitizeInput req in
  let m := matchingSet (req_email d) (req_phoneNumber d) s in
  m <> [] ->
  identify now req s = (afterWrites now m d s, Ok r1) ->
  writesFail m d s = None ->
  identify later req (afterWrites now m d s) = (afterWrites now m d s, Ok r1).
Proof.
  intros Hwf d m Hm Hrun Hw.
  set (e := req_email d) in *. set (p := req_phoneNumber d) in *.
  set (s1 := afterWrites now m d s) in *.
  (* the first run *)
  pose proof (@identify_matched now req s Hm) as Hid1. cbv zeta in Hid1.
  fold d e p m in Hid1. rewrite Hw in Hid1. fold s1 in Hid1.
  rewrite Hid1 in Hrun. clear Hid1.
  destruct (snd (findPrimaryContact m s1)) as [resolved|err] eqn:Hres;
    [|inversion Hrun].
  assert (Hresp : formatResponse (chainOf (id resolved) s1) = Ok r1)
    by (inversion Hrun; reflexivity).
  (* the second run *)
  set (m' := matchingSet e p s1).
  assert (Hm' : m' <> []) by (apply matchingSet_afterWrites_nonempty, Hm).
  assert (Hprim : filter isPrimary m'
                  = match filter isPrimary m with [] => [] | x :: _ => [x] end)
    by (apply (@primaries_afterWrites now d s Hwf)).
  assert (Hdec : shouldCreateNewContact m' e p = false)
    by (apply (@second_run_decision now d s Hm Hw)).
  destruct (@no_writes later m' d s1 Hdec) as [Hw' Ha'].
  { rewrite Hprim. destruct (filter isPrimary m); simpl; lia. }
  pose proof (@identify_matched later req s1) as Hid2. cbv zeta in Hid2.
  fold d e p m' in Hid2. rewrite (Hid2 Hm'), Hw', Ha'.
  assert (Hres' : snd (findPrimaryContact m' s1) = Ok resolved).
  { destruct (filter isPrimary m) as [|survivor newer] eqn:Ep.
    - apply (@resolved_again now d s resolved Ep Hw Hres).
    - assert (Hq : exists q, find isPrimary (chainOf (id resolved) s1) = Some q).
      { unfold formatResponse in Hresp.
        destruct (find isPrimary (chainOf (id resolved) s1)) as [q|];
          [exists q; reflexivity | discriminate]. }
      destruct Hq as [q Hq].
      rewrite (@resolved_is_survivor now d s survivor resolved q newer
                 (wf_ids Hwf) Ep Hres Hq).
      unfold findPrimaryContact. rewrite Hprim. reflexivity. }
  rewrite Hres', Hresp. reflexivity.
Qed.

(** C6 (as amended). On a table that satisfies the chain invariants, a
    request that supplies a non-empty email or phone number and is
    answered with a response is idempotent: run again at once it creates
    no row, changes no row and returns the same response. *)
Theorem identify_again (now : Z) (req : IdentifyRequest) (s s1 : Store)
        (r1 : IdentifyResponse) :
  wfStore s ->
  truthy (req_email (sanitizeInput req)) = true
  \/ truthy (req_phoneNumber (sanitizeInput req)) = true ->
  identify now req s = (s1, Ok r1) ->
  forall later, identify later req s1 = (s1, Ok r1).
Proof.
  intros Hwf Ht Hrun later.
  set (d := sanitizeInput req) in *.
  destruct (matchingSet (req_email d) (req_phoneNumber d) s) as [|c t] eqn:Em.
  - pose proof (@identify_again_new now later req s Hwf Ht Em) as H.
    rewrite (@identify_no_match now req s Em) in Hrun. fold d in Hrun.
    fold d in H. rewrite Hrun in H. exact H.
  - assert (Hm : matchingSet (req_email d) (req_phoneNumber d) s <> [])
      by (rewrite Em; discriminate).
    pose proof (@identify_matched now req s Hm) as Hid. cbv zeta in Hid.
    fold d in Hid.
    destruct (writesFail (matchingSet (req_email d) (req_phoneNumber d) s) d s)
      as [err|] eqn:Hw.
    { rewrite Hid in Hrun. discriminate. }
    assert (Hs1 : s1 = afterWrites now
                         (matchingSet (req_email d) (req_phoneNumber d) s) d s).
    { rewrite Hid in Hrun.
      destruct (snd (findPrimaryContact _ _)); inversion Hrun; reflexivity. }
    subst s1.
    apply (@identify_again_matched now later req s r1 Hwf Hm Hrun Hw).
Qed.

Lemma identify_again_witness :
  identify 4000 bridgeRequest afterBridge = (afterBridge, Ok bridgeResponse).
Proof.
  apply (@identify_again 3000 bridgeRequest hillValley afterBridge bridgeResponse).
  - exact hillValley_wf.
  - left. reflexivity.
  - vm_compute. reflexivity.
Defined.

(** C6 (as stated) fails: the request without fields, which the service
    accepts, creates a new primary each time it is run. *)
Lemma identify_again_counterexample :
  let request := mkRequest None None in
  let first := identify 1000 request emptyStore in
  let second := identify 2000 request (fst first) in
  List.length (rows (fst first)) = 1%nat
  /\ List.length (rows (fst second)) = 2%nat
  /\ fst second <> fst first
  /\ snd second <> snd first.
Proof.
  repeat split; try (vm_compute; reflexivity); vm_compute; discriminate.
Qed.

(** The first run may also fail after its writes, when two matched
    primaries share their [createdAt]; the second run then differs from
    the first. *)
Lemma identify_again_after_failure :
  let first := identify 2000 bridgeRequest tiedStore in
  wfStore tiedStore
  /\ snd first = Err NoPrimaryInChain
  /\ exists r, identify 3000 bridgeRequest (fst first) = (fst first, Ok r).
Proof.
  split; [|split].
  - constructor; [repeat constructor | repeat constructor |].
    intros c [<-|[<-|[]]] _; reflexivity.
  - vm_compute. reflexivity.
  - eexists. vm_compute. reflexivity.
Qed.

(** * Further properties of the service *)

(** ** What [sanitizeInput] yields *)

Lemma lowerChar_idem (c : ascii) : Str.lowerChar (Str.lowerChar c) = Str.lowerChar c.
Proof. destruct c as [[] [] [] [] [] [] [] []]; reflexivity. Qed.

Lemma toLowerCase_idem (s : string) :
  Str.toLowerCase (Str.toLowerCase s) = Str.toLowerCase s.
Proof.
  induction s as [|c t IH]; simpl; [reflexivity|]. rewrite lowerChar_idem, IH.
  reflexivity.
Qed.

Lemma trimStart_startsClean (s : string) : startsClean (Str.trimStart s) = true.
Proof.
  induction s as [|c t IH]; simpl; [reflexivity|].
  destruct (Str.isWhitespace c) eqn:E; [exact IH | simpl; rewrite E; reflexivity].
Qed.

Lemma trimStart_fixed (s : string) : startsClean s = true -> Str.trimStart s = s.
Proof.
  destruct s as [|c t]; simpl; [reflexivity|].
  intros H. apply negb_true_iff in H. rewrite H. reflexivity.
Qed.

Lemma trimEnd_startsClean (s : string) :
  startsClean s = true -> startsClean (Str.trimEnd s) = true.
Proof.
  destruct s as [|c t]; simpl; [reflexivity|]. intros H.
  destruct (Str.trimEnd t); simpl.
  - apply negb_true_iff in H. rewrite H. simpl. rewrite H. reflexivity.
  - exact H.
Qed.

Lemma trimEnd_idem (s : string) : Str.trimEnd (Str.trimEnd s) = Str.trimEnd s.
Proof.
  induction s as [|c t IH]; simpl; [reflexivity|].
  destruct (Str.trimEnd t) as [|c' t'] eqn:E.
  - destruct (Str.isWhitespace c) eqn:W; simpl; [reflexivity|]. rewrite W. reflexivity.
  - change (Str.trimEnd (String c (String c' t'))) with
      (match Str.trimEnd (String c' t') with
       | EmptyString => if Str.isWhitespace c then EmptyString else String c EmptyString
       | x => String c x
       end).
    rewrite IH. reflexivity.
Qed.

Lemma trim_idem (s : string) : Str.trim (Str.trim s) = Str.trim s.
Proof.
  unfold Str.trim.
  rewrite (trimStart_fixed (Str.trimEnd (Str.trimStart s))).
  - apply trimEnd_idem.
  - apply trimEnd_startsClean, trimStart_startsClean.
Qed.

Lemma stripNonDigits_allDigits (s : string) : allDigits (Str.stripNonDigits s) = true.
Proof.
  induction s as [|c t IH]; simpl; [reflexivity|].
  destruct (Str.isDigit c) eqn:E; [simpl; rewrite E, IH; reflexivity | exact IH].
Qed.

Lemma stripNonDigits_fixed (s : string) :
  allDigits s = true -> Str.stripNonDigits s = s.
Proof.
  induction s as [|c t IH]; simpl; [reflexivity|]. intros H.
  apply andb_true_iff in H. destruct H as [Hc Ht]. rewrite Hc, (IH Ht). reflexivity.
Qed.

(** X1. Whatever the raw request, the email [sanitizeInput] yields is left
    unchanged by [trim] and by [toLowerCase], and the phone number it
    yields consists of digits only. *)
Theorem sanitizeInput_normal_form (data : IdentifyRequest) :
  (forall e, req_email (sanitizeInput data) = Some e ->
             Str.trim e = e /\ Str.toLowerCase e = e)
  /\ (forall p, req_phoneNumber (sanitizeInput data) = Some p ->
                allDigits p = true /\ Str.stripNonDigits p = p).
Proof.
  unfold sanitizeInput. destruct data as [e0 p0]. simpl. split.
  - intros e H. destruct e0 as [x|]; [|discriminate]. inversion H. split.
    + rewrite <- trim_toLowerCase, trim_idem. reflexivity.
    + apply toLowerCase_idem.
  - intros p H. destruct (truthy p0); [|discriminate].
    destruct p0 as [x|]; [|discriminate]. inversion H.
    split; [apply stripNonDigits_allDigits|].
    apply stripNonDigits_fixed, stripNonDigits_allDigits.
Qed.

(** X2. Normalizing twice is normalizing once, and handing [identify] an
    already normalized request changes nothing, unless the phone number
    was normalized to the empty string (a second pass drops it). *)
Theorem sanitizeInput_again (r : IdentifyRequest) :
  req_phoneNumber (sanitizeInput r) <> Some "" ->
  sanitizeInput (sanitizeInput r) = sanitizeInput r
  /\ forall now s, identify now (sanitizeInput r) s = identify now r s.
Proof.
  intros Hp.
  assert (E : sanitizeInput (sanitizeInput r) = sanitizeInput r).
  { destruct r as [e0 p0]. unfold sanitizeInput in *. simpl in *. f_equal.
    - destruct e0 as [x|]; [|reflexivity].
      rewrite trim_toLowerCase, trim_idem, toLowerCase_idem. reflexivity.
    - destruct (truthy p0) eqn:Et; [|reflexivity].
      destruct p0 as [x|]; [|reflexivity].
      destruct (Str.stripNonDigits x) as [|c t] eqn:Ex; [congruence|].
      simpl truthy. cbv iota. rewrite <- Ex.
      rewrite (stripNonDigits_fixed _ (stripNonDigits_allDigits x)). reflexivity. }
  split; [exact E|]. intros now s. unfold identify. rewrite E. reflexivity.
Qed.

Lemma sanitizeInput_again_witness :
  sanitizeInput (sanitizeInput (mkRequest (Some " Doc@HillValley.edu") (Some "555-0100")))
  = sanitizeInput (mkRequest (Some " Doc@HillValley.edu") (Some "555-0100"))
  /\ forall now s,
       identify now
         (sanitizeInput (mkRequest (Some " Doc@HillValley.edu") (Some "555-0100"))) s
       = identify now (mkRequest (Some " Doc@HillValley.edu") (Some "555-0100")) s.
Proof.
  apply (sanitizeInput_again (mkRequest (Some " Doc@HillValley.edu") (Some "555-0100"))).
  vm_compute. discriminate.
Defined.

(** X3. A phone number that the validator's pattern admits reaches the
    table as it is: [sanitizeInput] keeps it, whatever the email. *)
Theorem validated_phone_kept (e : option string) (p : string) :
  matchesPhonePattern p = true ->
  req_phoneNumber (sanitizeInput (mkRequest e (Some p))) = Some p.
Proof.
  unfold matchesPhonePattern, sanitizeInput. simpl. intros H.
  apply andb_true_iff in H. destruct H as [H Hd].
  apply andb_true_iff in H. destruct H as [Hl _].
  destruct p as [|c t]; [simpl in Hl; discriminate|].
  simpl Str.nonEmpty. cbv iota. rewrite (stripNonDigits_fixed _ Hd). reflexivity.
Qed.

Lemma validated_phone_kept_witness :
  req_phoneNumber (sanitizeInput (mkRequest None (Some "9876543210")))
  = Some "9876543210".
Proof. apply validated_phone_kept. reflexivity. Defined.

(** ** What the matching query selects *)

Lemma columnIs_true (col : option string) (v : string) :
  columnIs col v = true <-> col = Some v.
Proof.
  unfold columnIs. destruct col as [x|]; split; intros H; try discriminate.
  - apply String.eqb_eq in H. subst. reflexivity.
  - inversion H. apply String.eqb_refl.
Qed.

Lemma matchesWhere_true (e p : option string) (c : Contact) :
  matchesWhere e p c = true
  <-> deletedAt c = None
      /\ ((truthy e = true /\ email c = e) \/ (truthy p = true /\ phoneNumber c = p)).
Proof.
  unfold matchesWhere. rewrite orb_true_iff. split.
  - intros [H|H].
    + destruct e as [x|]; [|discriminate].
      apply andb_true_iff in H. destruct H as [H Hd].
      apply andb_true_iff in H. destruct H as [Hx Hc].
      apply columnIs_true in Hc. apply notDeleted_true in Hd. auto.
    + destruct p as [x|]; [|discriminate].
      apply andb_true_iff in H. destruct H as [H Hd].
      apply andb_true_iff in H. destruct H as [Hx Hc].
      apply columnIs_true in Hc. apply notDeleted_true in Hd. auto.
  - intros [Hd [[Ht He]|[Ht Hp]]]; apply notDeleted_true in Hd; [left|right].
    + destruct e as [x|]; [|discriminate]. simpl in Ht.
      rewrite Ht, Hd, (proj2 (columnIs_true (email c) x) He). reflexivity.
    + destruct p as [x|]; [|discriminate]. simpl in Ht.
      rewrite Ht, Hd, (proj2 (columnIs_true (phoneNumber c) x) Hp). reflexivity.
Qed.

(** X4. [findMatchingContacts] never writes; it answers, in ascending
    [createdAt] order, exactly the rows that are not soft-deleted and carry
    the given non-empty email or the given non-empty phone number. *)
Theorem findMatchingContacts_selects (e p : option string) (s : Store) :
  exists found,
    findMatchingContacts e p s = (s, Ok found)
    /\ StronglySorted (keyLe createdAt) found
    /\ forall c,
         In c found
         <-> In c (rows s) /\ deletedAt c = None
             /\ ((truthy e = true /\ email c = e)
                 \/ (truthy p = true /\ phoneNumber c = p)).
Proof.
  exists (matchingSet e p s). split; [apply findMatchingContacts_eq|].
  split; [apply sortOn_sorted|].
  intros c. rewrite matchingSet_In, matchesWhere_true. tauto.
Qed.

(** ** The new-record decision and the matching set *)

Lemma existsb_incl (A : Type) (f : A -> bool) (l l' : list A) :
  (forall x, In x l -> In x l') -> existsb f l = true -> existsb f l' = true.
Proof.
  intros Hsub H. apply existsb_exists in H. destruct H as [x [Hx Hf]].
  apply existsb_exists. exists x. split; [apply Hsub, Hx | exact Hf].
Qed.

Lemma existsb_false_incl (A : Type) (f : A -> bool) (l l' : list A) :
  (forall x, In x l -> In x l') -> existsb f l' = false -> existsb f l = false.
Proof.
  intros Hsub H. destruct (existsb f l) eqn:E; [|reflexivity].
  rewrite (existsb_incl f l l' Hsub E) in H. discriminate.
Qed.

(** X5. The decision is antitone in the contacts it is given: if a new
    row is decided against a list it is decided against every part of
    it; and a new row is decided only when a field is supplied. *)
Theorem shouldCreateNewContact_antitone (known more : list Contact)
        (e p : option string) :
  (forall c, In c known -> In c more) ->
  shouldCreateNewContact more e p = true ->
  shouldCreateNewContact known e p = true
  /\ (truthy e = true \/ truthy p = true).
Proof.
  intros Hsub. unfold shouldCreateNewContact.
  destruct (existsb (fun contact => strictEq (email contact) e
                                    && strictEq (phoneNumber contact) p) more) eqn:X;
    [discriminate|].
  rewrite (existsb_false_incl _ known more Hsub X).
  destruct (truthy e) eqn:Te, (truthy p) eqn:Tp; simpl.
  - auto.
  - intros H. apply negb_true_iff in H.
    rewrite (existsb_false_incl _ known more Hsub H). auto.
  - intros H. apply negb_true_iff in H.
    rewrite (existsb_false_incl _ known more Hsub H). auto.
  - discriminate.
Qed.

Lemma shouldCreateNewContact_antitone_witness :
  shouldCreateNewContact [george] (Some "george@hillvalley.edu") (Some "717171") = true
  /\ (truthy (Some "george@hillvalley.edu") = true \/ truthy (Some "717171") = true).
Proof.
  apply (@shouldCreateNewContact_antitone [george] [george; biffLate]).
  - intros c [<-|[]]. left. reflexivity.
  - reflexivity.
Defined.

(** ** Primary resolution through the links *)

Lemma hd_error_sortOn_least (A : Type) (key : A -> Z) (l : list A) (x y : A) :
  hd_error (sortOn key l) = Some x -> In y l -> key x <= key y.
Proof.
  intros H Hy. apply (sortOn_In key l y) in Hy.
  pose proof (sortOn_sorted key l) as Hs.
  destruct (sortOn key l) as [|z t]; [discriminate|]. simpl in H. inversion H; subst z.
  destruct Hy as [<-|Hy]; [lia|].
  inversion Hs as [|? ? _ Hall]; subst. rewrite Forall_forall in Hall.
  apply (Hall y Hy).
Qed.

(** X6. Given secondaries only, [findPrimaryContact] reads the table and
    answers the earliest-created contact among the non-deleted primaries
    that some given contact is linked to. *)
Theorem findPrimaryContact_through_links (contacts : list Contact) (s s' : Store)
        (p : Contact) :
  filter isPrimary contacts = [] ->
  findPrimaryContact contacts s = (s', Ok p) ->
  s' = s
  /\ In p (rows s)
  /\ linkPrecedence p = PRIMARY
  /\ deletedAt p = None
  /\ (exists c, In c contacts /\ linkedId c = Some (id p))
  /\ forall q, In q (rows s) -> linkPrecedence q = PRIMARY -> deletedAt q = None ->
               (exists c, In c contacts /\ linkedId c = Some (id q)) ->
               createdAt p <= createdAt q.
Proof.
  intros Hnone Hrun.
  assert (Hs : s' = s).
  { rewrite <- (findPrimaryContact_store contacts s), Hrun. reflexivity. }
  assert (Hp : snd (findPrimaryContact contacts s) = Ok p) by (rewrite Hrun; reflexivity).
  destruct (findPrimaryContact_cases contacts s)
    as [[q [H1 [H2 _]]] | [[q [H1 [_ H3]]] | [e [H1 _]]]]; try congruence.
  rewrite Hp in H1. inversion H1; subst q.
  pose proof (hd_error_sortOn_In _ _ H3) as Hin. apply filter_In in Hin.
  destruct Hin as [Hin Hw]. apply primaryAmong_true in Hw.
  destruct Hw as [Hl [Hpp Hpd]]. apply linkedIdsOf_In in Hl.
  repeat split; auto.
  intros q Hq Hqp Hqd Hql.
  apply (hd_error_sortOn_least createdAt _ q H3).
  apply filter_In. split; [exact Hq|]. apply primaryAmong_true.
  repeat split; auto. apply linkedIdsOf_In, Hql.
Qed.

Lemma findPrimaryContact_through_links_witness :
  hillValley = hillValley
  /\ In biffLate (rows hillValley)
  /\ linkPrecedence biffLate = PRIMARY
  /\ deletedAt biffLate = None
  /\ (exists c, In c [griff] /\ linkedId c = Some (id biffLate))
  /\ forall q, In q (rows hillValley) -> linkPrecedence q = PRIMARY ->
               deletedAt q = None ->
               (exists c, In c [griff] /\ linkedId c = Some (id q)) ->
               createdAt biffLate <= createdAt q.
Proof.
  apply (@findPrimaryContact_through_links [griff] hillValley hillValley biffLate).
  - reflexivity.
  - vm_compute. reflexivity.
Defined.

(** X7. When one listed primary is strictly the earliest, the primary
    [findPrimaryContact] answers is the one [mergePrimaryContacts] keeps:
    the first element of the list sorted by [createdAt]. *)
Theorem findPrimaryContact_is_merge_survivor (contacts : list Contact) (s : Store)
        (p : Contact) :
  filter isPrimary contacts <> [] ->
  snd (findPrimaryContact contacts s) = Ok p ->
  (forall q, In q (filter isPrimary contacts) -> createdAt q = createdAt p -> q = p) ->
  hd_error (sortOn createdAt (filter isPrimary contacts)) = Some p.
Proof.
  intros Hne Hp Huniq.
  destruct (@findPrimaryContact_listed contacts s Hne) as [p' [E [Hin [Hprim Hleast]]]].
  rewrite E in Hp. inversion Hp; subst p'.
  assert (Hpin : In p (filter isPrimary contacts)).
  { apply filter_In. split; [exact Hin | apply isPrimary_true, Hprim]. }
  destruct (sortOn createdAt (filter isPrimary contacts)) as [|x t] eqn:Es.
  - apply sortOn_nil_iff in Es. congruence.
  - simpl. f_equal.
    assert (Hx : In x (filter isPrimary contacts)).
    { apply (sortOn_In createdAt). rewrite Es. left. reflexivity. }
    apply Huniq; [exact Hx|].
    assert (H1 : createdAt x <= createdAt p).
    { apply (hd_error_sortOn_least createdAt (filter isPrimary contacts) p);
        [rewrite Es; reflexivity | exact Hpin]. }
    apply filter_In in Hx. destruct Hx as [Hx Hxp].
    specialize (Hleast x Hx (proj1 (isPrimary_true x) Hxp)). lia.
Qed.

Lemma findPrimaryContact_is_merge_survivor_witness :
  hd_error (sortOn createdAt (filter isPrimary [biffLate; griff; george])) = Some george.
Proof.
  apply (@findPrimaryContact_is_merge_survivor [biffLate; griff; george] hillValley george).
  - discriminate.
  - reflexivity.
  - simpl. intros q [<-|[<-|[]]] H; [discriminate H | reflexivity].
Defined.

(** ** The content of a response *)

Lemma firstOccurrences_In (l : list string) (x : string) :
  In x (firstOccurrences l) <-> In x l.
Proof.
  induction l as [|y t IH]; simpl; [tauto|].
  rewrite filter_In, IH. split.
  - intros [H|[H _]]; auto.
  - intros [H|H]; [auto|].
    destruct (String.eqb x y) eqn:E.
    + apply String.eqb_eq in E. auto.
    + right. split; [exact H | reflexivity].
Qed.

Lemma firstOccurrences_NoDup (l : list string) : NoDup (firstOccurrences l).
Proof.
  induction l as [|y t IH]; simpl; constructor.
  - intros H. apply filter_In in H. destruct H as [_ H].
    rewrite String.eqb_refl in H. discriminate.
  - apply NoDup_filter, IH.
Qed.

Lemma nonEmptyValues_In (l : list (option string)) (x : string) :
  In x (nonEmptyValues l) <-> x <> "" /\ In (Some x) l.
Proof.
  induction l as [|y t IH]; simpl; [tauto|].
  destruct y as [v|].
  - destruct v as [|c v']; simpl.
    + rewrite IH. split; [tauto|]. intros [Hx [H|H]]; [congruence | auto].
    + rewrite IH. split.
      * intros [<-|[Hx H]]; [split; [discriminate | auto] | auto].
      * intros [Hx [H|H]]; [left; congruence | auto].
  - rewrite IH. split; [tauto|]. intros [Hx [H|H]]; [discriminate | auto].
Qed.

Lemma collected_In (A : Type) (g : A -> option string) (l : list A) (x : string) :
  In x (firstOccurrences (nonEmptyValues (map g l)))
  <-> x <> "" /\ exists c, In c l /\ g c = Some x.
Proof.
  rewrite firstOccurrences_In, nonEmptyValues_In, in_map_iff.
  split; intros [Hx [c H]]; (split; [exact Hx | exists c; tauto]).
Qed.

(** X8. A response carries the id of the first listed primary; its emails
    and phone numbers are without repetition and are exactly the non-empty
    values found on the given contacts; its secondary ids are exactly the
    ids of the listed secondaries, in ascending order. *)
Theorem formatResponse_content (contacts : list Contact) (r : IdentifyResponse) :
  formatResponse contacts = Ok r ->
  (exists p, find isPrimary contacts = Some p /\ primaryContactId r = id p)
  /\ NoDup (emails r)
  /\ (forall x, In x (emails r)
                <-> x <> "" /\ exists c, In c contacts /\ email c = Some x)
  /\ NoDup (phoneNumbers r)
  /\ (forall x, In x (phoneNumbers r)
                <-> x <> "" /\ exists c, In c contacts /\ phoneNumber c = Some x)
  /\ StronglySorted Z.le (secondaryContactIds r)
  /\ Permutation (secondaryContactIds r) (map id (filter isSecondary contacts)).
Proof.
  intros H. destruct (find isPrimary contacts) as [p|] eqn:Hf.
  - rewrite (formatResponse_eq _ Hf) in H. inversion H; subst r; simpl.
    split; [exists p; auto|].
    split; [apply firstOccurrences_NoDup|].
    split; [intros x; apply collected_In|].
    split; [apply firstOccurrences_NoDup|].
    split; [intros x; apply collected_In|].
    split; [apply sortOn_Z_sorted | apply sortOn_perm].
  - rewrite (formatResponse_error _ Hf) in H. discriminate.
Qed.

Lemma formatResponse_content_witness :
  (exists p, find isPrimary [lorraine; marty] = Some p
             /\ primaryContactId (mkResponse 1
                   ["lorraine@hillvalley.edu"; "mcfly@hillvalley.edu"] ["123456"] [2])
                = id p)
  /\ NoDup ["lorraine@hillvalley.edu"; "mcfly@hillvalley.edu"]
  /\ (forall x, In x ["lorraine@hillvalley.edu"; "mcfly@hillvalley.edu"]
                <-> x <> "" /\ exists c, In c [lorraine; marty] /\ email c = Some x)
  /\ NoDup ["123456"]
  /\ (forall x, In x ["123456"]
                <-> x <> "" /\ exists c, In c [lorraine; marty] /\ phoneNumber c = Some x)
  /\ StronglySorted Z.le [2]
  /\ Permutation [2] (map id (filter isSecondary [lorraine; marty])).
Proof.
  apply (@formatResponse_content [lorraine; marty]
           (mkResponse 1 ["lorraine@hillvalley.edu"; "mcfly@hillvalley.edu"]
                       ["123456"] [2])).
  reflexivity.
Defined.

(** ** What a merge leaves alone *)

Lemma absorbRow_kept (o : Z) (a c : Contact) : rowKept c (absorbRow o a c).
Proof.
  unfold rowKept, contactData, absorbRow.
  destruct (id c =? id a); simpl;
    match goal with |- context [if ?b then _ else _] => destruct b end;
    simpl; auto.
Qed.

Lemma rowKept_refl (c : Contact) : rowKept c c.
Proof. split; auto. Qed.

Lemma rowKept_trans (a b c : Contact) : rowKept a b -> rowKept b c -> rowKept a c.
Proof. intros [H1 H2] [H3 H4]. split; [congruence | auto]. Qed.

Lemma Forall2_rowKept_refl (l : list Contact) : Forall2 rowKept l l.
Proof. induction l; constructor; [apply rowKept_refl | assumption]. Qed.

Lemma Forall2_rowKept_map (g : Contact -> Contact) (l : list Contact) :
  (forall c, rowKept c (g c)) -> Forall2 rowKept l (map g l).
Proof. intros H. induction l; simpl; constructor; auto. Qed.

Lemma Forall2_rowKept_trans (l1 l2 l3 : list Contact) :
  Forall2 rowKept l1 l2 -> Forall2 rowKept l2 l3 -> Forall2 rowKept l1 l3.
Proof.
  intros H. revert l3. induction H as [|a b t1 t2 Hab _ IH]; intros l3 H3.
  - inversion H3. constructor.
  - inversion H3 as [|? c ? t3 Hbc Ht]; subst. constructor.
    + apply (rowKept_trans Hab Hbc).
    + apply IH, Ht.
Qed.

Lemma Forall2_rowKept_data (l l' : list Contact) :
  Forall2 rowKept l l' -> map contactData l' = map contactData l.
Proof.
  induction 1 as [|a b t1 t2 [H _] _ IH]; simpl; [reflexivity|]. rewrite H, IH.
  reflexivity.
Qed.

(** One turn of the loop either rewrites the table row by row or finds no
    row to update and leaves the table as it is. *)
Lemma absorb_cases (o : Z) (a : Contact) (s : Store) :
  (In (id a) (map id (rows s))
   /\ absorb o a s = (mkStore (map (absorbRow o a) (rows s)) (nextId s), Ok tt))
  \/ (~ In (id a) (map id (rows s)) /\ absorb o a s = (s, Err RecordNotFound)).
Proof.
  destruct (existsb (fun c => id c =? id a) (rows s)) eqn:E.
  - left. assert (Hin : In (id a) (map id (rows s))).
    { apply existsb_exists in E. destruct E as [c [Hc Hid]].
      apply Z.eqb_eq in Hid. rewrite <- Hid. apply in_map, Hc. }
    split; [exact Hin | apply absorb_eq, Hin].
  - right. split.
    + intros Hin. apply in_map_iff in Hin. destruct Hin as [c [Hid Hc]].
      assert (X : existsb (fun c => id c =? id a) (rows s) = true).
      { apply existsb_exists. exists c. split; [exact Hc | apply Z.eqb_eq, Hid]. }
      congruence.
    + unfold absorb, bind, Prisma.update. rewrite E. reflexivity.
Qed.

Lemma map_id_absorbRow (o : Z) (a : Contact) (l : list Contact) :
  map id (map (absorbRow o a) l) = map id l.
Proof.
  rewrite map_map. apply map_ext. intros c. apply absorbRow_id.
Qed.

Lemma forEachM_absorb_frame (o : Z) (newer : list Contact) : forall s : Store,
  nextId (fst (forEachM (absorb o) newer s)) = nextId s
  /\ Forall2 rowKept (rows s) (rows (fst (forEachM (absorb o) newer s))).
Proof.
  induction newer as [|a t IH]; intros s; simpl.
  - split; [reflexivity | apply Forall2_rowKept_refl].
  - unfold bind. destruct (absorb_cases o a s) as [[_ E]|[_ E]]; rewrite E.
    + destruct (IH (mkStore (map (absorbRow o a) (rows s)) (nextId s))) as [H1 H2].
      simpl in H1, H2. split; [exact H1|].
      apply (@Forall2_rowKept_trans _ (map (absorbRow o a) (rows s))); [|exact H2].
      apply Forall2_rowKept_map. intros c. apply absorbRow_kept.
    + simpl. split; [reflexivity | apply Forall2_rowKept_refl].
Qed.

(** X9. Whether it succeeds or not, [mergePrimaryContacts] adds and removes
    no row and takes no id from the sequence; it leaves the id, email,
    phone number, [createdAt] and [deletedAt] of every row as they are, and
    never turns a secondary into a primary. *)
Theorem mergePrimaryContacts_frame (primaryContacts : list Contact) (s : Store) :
  let s' := fst (mergePrimaryContacts primaryContacts s) in
  nextId s' = nextId s
  /\ Forall2 rowKept (rows s) (rows s')
  /\ map contactData (rows s') = map contactData (rows s).
Proof.
  intros s'. assert (H : nextId s' = nextId s /\ Forall2 rowKept (rows s) (rows s')).
  { unfold s', mergePrimaryContacts.
    destruct (sortOn createdAt primaryContacts) as [|o newer].
    - simpl. split; [reflexivity | apply Forall2_rowKept_refl].
    - apply forEachM_absorb_frame. }
  destruct H as [H1 H2]. repeat split; auto. apply Forall2_rowKept_data, H2.
Qed.

Lemma forEachM_absorb_result (o : Z) (newer : list Contact) : forall s : Store,
  (snd (forEachM (absorb o) newer s) = Ok tt
   <-> forall a, In a newer -> In (id a) (map id (rows s)))
  /\ (forall e, snd (forEachM (absorb o) newer s) = Err e -> e = RecordNotFound).
Proof.
  induction newer as [|a t IH]; intros s; simpl.
  - split; [split; [intros _ x [] | reflexivity] | discriminate].
  - unfold bind. destruct (absorb_cases o a s) as [[Hin E]|[Hin E]]; rewrite E.
    + destruct (IH (mkStore (map (absorbRow o a) (rows s)) (nextId s))) as [H1 H2].
      simpl rows in H1. rewrite map_id_absorbRow in H1. split; [|exact H2].
      rewrite H1. split.
      * intros H x [<-|Hx]; auto.
      * intros H x Hx. apply H. right. exact Hx.
    + simpl. split.
      * split; [discriminate|]. intros H. exfalso. apply Hin, H. left. reflexivity.
      * intros e He. inversion He. reflexivity.
Qed.

(** X10. [mergePrimaryContacts] succeeds exactly when every contact after
    the earliest has a row with its id; otherwise it stops with the
    record-not-found error of the first update that finds no row.  The row
    of the earliest contact itself is never looked up. *)
Theorem mergePrimaryContacts_result (primaryContacts : list Contact) (s : Store) :
  (snd (mergePrimaryContacts primaryContacts s) = Ok tt
   <-> forall a, In a (tl (sortOn createdAt primaryContacts)) ->
                 In (id a) (map id (rows s)))
  /\ (forall e, snd (mergePrimaryContacts primaryContacts s) = Err e ->
                e = RecordNotFound).
Proof.
  unfold mergePrimaryContacts.
  destruct (sortOn createdAt primaryContacts) as [|o newer]; simpl.
  - split; [split; [intros _ x [] | reflexivity] | discriminate].
  - apply forEachM_absorb_result.
Qed.

Lemma mergedRow_idem (o : Z) (newer : list Contact) (c : Contact) :
  ~ In o (map id newer) ->
  mergedRow o newer (mergedRow o newer c) = mergedRow o newer c.
Proof.
  intros Ho.
  assert (Hmo : memZ o (map id newer) = false).
  { destruct (memZ o (map id newer)) eqn:E; [|reflexivity].
    apply memZ_In in E. contradiction. }
  destruct (memZ (id c) (map id newer)) eqn:E.
  - assert (E' : mergedRow o newer c = Prisma.setLink SECONDARY (Some o) c)
      by (unfold mergedRow; rewrite E; reflexivity).
    rewrite E'. unfold mergedRow. simpl. rewrite E. reflexivity.
  - destruct (linkedId c) as [l|] eqn:El.
    + destruct (memZ l (map id newer) && notDeleted c) eqn:B.
      * assert (E' : mergedRow o newer c = Prisma.setLinkedId (Some o) c)
          by (unfold mergedRow; rewrite E, El, B; reflexivity).
        rewrite E'. unfold mergedRow. simpl. rewrite E, Hmo. reflexivity.
      * assert (E' : mergedRow o newer c = c)
          by (unfold mergedRow; rewrite E, El, B; reflexivity).
        rewrite !E'. reflexivity.
    + assert (E' : mergedRow o newer c = c)
        by (unfold mergedRow; rewrite E, El; reflexivity).
      rewrite !E'. reflexivity.
Qed.

(** X11. Merging the same distinct contacts a second time changes
    nothing: after a successful merge, the same call succeeds again and
    leaves the table as the first call left it. *)
Theorem mergePrimaryContacts_again (primaryContacts : list Contact) (s : Store) :
  NoDup (map id primaryContacts) ->
  snd (mergePrimaryContacts primaryContacts s) = Ok tt ->
  let s1 := fst (mergePrimaryContacts primaryContacts s) in
  mergePrimaryContacts primaryContacts s1 = (s1, Ok tt).
Proof.
  intros Hnd Hok s1.
  unfold s1, mergePrimaryContacts in *.
  assert (Hnd' : NoDup (map id (sortOn createdAt primaryContacts))).
  { eapply Permutation_NoDup; [|exact Hnd].
    apply Permutation_map, Permutation_sym, sortOn_perm. }
  destruct (sortOn createdAt primaryContacts) as [|o newer]; [reflexivity|].
  pose proof (proj1 (proj1 (forEachM_absorb_result (id o) newer s)) Hok) as Hrows.
  simpl in Hnd'. inversion Hnd' as [|? ? Ho _]; subst.
  rewrite (forEachM_absorb_eq (id o) newer s Hrows). simpl fst.
  rewrite forEachM_absorb_eq.
  - simpl. f_equal. f_equal. rewrite map_map. apply map_ext. intros c.
    rewrite !(@mergeRow_closed (id o) newer Ho). apply mergedRow_idem, Ho.
  - intros a Ha. simpl. rewrite map_map.
    rewrite (map_ext (fun c => id (mergeRow (id o) newer c)) id)
      by (intros c; apply mergeRow_id).
    apply Hrows, Ha.
Qed.

Lemma mergePrimaryContacts_again_witness :
  let s1 := fst (mergePrimaryContacts [george; biffLate] hillValley) in
  mergePrimaryContacts [george; biffLate] s1 = (s1, Ok tt).
Proof.
  apply (@mergePrimaryContacts_again [george; biffLate] hillValley).
  - repeat constructor; simpl; intuition congruence.
  - reflexivity.
Defined.

(** ** What a request leaves alone *)

Lemma mergeRow_kept (o : Z) (newer : list Contact) : forall c : Contact,
  rowKept c (mergeRow o newer c).
Proof.
  unfold mergeRow. induction newer as [|a t IH]; intros c; simpl.
  - apply rowKept_refl.
  - apply (@rowKept_trans c (absorbRow o a c)); [apply absorbRow_kept | apply IH].
Qed.

Lemma mergeFn_kept (m : list Contact) (c : Contact) : rowKept c (mergeFn m c).
Proof.
  unfold mergeFn. destruct (sortOn createdAt (filter isPrimary m)).
  - apply rowKept_refl.
  - apply mergeRow_kept.
Qed.

Lemma createdRows_fields (now : Z) (m : list Contact) (d : IdentifyRequest)
      (s : Store) (c : Contact) :
  In c (createdRows now m d s) ->
  id c = nextId s /\ createdAt c = now /\ deletedAt c = None
  /\ email c = req_email d /\ phoneNumber c = req_phoneNumber d.
Proof.
  unfold createdRows.
  destruct (shouldCreateNewContact _ _ _); [|intros []].
  destruct (snd (findPrimaryContact m s)); [|intros []].
  intros [<-|[]]. repeat split.
Qed.

Lemma createdRows_length (now : Z) (m : list Contact) (d : IdentifyRequest) (s : Store) :
  (List.length (createdRows now m d s) <= 1)%nat.
Proof.
  unfold createdRows.
  destruct (shouldCreateNewContact _ _ _); [|simpl; lia].
  destruct (snd (findPrimaryContact m s)); simpl; lia.
Qed.

(** X12. A request adds at most one row and never removes one.  The added
    row takes the next id of the sequence, the time of the request and the
    normalized fields; every row that was there keeps its place, its id,
    email, phone number, [createdAt] and [deletedAt], and a secondary
    stays a secondary. *)
Theorem identify_frame (now : Z) (req : IdentifyRequest) (s : Store) :
  let d := sanitizeInput req in
  let s' := fst (identify now req s) in
  exists added,
    (List.length added <= 1)%nat
    /\ nextId s' = nextId s + Z.of_nat (List.length added)
    /\ Forall2 rowKept (rows s ++ added) (rows s')
    /\ forall c, In c added ->
         id c = nextId s /\ createdAt c = now /\ deletedAt c = None
         /\ email c = req_email d /\ phoneNumber c = req_phoneNumber d.
Proof.
  intros d s'. unfold s'. rewrite identify_store. fold d.
  destruct (matchingSet (req_email d) (req_phoneNumber d) s) as [|c0 t0] eqn:Em.
  - exists [newPrimary now d s]. simpl. repeat split.
    + lia.
    + apply Forall2_rowKept_refl.
    + destruct H as [<-|[]]. reflexivity.
    + destruct H as [<-|[]]. reflexivity.
    + destruct H as [<-|[]]. reflexivity.
    + destruct H as [<-|[]]. reflexivity.
    + destruct H as [<-|[]]. reflexivity.
  - rewrite <- Em. set (m := matchingSet (req_email d) (req_phoneNumber d) s).
    destruct (writesFail m d s).
    + exists []. simpl. rewrite app_nil_r, Z.add_0_r. repeat split.
      * lia.
      * apply Forall2_rowKept_refl.
      * contradiction.
      * contradiction.
      * contradiction.
      * contradiction.
      * contradiction.
    + exists (createdRows now m d s). simpl.
      split; [apply createdRows_length|]. split; [reflexivity|].
      split; [apply Forall2_rowKept_map, mergeFn_kept|].
      intros c Hc. apply (@createdRows_fields now m d s c Hc).
Qed.

Lemma mergeFn_deleted (e p : option string) (s : Store) (c : Contact) :
  idsAscending (rows s) ->
  In c (rows s) -> deletedAt c <> None ->
  mergeFn (matchingSet e p s) c = c.
Proof.
  intros Hids Hc Hd. unfold mergeFn.
  destruct (sortOn createdAt (filter isPrimary (matchingSet e p s)))
    as [|o newer] eqn:E; [reflexivity|].
  destruct (@matchingSet_survivor e p s o newer Hids E) as [_ [_ [_ Hn]]].
  rewrite (@mergeRow_closed (id o) newer Hn). unfold mergedRow.
  assert (Hnd : notDeleted c = false).
  { unfold notDeleted. destruct (deletedAt c); [reflexivity | congruence]. }
  assert (Hmem : memZ (id c) (map id newer) = false).
  { destruct (memZ (id c) (map id newer)) eqn:X; [|reflexivity]. exfalso.
    apply memZ_In, in_map_iff in X. destruct X as [a [Ha Hin]].
    assert (Hm : In a (matchingSet e p s)).
    { assert (H : In a (sortOn createdAt (filter isPrimary (matchingSet e p s))))
        by (rewrite E; right; exact Hin).
      apply (proj1 (sortOn_In createdAt _ _)) in H. apply filter_In in H. tauto. }
    destruct (matchingSet_rows _ _ _ _ Hm) as [Har Had].
    rewrite (@idsAscending_inj (rows s) a c Hids Har Hc Ha) in Had. contradiction. }
  rewrite Hmem, Hnd. destruct (linkedId c); [rewrite andb_false_r|]; reflexivity.
Qed.

(** X13. A request never touches a soft-deleted row: every row with a
    [deletedAt] is in the table afterwards exactly as it was. *)
Theorem identify_keeps_deleted (now : Z) (req : IdentifyRequest) (s : Store)
        (c : Contact) :
  idsAscending (rows s) ->
  In c (rows s) -> deletedAt c <> None ->
  In c (rows (fst (identify now req s))).
Proof.
  intros Hids Hc Hd. rewrite identify_store.
  set (d := sanitizeInput req).
  destruct (matchingSet (req_email d) (req_phoneNumber d) s) as [|c0 t0] eqn:Em.
  - simpl. apply in_or_app. left. exact Hc.
  - rewrite <- Em. destruct (writesFail _ d s); [exact Hc|]. simpl.
    rewrite <- (@mergeFn_deleted (req_email d) (req_phoneNumber d) s c Hids Hc Hd).
    apply in_map, in_or_app. left. exact Hc.
Qed.

Lemma identify_keeps_deleted_witness :
  In needles (rows (fst (identify 3000 bridgeRequest hillValley))).
Proof.
  apply (@identify_keeps_deleted 3000 bridgeRequest hillValley needles).
  - repeat constructor.
  - right. right. right. left. reflexivity.
  - discriminate.
Defined.

Lemma shouldCreateNewContact_no_exact (l : list Contact) (e p : option string)
      (c : Contact) :
  shouldCreateNewContact l e p = true -> In c l ->
  strictEq (email c) e && strictEq (phoneNumber c) p = false.
Proof.
  unfold shouldCreateNewContact. intros H Hc.
  destruct (existsb (fun contact => strictEq (email contact) e
                                    && strictEq (phoneNumber contact) p) l) eqn:X;
    [discriminate|].
  destruct (strictEq (email c) e && strictEq (phoneNumber c) p) eqn:B; [|reflexivity].
  assert (Y : existsb (fun contact => strictEq (email contact) e
                                      && strictEq (phoneNumber contact) p) l = true).
  { apply existsb_exists. exists c. auto. }
  congruence.
Qed.

(** X14. A request that supplies a field never duplicates a combination:
    when it adds a row, no row that is not soft-deleted already carried
    exactly the normalized email and phone number of the request. *)
Theorem identify_adds_new_combination (now : Z) (req : IdentifyRequest) (s : Store) :
  let d := sanitizeInput req in
  truthy (req_email d) = true \/ truthy (req_phoneNumber d) = true ->
  List.length (rows (fst (identify now req s))) = S (List.length (rows s)) ->
  forall c, In c (rows s) -> deletedAt c = None ->
            ~ (email c = req_email d /\ phoneNumber c = req_phoneNumber d).
Proof.
  intros d Ht Hlen c Hc Hd [He Hp].
  set (e := req_email d) in *. set (p := req_phoneNumber d) in *.
  assert (Hw : matchesWhere e p c = true).
  { apply matchesWhere_true. split; [exact Hd|]. destruct Ht; auto. }
  assert (Hm : In c (matchingSet e p s)) by (apply matchingSet_In; auto).
  rewrite identify_store in Hlen. fold d e p in Hlen.
  destruct (matchingSet e p s) as [|c0 t0] eqn:Em; [contradiction|].
  rewrite <- Em in *. set (m := matchingSet e p s) in *.
  destruct (writesFail m d s) eqn:Hf; [lia|].
  simpl in Hlen. rewrite length_map, length_app in Hlen.
  destruct (@writesFail_None now m d s Hf) as [[_ H2]|[H1 _]].
  - rewrite H2 in Hlen. simpl in Hlen. lia.
  - fold e p in H1.
    assert (Hne : matchingSet e p s <> []) by (fold m; rewrite Em; discriminate).
    destruct (@shouldCreateNewContact_both e p s Hne H1) as [Te Tp].
    pose proof (@shouldCreateNewContact_no_exact m e p c H1 Hm) as Hx.
    rewrite He, Hp, !strictEq_refl_truthy in Hx by assumption. discriminate.
Qed.

Lemma identify_adds_new_combination_witness :
  ~ (email biffLate = req_email (sanitizeInput bridgeRequest)
     /\ phoneNumber biffLate = req_phoneNumber (sanitizeInput bridgeRequest)).
Proof.
  apply (@identify_adds_new_combination 3000 bridgeRequest hillValley).
  - left. reflexivity.
  - reflexivity.
  - right. left. reflexivity.
  - reflexivity.
Defined.

(** ** A response and the table it was read from *)

Lemma identify_keeps_wf (now : Z) (req : IdentifyRequest) (s : Store) :
  wfStore s -> wfStore (fst (identify now req s)).
Proof.
  intros Hwf. rewrite identify_store.
  destruct (matchingSet _ _ s) as [|c t] eqn:Em.
  - apply wfStore_insert; [exact Hwf | reflexivity | reflexivity].
  - rewrite <- Em. destruct (writesFail _ _ s); [exact Hwf|].
    apply wfStore_writes, Hwf.
Qed.

(** On a well-formed table resolution always finds a primary. *)
Lemma findPrimaryContact_total (contacts : list Contact) (s : Store) :
  wfStore s ->
  contacts <> [] ->
  (forall c, In c contacts -> In c (rows s) /\ deletedAt c = None) ->
  exists p, snd (findPrimaryContact contacts s) = Ok p.
Proof.
  intros Hwf Hne Hc.
  destruct (snd (findPrimaryContact contacts s)) as [p|e] eqn:E; [exists p; reflexivity|].
  exfalso.
  destruct (proj1 (findPrimaryContact_fails_iff contacts s)) as [H1 H2];
    [exists e; exact E|].
  destruct contacts as [|c t]; [congruence|].
  destruct (Hc c (or_introl eq_refl)) as [Hr Hd].
  pose proof (proj1 (no_primary_listed (c :: t)) H1 c (or_introl eq_refl)) as Hsec.
  destruct (@linkOk_secondary (rows s) c (wf_links Hwf c Hr Hd) Hsec)
    as [q [Hq [Hl [Hqp Hqd]]]].
  apply (proj1 (no_primary_among _ _) H2). exists q. repeat split; auto.
  apply linkedIdsOf_In. exists c. split; [left; reflexivity | exact Hl].
Qed.

(** With a primary listed, resolution does not depend on the table. *)
Lemma findPrimaryContact_listed_any (contacts : list Contact) (s s' : Store) :
  filter isPrimary contacts <> [] ->
  snd (findPrimaryContact contacts s') = snd (findPrimaryContact contacts s).
Proof.
  intros H. unfold findPrimaryContact.
  destruct (filter isPrimary contacts); [congruence | reflexivity].
Qed.

(** The course of a request on a well-formed table: the response is
    assembled from the chain of a resolved contact. *)
Lemma identify_wf_course (now : Z) (req : IdentifyRequest) (s : Store) :
  wfStore s ->
  exists resolved,
    identify now req s
    = (fst (identify now req s),
       formatResponse (chainOf (id resolved) (fst (identify now req s)))).
Proof.
  intros Hwf. set (d := sanitizeInput req).
  destruct (matchingSet (req_email d) (req_phoneNumber d) s) as [|c0 t0] eqn:Em.
  - exists (newPrimary now d s).
    rewrite (@identify_no_match now req s Em). fold d.
    rewrite handleNewContact_eq. simpl fst.
    change (id (newPrimary now d s)) with (nextId s).
    rewrite (@chainOf_new now d s Hwf). reflexivity.
  - assert (Hm : matchingSet (req_email d) (req_phoneNumber d) s <> [])
      by (rewrite Em; discriminate).
    set (m := matchingSet (req_email d) (req_phoneNumber d) s) in *.
    assert (Hrows : forall c, In c m -> In c (rows s) /\ deletedAt c = None)
      by (intros c Hc; apply (matchingSet_rows _ _ _ _ Hc)).
    destruct (@findPrimaryContact_total m s Hwf Hm Hrows) as [p0 Hp0].
    assert (Hw : writesFail m d s = None).
    { unfold writesFail. rewrite Hp0. destruct (shouldCreateNewContact _ _ _); reflexivity. }
    pose proof (@identify_matched now req s Hm) as Hid. cbv zeta in Hid.
    fold d m in Hid. rewrite Hw in Hid.
    destruct (snd (findPrimaryContact m (afterWrites now m d s))) as [p|e] eqn:Hp.
    + exists p. rewrite Hid. reflexivity.
    + exfalso.
      destruct (proj1 (findPrimaryContact_afterWrites now m d s)) as [e' He'];
        [exists e; exact Hp | congruence].
Qed.

(** The chain of an id, read from a well-formed table. *)
Lemma chain_of_wf (s : Store) (i : Z) (q : Contact) :
  wfStore s ->
  find isPrimary (chainOf i s) = Some q ->
  In q (rows s) /\ linkPrecedence q = PRIMARY /\ deletedAt q = None /\ id q = i
  /\ forall c, In c (filter isSecondary (chainOf i s))
               <-> In c (rows s) /\ deletedAt c = None /\ linkedId c = Some i.
Proof.
  intros Hwf Hf. apply find_some in Hf. destruct Hf as [Hq Hqp].
  assert (Hchain : forall c, In c (chainOf i s)
                             <-> In c (rows s) /\ chainWhere i c = true).
  { intros c. unfold chainOf. rewrite sortOn_In. apply filter_In. }
  apply Hchain in Hq. destruct Hq as [Hqr Hqw].
  unfold chainWhere in Hqw. apply andb_true_iff in Hqw. destruct Hqw as [Hqw Hqd].
  apply notDeleted_true in Hqd. apply isPrimary_true in Hqp.
  assert (Hqi : id q = i).
  { apply orb_true_iff in Hqw. destruct Hqw as [H|H]; [apply Z.eqb_eq, H|].
    apply optZ_eqb_eq in H.
    rewrite (@linkOk_primary (rows s) q (wf_links Hwf q Hqr Hqd) Hqp) in H.
    discriminate. }
  split; [exact Hqr|]. split; [exact Hqp|]. split; [exact Hqd|]. split; [exact Hqi|].
  intros c. split.
  - intros Hc. apply filter_In in Hc. destruct Hc as [Hc Hs].
    apply Hchain in Hc. destruct Hc as [Hcr H].
    unfold chainWhere in H. apply andb_true_iff in H. destruct H as [H Hcd].
    apply notDeleted_true in Hcd. repeat split; auto.
    apply orb_true_iff in H. destruct H as [H|H].
    + apply Z.eqb_eq in H. rewrite <- Hqi in H.
      rewrite (@idsAscending_inj (rows s) c q (wf_ids Hwf) Hcr Hqr H) in Hs.
      rewrite isSecondary_negb, (proj2 (isPrimary_true q) Hqp) in Hs. discriminate.
    + apply optZ_eqb_eq, H.
  - intros [Hcr [Hcd Hcl]]. apply filter_In. split.
    + apply Hchain. split; [exact Hcr|]. unfold chainWhere.
      rewrite (proj2 (optZ_eqb_eq _ _) Hcl), (proj2 (notDeleted_true c) Hcd).
      rewrite orb_true_r. reflexivity.
    + rewrite isSecondary_negb.
      rewrite (proj2 (isPrimary_false c)
                 (@linkOk_linked (rows s) c i (wf_links Hwf c Hcr Hcd) Hcl)).
      reflexivity.
Qed.

Lemma chainOf_ids_NoDup (s : Store) (i : Z) :
  idsAscending (rows s) -> NoDup (map id (filter isSecondary (chainOf i s))).
Proof.
  intros H. apply ids_NoDup_filter. unfold chainOf.
  eapply Permutation_NoDup.
  - apply Permutation_map, Permutation_sym, sortOn_perm.
  - apply ids_NoDup_filter, idsAscending_NoDup, H.
Qed.

(** X15. On a table that satisfies the chain invariants, every response
    describes the table the request leaves: its primary id is the id of a
    primary row that is not soft-deleted, and its secondary ids are,
    without repetition, exactly the ids of the rows that are not
    soft-deleted and are linked to that primary. *)
Theorem identify_response_describes_table (now : Z) (req : IdentifyRequest)
        (s s1 : Store) (r : IdentifyResponse) :
  wfStore s ->
  identify now req s = (s1, Ok r) ->
  exists p,
    In p (rows s1)
    /\ linkPrecedence p = PRIMARY
    /\ deletedAt p = None
    /\ primaryContactId r = id p
    /\ NoDup (secondaryContactIds r)
    /\ ~ In (id p) (secondaryContactIds r)
    /\ forall i, In i (secondaryContactIds r)
                 <-> exists c, In c (rows s1) /\ id c = i /\ deletedAt c = None
                               /\ linkedId c = Some (id p).
Proof.
  intros Hwf Hrun.
  pose proof (@identify_keeps_wf now req s Hwf) as Hwf1.
  destruct (@identify_wf_course now req s Hwf) as [resolved Hc].
  rewrite Hrun in Hc. simpl fst in Hc. rewrite Hrun in Hwf1. simpl fst in Hwf1.
  inversion Hc as [Hresp]. clear Hc.
  destruct (find isPrimary (chainOf (id resolved) s1)) as [q|] eqn:Hf.
  2:{ rewrite (formatResponse_error _ Hf) in Hresp. discriminate. }
  rewrite (formatResponse_eq _ Hf) in Hresp. inversion Hresp; subst r. simpl.
  destruct (@chain_of_wf s1 (id resolved) q Hwf1 Hf) as [Hq [Hqp [Hqd [Hqi Hsec]]]].
  set (secs := filter isSecondary (chainOf (id resolved) s1)) in *.
  assert (Hperm : Permutation (sortOn (fun z : Z => z) (map id secs)) (map id secs))
    by apply sortOn_perm.
  exists q. repeat split; auto.
  - eapply Permutation_NoDup; [apply Permutation_sym, Hperm|].
    apply chainOf_ids_NoDup, (wf_ids Hwf1).
  - intros Hin. apply (Permutation_in _ Hperm) in Hin.
    apply in_map_iff in Hin. destruct Hin as [c [Hci Hc]].
    pose proof (proj1 (Hsec c) Hc) as [Hcr [Hcd Hcl]].
    assert (Hcs : isSecondary c = true) by (apply filter_In in Hc; tauto).
    rewrite (@idsAscending_inj (rows s1) c q (wf_ids Hwf1) Hcr Hq Hci) in Hcs.
    rewrite isSecondary_negb, (proj2 (isPrimary_true q) Hqp) in Hcs. discriminate.
  - intros Hin. apply (Permutation_in _ Hperm) in Hin.
    apply in_map_iff in Hin. destruct Hin as [c [Hci Hc]].
    exists c. rewrite Hqi. pose proof (proj1 (Hsec c) Hc). tauto.
  - intros [c [Hcr [Hci [Hcd Hcl]]]].
    apply (Permutation_in _ (Permutation_sym Hperm)).
    rewrite <- Hci. apply in_map. apply Hsec. rewrite <- Hqi. auto.
Qed.

Lemma identify_response_describes_table_witness :
  exists p,
    In p (rows afterBridge)
    /\ linkPrecedence p = PRIMARY
    /\ deletedAt p = None
    /\ primaryContactId bridgeResponse = id p
    /\ NoDup (secondaryContactIds bridgeResponse)
    /\ ~ In (id p) (secondaryContactIds bridgeResponse)
    /\ forall i, In i (secondaryContactIds bridgeResponse)
                 <-> exists c, In c (rows afterBridge) /\ id c = i /\ deletedAt c = None
                               /\ linkedId c = Some (id p).
Proof.
  apply (@identify_response_describes_table 3000 bridgeRequest hillValley).
  - exact hillValley_wf.
  - vm_compute. reflexivity.
Defined.

(** ** Requests that fail, and requests that add a row *)

(** Rows added to the table change primary resolution only if one of
    them is a primary. *)
Lemma findPrimaryContact_more_rows (contacts extra : list Contact) (s s' : Store) :
  rows s' = rows s ++ extra ->
  (forall c, In c extra -> linkPrecedence c = SECONDARY) ->
  snd (findPrimaryContact contacts s') = snd (findPrimaryContact contacts s).
Proof.
  intros Hrows Hextra. unfold findPrimaryContact.
  destruct (filter isPrimary contacts); [|reflexivity].
  destruct (linkedIdsOf contacts) as [|i ids]; [reflexivity|].
  unfold bind, Prisma.findFirst. rewrite Hrows, filter_app.
  rewrite (@filter_all_false _ _ extra).
  - rewrite app_nil_r. destruct (hd_error _); reflexivity.
  - intros c Hc. unfold primaryAmong.
    rewrite (proj2 (isPrimary_false c) (Hextra c Hc)), andb_false_r. reflexivity.
Qed.

Lemma matchingSet_primaries_NoDup (e p : option string) (s : Store) :
  idsAscending (rows s) -> NoDup (filter isPrimary (matchingSet e p s)).
Proof.
  intros H. pose proof (@matchingSet_NoDup e p s H) as Hn.
  rewrite (@matchingSet_primaries_sorted e p s H) in Hn.
  apply (NoDup_map_inv id), Hn.
Qed.

(** The contact resolved from a matching set with primaries is the
    survivor of the merge unless it shares the survivor's [createdAt]. *)
Lemma resolved_or_tie (e p : option string) (s : Store)
      (survivor : Contact) (newer : list Contact) :
  idsAscending (rows s) ->
  filter isPrimary (matchingSet e p s) = survivor :: newer ->
  let resolved := reduce older survivor newer in
  (resolved = survivor /\ forall q, In q newer -> createdAt survivor < createdAt q)
  \/ (resolved <> survivor /\ In resolved newer
      /\ createdAt resolved = createdAt survivor).
Proof.
  intros Hids Ep resolved.
  pose proof (@matchingSet_primaries_NoDup e p s Hids) as Hnd. rewrite Ep in Hnd.
  assert (Hlex : StronglySorted olderThan (survivor :: newer)).
  { rewrite <- Ep. apply StronglySorted_filter, matchingSet_olderThan, Hids. }
  inversion Hlex as [|? ? _ Hall]; subst. rewrite Forall_forall in Hall.
  destruct (reduce_older_spec survivor newer) as [l1 [l2 [E [H1 H2]]]].
  fold resolved in E, H1, H2.
  destruct l1 as [|x l1']; simpl in E; injection E as E1 E2.
  - left. split; [symmetry; exact E1|]. intros q Hq.
    replace (createdAt survivor) with (createdAt resolved) by (rewrite <- E1; reflexivity).
    apply H2. rewrite <- E2. exact Hq.
  - right.
    assert (Hin : In resolved newer).
    { rewrite E2. apply in_or_app. right. left. reflexivity. }
    assert (Hne : resolved <> survivor).
    { intros Heq. apply NoDup_cons_iff in Hnd. destruct Hnd as [Hx _].
      apply Hx. rewrite <- Heq. exact Hin. }
    repeat split; auto.
    assert (Ha : createdAt resolved <= createdAt survivor)
      by (apply H1; left; symmetry; exact E1).
    specialize (Hall resolved Hin). unfold olderThan in Hall. lia.
Qed.

Lemma chainOf_In (i : Z) (s : Store) (c : Contact) :
  In c (chainOf i s) <-> In c (rows s) /\ chainWhere i c = true.
Proof. unfold chainOf. rewrite sortOn_In. apply filter_In. Qed.

Lemma chainOf_self (s : Store) (p : Contact) :
  In p (rows s) -> deletedAt p = None -> In p (chainOf (id p) s).
Proof.
  intros Hp Hd. apply chainOf_In. split; [exact Hp|]. unfold chainWhere.
  rewrite Z.eqb_refl, (proj2 (notDeleted_true p) Hd). reflexivity.
Qed.

Lemma find_isPrimary_Some (l : list Contact) (p : Contact) :
  In p l -> linkPrecedence p = PRIMARY -> exists q, find isPrimary l = Some q.
Proof.
  intros Hin Hp. destruct (find isPrimary l) as [q|] eqn:E; [exists q; reflexivity|].
  pose proof (proj1 (find_isPrimary_None l) E p Hin). congruence.
Qed.

(** The survivor of a merge is, after the writes, the row it was. *)
Lemma survivor_afterWrites (now : Z) (d : IdentifyRequest) (s : Store)
      (survivor : Contact) (newer : list Contact) :
  wfStore s ->
  let m := matchingSet (req_email d) (req_phoneNumber d) s in
  filter isPrimary m = survivor :: newer ->
  In survivor (rows (afterWrites now m d s))
  /\ linkPrecedence survivor = PRIMARY /\ deletedAt survivor = None
  /\ ~ In (id survivor) (map id newer)
  /\ forall c, mergeFn m c = mergedRow (id survivor) newer c.
Proof.
  intros Hwf m Ep. pose proof (wf_ids Hwf) as Hids.
  pose proof (@matchingSet_primaries_sorted (req_email d) (req_phoneNumber d) s Hids)
    as Hsorted.
  fold m in Hsorted. rewrite Ep in Hsorted. rewrite <- Ep in Hsorted at 1.
  destruct (@matchingSet_survivor _ _ s survivor newer Hids Hsorted)
    as [HSr [HSp [HSd HSn]]].
  assert (Hg : forall c, mergeFn m c = mergedRow (id survivor) newer c).
  { intros c. unfold mergeFn. rewrite Hsorted. apply mergeRow_closed, HSn. }
  repeat split; auto.
  unfold afterWrites. simpl.
  rewrite <- (@mergedRow_keeps_primary (id survivor) newer survivor HSn
                (@linkOk_primary (rows s) survivor (wf_links Hwf survivor HSr HSd) HSp)).
  rewrite <- Hg. apply in_map, in_or_app. left. exact HSr.
Qed.

(** X16. On a table that satisfies the chain invariants a request fails
    exactly when two of the primaries it matches share the earliest
    [createdAt] among them; it then fails while assembling the response,
    after its writes. *)
Theorem identify_fails_iff_tie (now : Z) (req : IdentifyRequest) (s : Store) :
  wfStore s ->
  let d := sanitizeInput req in
  let primaries :=
    filter isPrimary (matchingSet (req_email d) (req_phoneNumber d) s) in
  ((exists s' err, identify now req s = (s', Err err))
   <-> exists a b, In a primaries /\ In b primaries /\ a <> b
                   /\ createdAt a = createdAt b
                   /\ forall q, In q primaries -> createdAt a <= createdAt q)
  /\ forall s' err, identify now req s = (s', Err err) -> err = NoPrimaryInChain.
Proof.
  intros Hwf d primaries. subst primaries. pose proof (wf_ids Hwf) as Hids.
  destruct (@identify_wf_course now req s Hwf) as [resolved Hcourse].
  assert (Herr : forall s' err, identify now req s = (s', Err err) ->
                                err = NoPrimaryInChain).
  { intros s' err H. rewrite Hcourse in H. unfold formatResponse in H.
    destruct (find isPrimary _); inversion H. reflexivity. }
  clear Hcourse resolved.
  split; [|exact Herr].
  destruct (matchingSet (req_email d) (req_phoneNumber d) s) as [|c0 t0] eqn:Em.
  { (* nothing matched *)
    destruct (@identify_unmatched_ok now req s Em) as [s' [r E]]. split.
    - intros [s2 [err H]]. congruence.
    - intros [a [b [[] _]]]. }
  assert (Hm : matchingSet (req_email d) (req_phoneNumber d) s <> [])
    by (rewrite Em; discriminate).
  rewrite <- Em. clear Em c0 t0.
  set (m := matchingSet (req_email d) (req_phoneNumber d) s) in *.
  assert (Hrows : forall c, In c m -> In c (rows s) /\ deletedAt c = None)
    by (intros c Hc; apply (matchingSet_rows _ _ _ _ Hc)).
  destruct (@findPrimaryContact_total m s Hwf Hm Hrows) as [p0 Hp0].
  assert (Hw : writesFail m d s = None).
  { unfold writesFail. rewrite Hp0. destruct (shouldCreateNewContact _ _ _); reflexivity. }
  pose proof (@identify_matched now req s Hm) as Hid. cbv zeta in Hid.
  fold d m in Hid. rewrite Hw in Hid.
  set (sw := afterWrites now m d s) in *.
  destruct (snd (findPrimaryContact m sw)) as [p|e] eqn:Hp.
  2:{ exfalso. destruct (proj1 (findPrimaryContact_afterWrites now m d s)) as [e' He'];
        [exists e; exact Hp | congruence]. }
  rewrite Hid. clear Hid.
  destruct (filter isPrimary m) as [|survivor newer] eqn:Ep.
  - (* no primary matched: the resolved primary heads its own chain *)
    split; [|intros [a [b [[] _]]]].
    intros [s' [err H]]. exfalso.
    destruct (findPrimaryContact_cases m sw)
      as [[q [H1 [H2 _]]] | [[q [H1 [_ H3]]] | [e [H1 _]]]]; try congruence.
    rewrite Hp in H1. inversion H1; subst q.
    apply hd_error_sortOn_In in H3. apply filter_In in H3. destruct H3 as [H3 H4].
    apply primaryAmong_true in H4. destruct H4 as [_ [H4 H5]].
    destruct (@find_isPrimary_Some _ p (@chainOf_self sw p H3 H5) H4) as [q Hq].
    rewrite (formatResponse_eq _ Hq) in H. discriminate.
  - destruct (@survivor_afterWrites now d s survivor newer Hwf Ep)
      as [HSin [HSp [HSd [HSn Hg]]]].
    fold m sw in HSin.
    assert (Hres : p = reduce older survivor newer).
    { unfold findPrimaryContact in Hp. rewrite Ep in Hp.
      simpl in Hp. inversion Hp. reflexivity. }
    destruct (@resolved_or_tie _ _ s survivor newer Hids Ep)
      as [[Heq Hstrict]|[Hne [Hin Htie]]]; subst p.
    + (* the survivor was resolved *)
      rewrite Heq.
      destruct (@find_isPrimary_Some _ survivor (@chainOf_self sw survivor HSin HSd) HSp)
        as [q Hq].
      rewrite (formatResponse_eq _ Hq). split.
      * intros [s' [err H]]. discriminate.
      * intros [a [b [Ha [Hb [Hab [Ht Hmin]]]]]]. exfalso.
        assert (Hsa : createdAt a <= createdAt survivor)
          by (apply Hmin; left; reflexivity).
        destruct Ha as [<-|Ha].
        -- destruct Hb as [<-|Hb]; [congruence|].
           specialize (Hstrict b Hb). lia.
        -- specialize (Hstrict a Ha). lia.
    + (* an absorbed primary was resolved *)
      set (p := reduce older survivor newer) in *.
      split.
      * intros _. exists survivor, p. repeat split; auto.
        -- left. reflexivity.
        -- right. exact Hin.
        -- intros q Hq.
           assert (Hlex : StronglySorted olderThan (survivor :: newer)).
           { rewrite <- Ep. apply StronglySorted_filter, matchingSet_olderThan, Hids. }
           inversion Hlex as [|? ? _ Hall]; subst. rewrite Forall_forall in Hall.
           destruct Hq as [<-|Hq]; [lia|].
           specialize (Hall q Hq). unfold olderThan in Hall. lia.
      * intros _.
        destruct (find isPrimary (chainOf (id p) sw)) as [q|] eqn:Hq.
        -- exfalso. apply Hne.
           apply (@resolved_is_survivor now d s survivor p q newer Hids Ep Hp Hq).
        -- rewrite (formatResponse_error _ Hq). eexists. eexists. reflexivity.
Qed.

Lemma identify_fails_iff_tie_witness :
  let primaries :=
    filter isPrimary
           (matchingSet (req_email (sanitizeInput bridgeRequest))
                        (req_phoneNumber (sanitizeInput bridgeRequest)) hillValley) in
  ((exists s' err, identify 3000 bridgeRequest hillValley = (s', Err err))
   <-> exists a b, In a primaries /\ In b primaries /\ a <> b
                   /\ createdAt a = createdAt b
                   /\ forall q, In q primaries -> createdAt a <= createdAt q)
  /\ forall s' err, identify 3000 bridgeRequest hillValley = (s', Err err) ->
                    err = NoPrimaryInChain.
Proof.
  apply (@identify_fails_iff_tie 3000 bridgeRequest hillValley).
  exact hillValley_wf.
Defined.

Lemma addIfTruthy_single (x : string) : x <> "" -> addIfTruthy [] (Some x) = [x].
Proof. destruct x; [congruence | reflexivity]. Qed.

Lemma response_lists (chain : list Contact) (r : IdentifyResponse) (n : Contact) :
  formatResponse chain = Ok r -> In n chain ->
  (forall e, email n = Some e -> e <> "" -> In e (emails r))
  /\ (forall p, phoneNumber n = Some p -> p <> "" -> In p (phoneNumbers r)).
Proof.
  intros Hr Hn. destruct (find isPrimary chain) as [q|] eqn:Hf.
  - rewrite (formatResponse_eq _ Hf) in Hr. inversion Hr; subst r; simpl.
    split; intros x Hx Hne; apply collected_In; (split; [exact Hne|]);
      exists n; auto.
  - rewrite (formatResponse_error _ Hf) in Hr. discriminate.
Qed.

(** The row a request adds lies in the chain its response is read from. *)
Lemma created_in_chain (now : Z) (req : IdentifyRequest) (s : Store)
      (resolved n : Contact) (r : IdentifyResponse) :
  wfStore s ->
  let d := sanitizeInput req in
  let m := matchingSet (req_email d) (req_phoneNumber d) s in
  let sw := afterWrites now m d s in
  createdRows now m d s = [n] ->
  snd (findPrimaryContact m sw) = Ok resolved ->
  formatResponse (chainOf (id resolved) sw) = Ok r ->
  In n (chainOf (id resolved) sw).
Proof.
  intros Hwf d m sw Hn Hres Hresp.
  assert (Hfields : In n (createdRows now m d s)) by (rewrite Hn; left; reflexivity).
  pose proof (@createdRows_fields now m d s n Hfields) as [Hid [_ [Hdel _]]].
  assert (Hlink : exists p0, snd (findPrimaryContact m s) = Ok p0
                             /\ linkedId n = Some (id p0)).
  { unfold createdRows in Hn.
    destruct (shouldCreateNewContact _ _ _); [|discriminate].
    destruct (snd (findPrimaryContact m s)) as [p0|]; [|discriminate].
    exists p0. split; [reflexivity|]. inversion Hn. reflexivity. }
  destruct Hlink as [p0 [Hp0 Hl]].
  assert (Hwhere : linkedId n = Some (id resolved) -> chainWhere (id resolved) n = true).
  { intros H. unfold chainWhere.
    rewrite (proj2 (optZ_eqb_eq _ _) H), (proj2 (notDeleted_true n) Hdel), orb_true_r.
    reflexivity. }
  apply chainOf_In.
  destruct (filter isPrimary m) as [|survivor newer] eqn:Ep.
  - (* the primary was found through the links, before and after *)
    assert (Hrows : rows sw = rows s ++ [n]).
    { unfold sw. rewrite (@afterWrites_no_primary now m d s Ep), Hn. reflexivity. }
    assert (E : snd (findPrimaryContact m sw) = snd (findPrimaryContact m s)).
    { apply (@findPrimaryContact_more_rows m [n] s sw Hrows).
      intros c [<-|[]]. apply (@createdRows_secondary now m d s n Hfields). }
    rewrite E, Hp0 in Hres. inversion Hres; subst p0.
    split; [rewrite Hrows; apply in_or_app; right; left; reflexivity | auto].
  - destruct (@survivor_afterWrites now d s survivor newer Hwf Ep)
      as [_ [_ [_ [HSn Hg]]]].
    fold m in Hg.
    assert (E : snd (findPrimaryContact m sw) = snd (findPrimaryContact m s)).
    { apply findPrimaryContact_listed_any. rewrite Ep. discriminate. }
    rewrite E, Hp0 in Hres. inversion Hres; subst p0.
    assert (Hq : exists q, find isPrimary (chainOf (id resolved) sw) = Some q).
    { unfold formatResponse in Hresp.
      destruct (find isPrimary (chainOf (id resolved) sw)) as [q|];
        [exists q; reflexivity | discriminate]. }
    destruct Hq as [q Hq].
    assert (Hsame : resolved = survivor).
    { apply (@resolved_is_survivor now d s survivor resolved q newer
               (wf_ids Hwf) Ep); [|exact Hq].
      fold m sw. rewrite E. exact Hp0. }
    subst resolved.
    assert (Hkeep : mergeFn m n = n).
    { rewrite Hg. unfold mergedRow.
      assert (Hmem : memZ (id n) (map id newer) = false).
      { destruct (memZ (id n) (map id newer)) eqn:X; [|reflexivity]. exfalso.
        apply memZ_In, in_map_iff in X. destruct X as [a [Ha Hin]].
        assert (Ham : In a (filter isPrimary m)) by (rewrite Ep; right; exact Hin).
        apply filter_In in Ham. destruct Ham as [Ham _].
        destruct (matchingSet_rows _ _ _ _ Ham) as [Har _].
        pose proof (wf_seq Hwf) as Hseq. rewrite Forall_forall in Hseq.
        specialize (Hseq a Har). lia. }
      assert (Hms : memZ (id survivor) (map id newer) = false).
      { destruct (memZ (id survivor) (map id newer)) eqn:X; [|reflexivity].
        apply memZ_In in X. contradiction. }
      rewrite Hmem, Hl, Hms. reflexivity. }
    split; [|auto].
    unfold sw, afterWrites. simpl. rewrite <- Hkeep.
    apply in_map, in_or_app. right. rewrite Hn. left. reflexivity.
Qed.

(** X17. On a table that satisfies the chain invariants, a request that
    adds a row is answered with its own fields: the normalized email and
    phone number it supplied are among the emails and phone numbers of the
    response. *)
Theorem identify_answers_with_request (now : Z) (req : IdentifyRequest)
        (s s1 : Store) (r : IdentifyResponse) :
  wfStore s ->
  identify now req s = (s1, Ok r) ->
  List.length (rows s1) = S (List.length (rows s)) ->
  let d := sanitizeInput req in
  (forall e, req_email d = Some e -> e <> "" -> In e (emails r))
  /\ (forall p, req_phoneNumber d = Some p -> p <> "" -> In p (phoneNumbers r)).
Proof.
  intros Hwf Hrun Hlen d.
  destruct (matchingSet (req_email d) (req_phoneNumber d) s) as [|c0 t0] eqn:Em.
  - rewrite (@identify_no_match now req s Em), handleNewContact_eq in Hrun.
    fold d in Hrun. inversion Hrun; subst r; simpl.
    split; intros x Hx Hne; rewrite Hx, (addIfTruthy_single Hne); left; reflexivity.
  - assert (Hm : matchingSet (req_email d) (req_phoneNumber d) s <> [])
      by (rewrite Em; discriminate).
    clear Em c0 t0.
    pose proof (@identify_matched now req s Hm) as Hid. cbv zeta in Hid. fold d in Hid.
    set (m := matchingSet (req_email d) (req_phoneNumber d) s) in *.
    destruct (writesFail m d s) eqn:Hw; [rewrite Hid in Hrun; discriminate|].
    set (sw := afterWrites now m d s) in *.
    destruct (snd (findPrimaryContact m sw)) as [resolved|e] eqn:Hres;
      [|rewrite Hid in Hrun; discriminate].
    rewrite Hid in Hrun. inversion Hrun as [[Hs Hresp]]. clear Hrun Hid.
    rewrite <- Hs in Hlen. unfold sw, afterWrites in Hlen. simpl in Hlen.
    rewrite length_map, length_app in Hlen.
    destruct (createdRows now m d s) as [|n [|n' t]] eqn:Hn;
      simpl in Hlen; try lia.
    pose proof (@created_in_chain now req s resolved n r Hwf Hn Hres Hresp) as Hin.
    assert (Hf : In n (createdRows now m d s)) by (rewrite Hn; left; reflexivity).
    pose proof (@createdRows_fields now m d s n Hf) as [_ [_ [_ [He Hp]]]].
    destruct (@response_lists _ r n Hresp Hin) as [H1 H2].
    split; intros x Hx Hne; [apply H1 | apply H2]; congruence.
Qed.

Lemma identify_answers_with_request_witness :
  (forall e, req_email (sanitizeInput bridgeRequest) = Some e -> e <> "" ->
             In e (emails bridgeResponse))
  /\ (forall p, req_phoneNumber (sanitizeInput bridgeRequest) = Some p -> p <> "" ->
                In p (phoneNumbers bridgeResponse)).
Proof.
  apply (@identify_answers_with_request 3000 bridgeRequest hillValley afterBridge).
  - exact hillValley_wf.
  - vm_compute. reflexivity.
  - reflexivity.
Defined.

(** * The second text of the service *)

(** ** Its query and its new-record decision *)

Lemma unnamed_matchesWhere_eq (e p : option string) (c : Contact) :
  Unnamed.matchesWhere e p c = matchesWhere e p c.
Proof.
  unfold Unnamed.matchesWhere, matchesWhere.
  destruct e as [x|], p as [y|];
    repeat match goal with
           | |- context [Str.nonEmpty ?a] => destruct (Str.nonEmpty a)
           | |- context [columnIs ?a ?b] => destruct (columnIs a b)
           end; simpl; destruct (notDeleted c); reflexivity.
Qed.

Lemma unnamed_findMatchingContacts_eq (e p : option string) (s : Store) :
  Unnamed.findMatchingContacts e p s = (s, Ok (matchingSet e p s)).
Proof.
  unfold Unnamed.findMatchingContacts, Prisma.findMany, matchingSet.
  rewrite (filter_ext _ _ (unnamed_matchesWhere_eq e p)). reflexivity.
Qed.

Lemma present_truthy (x : option string) : truthy x = true -> Unnamed.present x = true.
Proof. destruct x; [reflexivity | discriminate]. Qed.

Lemma present_not_empty (x : option string) :
  x <> Some "" -> Unnamed.present x = truthy x.
Proof. destruct x as [[|c t]|]; simpl; [congruence | reflexivity | reflexivity]. Qed.

(** X18. The second text decides on a new row whenever the current one
    does; the two decisions are the same unless a field of the request is
    the empty string, which the second text takes as supplied: a request
    with an empty email and a known phone number gets a row from it and
    none from the current text. *)
Theorem unnamed_shouldCreateNewContact_compared :
  (forall l e p, shouldCreateNewContact l e p = true ->
                 Unnamed.shouldCreateNewContact l e p = true)
  /\ (forall l e p, e <> Some "" -> p <> Some "" ->
                    Unnamed.shouldCreateNewContact l e p = shouldCreateNewContact l e p)
  /\ (forall c p, phoneNumber c = Some p -> p <> "" ->
                  Unnamed.shouldCreateNewContact [c] (Some "") (Some p) = negb (strictEq (email c) (Some ""))
                  /\ shouldCreateNewContact [c] (Some "") (Some p) = false).
Proof.
  split; [|split].
  - intros l e p. unfold shouldCreateNewContact, Unnamed.shouldCreateNewContact.
    destruct (existsb _ l); [discriminate|]. cbv zeta.
    destruct (truthy e) eqn:He, (truthy p) eqn:Hp; simpl.
    + rewrite (present_truthy _ He), (present_truthy _ Hp). reflexivity.
    + rewrite (present_truthy _ He). simpl.
      destruct (Unnamed.present p); simpl; auto.
    + rewrite (present_truthy _ Hp). simpl.
      destruct (Unnamed.present e); simpl; auto.
    + discriminate.
  - intros l e p He Hp. unfold shouldCreateNewContact, Unnamed.shouldCreateNewContact.
    rewrite (present_not_empty He), (present_not_empty Hp).
    destruct (existsb _ l); [reflexivity|]. cbv zeta.
    destruct (truthy e), (truthy p); reflexivity.
  - intros c p Hc Hp. unfold shouldCreateNewContact, Unnamed.shouldCreateNewContact.
    simpl existsb. rewrite Hc.
    assert (Hpp : strictEq (Some p) (Some p) = true) by (simpl; apply String.eqb_refl).
    rewrite Hpp.
    assert (Ht : truthy (Some p) = true) by (destruct p; [congruence | reflexivity]).
    rewrite Ht. simpl.
    destruct (strictEq (email c) (Some "")); simpl; split; reflexivity.
Qed.

(** ** Its response *)

Lemma fold_secondaries (g : Contact -> option string) (l : list Contact) :
  forall acc : list string,
    fold_left (fun acc c => if isSecondary c then addIfTruthy acc (g c) else acc) l acc
    = fold_left (fun acc c => addIfTruthy acc (g c)) (filter isSecondary l) acc.
Proof.
  induction l as [|c t IH]; intros acc; simpl; [reflexivity|].
  destruct (isSecondary c); simpl; apply IH.
Qed.

Lemma find_isPrimary_primary (l : list Contact) (p : Contact) :
  find isPrimary l = Some p -> In p l /\ linkPrecedence p = PRIMARY.
Proof.
  intros H. apply find_some in H. destruct H as [Hin Hp].
  split; [exact Hin | apply isPrimary_true; exact Hp].
Qed.

Lemma filter_isSecondary_idem (l : list Contact) :
  filter isSecondary (filter isSecondary l) = filter isSecondary l.
Proof.
  induction l as [|c t IH]; simpl; [reflexivity|].
  destruct (isSecondary c) eqn:E; simpl; [rewrite E, IH; reflexivity | exact IH].
Qed.

(** The response of the second text is the response of the current text
    to the first primary followed by the secondaries. *)
Lemma unnamed_formatResponse_eq (contacts : list Contact) (p : Contact) :
  find isPrimary contacts = Some p ->
  Unnamed.formatResponse contacts = formatResponse (p :: filter isSecondary contacts).
Proof.
  intros Hf. destruct (find_isPrimary_primary _ Hf) as [_ Hp].
  assert (Hip : isPrimary p = true) by (apply isPrimary_true; exact Hp).
  assert (Hsp : isSecondary p = false) by (rewrite isSecondary_negb, Hip; reflexivity).
  unfold Unnamed.formatResponse, formatResponse. rewrite Hf. simpl find. rewrite Hip.
  simpl filter. rewrite Hsp, filter_isSecondary_idem.
  simpl fold_left. rewrite !fold_secondaries. reflexivity.
Qed.

Lemma unnamed_formatResponse_error (contacts : list Contact) :
  find isPrimary contacts = None ->
  Unnamed.formatResponse contacts = Err NoPrimaryInChain.
Proof. intros H. unfold Unnamed.formatResponse. rewrite H. reflexivity. Qed.

Lemma firstOccurrences_hd (x : string) (l : list string) :
  hd_error (firstOccurrences (x :: l)) = Some x.
Proof. reflexivity. Qed.

(** X19. The second text answers with the id of the first listed primary
    and puts that primary's email and phone number first, wherever the
    primary stands in the list; the other values are, without repetition,
    those of the listed secondaries, and a further listed primary
    contributes nothing. *)
Theorem unnamed_formatResponse_content (contacts : list Contact) :
  (find isPrimary contacts = None ->
   Unnamed.formatResponse contacts = Err NoPrimaryInChain)
  /\ forall p, find isPrimary contacts = Some p ->
       exists r, Unnamed.formatResponse contacts = Ok r
         /\ primaryContactId r = id p
         /\ (forall e, email p = Some e -> e <> "" -> hd_error (emails r) = Some e)
         /\ (forall n, phoneNumber p = Some n -> n <> "" ->
                       hd_error (phoneNumbers r) = Some n)
         /\ NoDup (emails r) /\ NoDup (phoneNumbers r)
         /\ (forall x, In x (emails r)
                       <-> x <> "" /\ (email p = Some x
                                       \/ exists c, In c contacts
                                                    /\ linkPrecedence c = SECONDARY
                                                    /\ email c = Some x))
         /\ (forall x, In x (phoneNumbers r)
                       <-> x <> "" /\ (phoneNumber p = Some x
                                       \/ exists c, In c contacts
                                                    /\ linkPrecedence c = SECONDARY
                                                    /\ phoneNumber c = Some x))
         /\ secondaryContactIds r
            = sortOn (fun z => z) (map id (filter isSecondary contacts)).
Proof.
  split; [apply unnamed_formatResponse_error|].
  intros p Hf. rewrite (unnamed_formatResponse_eq _ Hf).
  destruct (find_isPrimary_primary _ Hf) as [_ Hp].
  assert (Hip : isPrimary p = true) by (apply isPrimary_true; exact Hp).
  assert (Hsp : isSecondary p = false) by (rewrite isSecondary_negb, Hip; reflexivity).
  assert (Hfp : find isPrimary (p :: filter isSecondary contacts) = Some p)
    by (simpl; rewrite Hip; reflexivity).
  rewrite (formatResponse_eq _ Hfp). eexists. split; [reflexivity|]. simpl.
  assert (Hsec : forall (g : Contact -> option string) x,
             (exists c, In c (p :: filter isSecondary contacts) /\ g c = Some x)
             <-> (g p = Some x
                  \/ exists c, In c contacts /\ linkPrecedence c = SECONDARY
                               /\ g c = Some x)).
  { intros g x. split.
    - intros [c [[<-|Hin] Hg]]; [left; exact Hg|]. right.
      apply filter_In in Hin. destruct Hin as [Hin Hs]. exists c.
      split; [exact Hin|]. split; [|exact Hg].
      apply isPrimary_false. rewrite isSecondary_negb in Hs.
      destruct (isPrimary c); [discriminate | reflexivity].
    - intros [Hg|[c [Hin [Hs Hg]]]].
      + exists p. split; [left; reflexivity | exact Hg].
      + exists c. split; [|exact Hg]. right. apply filter_In. split; [exact Hin|].
        rewrite isSecondary_negb. apply isPrimary_false in Hs. rewrite Hs. reflexivity. }
  split; [reflexivity|].
  split. { intros e He Hne. rewrite He. destruct e; [congruence | reflexivity]. }
  split. { intros n Hn Hne. rewrite Hn. destruct n; [congruence | reflexivity]. }
  split; [apply firstOccurrences_NoDup|].
  split; [apply firstOccurrences_NoDup|].
  split. { intros x. rewrite <- Hsec.
           apply (collected_In email (p :: filter isSecondary contacts) x). }
  split. { intros x. rewrite <- Hsec.
           apply (collected_In phoneNumber (p :: filter isSecondary contacts) x). }
  rewrite Hsp. rewrite filter_isSecondary_idem. reflexivity.
Qed.

(** ** The two responses on a chain *)

Lemma setAdd_member (acc : list string) (v : string) :
  existsb (String.eqb v) (setAdd acc v) = true.
Proof.
  unfold setAdd. destruct (existsb (String.eqb v) acc) eqn:E; [exact E|].
  rewrite existsb_app. simpl. rewrite String.eqb_refl. apply orb_true_r.
Qed.

Lemma addIfTruthy_keeps (acc : list string) (y : option string) (v : string) :
  existsb (String.eqb v) acc = true ->
  existsb (String.eqb v) (addIfTruthy acc y) = true.
Proof.
  intros H. unfold addIfTruthy. destruct y as [w|]; [|exact H].
  destruct (Str.nonEmpty w); [|exact H]. unfold setAdd.
  destruct (existsb (String.eqb w) acc); [exact H|].
  rewrite existsb_app, H. reflexivity.
Qed.

Lemma addIfTruthy_fixed (acc : list string) (x : option string) :
  addIfTruthy acc x = acc
  <-> truthy x = false \/ exists v, x = Some v /\ existsb (String.eqb v) acc = true.
Proof.
  unfold addIfTruthy, truthy. destruct x as [v|]; [|split; auto].
  destruct (Str.nonEmpty v); [|split; auto]. unfold setAdd.
  destruct (existsb (String.eqb v) acc) eqn:E.
  - split; [intros _; right; exists v; auto | reflexivity].
  - split.
    + intros H. apply (f_equal (@List.length string)) in H.
      rewrite length_app in H. simpl in H. lia.
    + intros [H|[w [Hw H]]]; [discriminate|]. inversion Hw; subst w. congruence.
Qed.

Lemma addIfTruthy_self (acc : list string) (x : option string) :
  addIfTruthy (addIfTruthy acc x) x = addIfTruthy acc x.
Proof.
  apply addIfTruthy_fixed. destruct x as [v|]; [|left; reflexivity].
  simpl. destruct (Str.nonEmpty v) eqn:E; [|left; reflexivity].
  right. exists v. split; [reflexivity|]. apply setAdd_member.
Qed.

Lemma addIfTruthy_step (acc : list string) (x y : option string) :
  addIfTruthy acc x = acc -> addIfTruthy (addIfTruthy acc y) x = addIfTruthy acc y.
Proof.
  intros H. apply addIfTruthy_fixed. apply addIfTruthy_fixed in H.
  destruct H as [H|[v [Hv H]]]; [left; exact H|].
  right. exists v. split; [exact Hv | apply addIfTruthy_keeps; exact H].
Qed.

Lemma fold_chain (g : Contact -> option string) (p : Contact) (rest : list Contact) :
  (forall c, In c rest -> linkPrecedence c = PRIMARY -> c = p) ->
  forall acc : list string,
    addIfTruthy acc (g p) = acc ->
    fold_left (fun acc c => addIfTruthy acc (g c)) rest acc
    = fold_left (fun acc c => addIfTruthy acc (g c)) (filter isSecondary rest) acc.
Proof.
  induction rest as [|c t IH]; intros Hone acc Hacc; simpl; [reflexivity|].
  assert (Ht : forall c, In c t -> linkPrecedence c = PRIMARY -> c = p)
    by (intros x Hx; apply Hone; right; exact Hx).
  rewrite isSecondary_negb. destruct (isPrimary c) eqn:E; simpl.
  - rewrite (Hone c (or_introl eq_refl) (proj1 (isPrimary_true c) E)), Hacc.
    apply IH; assumption.
  - apply IH; [exact Ht | apply addIfTruthy_step; exact Hacc].
Qed.

Lemma onlyPrimary_find (p : Contact) (contacts : list Contact) :
  onlyPrimary p contacts -> find isPrimary contacts = Some p.
Proof.
  intros [Hin [Hp Hone]].
  destruct (find_isPrimary_Some _ _ Hin Hp) as [q Hq].
  destruct (find_isPrimary_primary _ Hq) as [Hqin Hqp].
  rewrite Hq, (Hone q Hqin Hqp). reflexivity.
Qed.

Lemma onlyPrimary_values (g : Contact -> option string) (p : Contact)
      (contacts : list Contact) (x : string) :
  onlyPrimary p contacts ->
  (exists c, In c (p :: filter isSecondary contacts) /\ g c = Some x)
  <-> exists c, In c contacts /\ g c = Some x.
Proof.
  intros [Hin [Hp Hone]]. split.
  - intros [c [[<-|Hc] Hg]]; [exists p; auto|].
    apply filter_In in Hc. exists c. tauto.
  - intros [c [Hc Hg]]. exists c. split; [|exact Hg].
    destruct (linkPrecedence c) eqn:E.
    + left. symmetry. apply Hone; assumption.
    + right. apply filter_In. split; [exact Hc|].
      rewrite isSecondary_negb. apply isPrimary_false in E. rewrite E. reflexivity.
Qed.

(** X20. On a list with a single primary, as a chain is, the two texts
    answer with the same primary id, the same secondary ids and the same
    emails and phone numbers, possibly in another order; when the primary
    comes first in the list the two responses are the same. *)
Theorem unnamed_formatResponse_on_chain (p : Contact) (contacts : list Contact) :
  onlyPrimary p contacts ->
  exists r r',
    formatResponse contacts = Ok r
    /\ Unnamed.formatResponse contacts = Ok r'
    /\ primaryContactId r' = primaryContactId r
    /\ secondaryContactIds r' = secondaryContactIds r
    /\ (forall x, In x (emails r') <-> In x (emails r))
    /\ (forall x, In x (phoneNumbers r') <-> In x (phoneNumbers r))
    /\ (hd_error contacts = Some p -> r' = r).
Proof.
  intros Hone. pose proof (onlyPrimary_find Hone) as Hf.
  destruct Hone as [Hin [Hp Hall]].
  assert (Hip : isPrimary p = true) by (apply isPrimary_true; exact Hp).
  assert (Hsp : isSecondary p = false) by (rewrite isSecondary_negb, Hip; reflexivity).
  assert (Hfp : find isPrimary (p :: filter isSecondary contacts) = Some p)
    by (simpl; rewrite Hip; reflexivity).
  assert (Hsec : filter isSecondary (p :: filter isSecondary contacts)
                 = filter isSecondary contacts)
    by (simpl; rewrite Hsp; apply filter_isSecondary_idem).
  eexists. eexists.
  split; [apply (formatResponse_eq _ Hf)|].
  split; [rewrite (unnamed_formatResponse_eq _ Hf); apply (formatResponse_eq _ Hfp)|].
  cbn [primaryContactId secondaryContactIds emails phoneNumbers].
  split; [reflexivity|].
  split; [rewrite Hsec; reflexivity|].
  split. { intros x. rewrite !collected_In.
           rewrite (@onlyPrimary_values email p contacts x); [tauto|].
           split; [exact Hin | split; [exact Hp | exact Hall]]. }
  split. { intros x. rewrite !collected_In.
           rewrite (@onlyPrimary_values phoneNumber p contacts x); [tauto|].
           split; [exact Hin | split; [exact Hp | exact Hall]]. }
  intros Hhd. destruct contacts as [|c rest]; [discriminate|].
  simpl in Hhd. inversion Hhd; subst c. rewrite Hsec.
  assert (Hrest : forall c, In c rest -> linkPrecedence c = PRIMARY -> c = p)
    by (intros c Hc; apply Hall; right; exact Hc).
  assert (Hvals : forall g : Contact -> option string,
             firstOccurrences (nonEmptyValues (map g (p :: filter isSecondary (p :: rest))))
             = firstOccurrences (nonEmptyValues (map g (p :: rest)))).
  { intros g. rewrite <- !collected_values. simpl filter. rewrite Hsp.
    simpl fold_left. symmetry. apply (@fold_chain g p rest Hrest). apply addIfTruthy_self. }
  rewrite !Hvals. reflexivity.
Qed.

Lemma unnamed_formatResponse_on_chain_witness :
  exists r r',
    formatResponse [lorraine; marty] = Ok r
    /\ Unnamed.formatResponse [lorraine; marty] = Ok r'
    /\ primaryContactId r' = primaryContactId r
    /\ secondaryContactIds r' = secondaryContactIds r
    /\ (forall x, In x (emails r') <-> In x (emails r))
    /\ (forall x, In x (phoneNumbers r') <-> In x (phoneNumbers r))
    /\ (hd_error [lorraine; marty] = Some lorraine -> r' = r).
Proof.
  apply (@unnamed_formatResponse_on_chain lorraine [lorraine; marty]).
  split; [left; reflexivity|]. split; [reflexivity|].
  intros c [<-|[<-|[]]] H; [reflexivity | discriminate H].
Defined.

(** ** Its primary resolution *)

Lemma Contact_eq_dec (a b : Contact) : {a = b} + {a <> b}.
Proof.
  repeat decide equality; try apply Z.eq_dec; try apply string_dec.
Defined.

Lemma unnamed_findPrimaryContact_store (contacts : list Contact) (s : Store) :
  fst (Unnamed.findPrimaryContact contacts s) = s.
Proof.
  unfold Unnamed.findPrimaryContact.
  destruct (filter isPrimary contacts); [|reflexivity].
  unfold bind, Prisma.findFirst. cbv zeta.
  destruct (hd_error _); reflexivity.
Qed.

Lemma unnamed_findPrimaryContact_listed (contacts : list Contact) (s : Store)
      (survivor : Contact) (newer : list Contact) :
  sortOn createdAt (filter isPrimary contacts) = survivor :: newer ->
  Unnamed.findPrimaryContact contacts s = (s, Ok survivor).
Proof.
  intros H. unfold Unnamed.findPrimaryContact.
  destruct (filter isPrimary contacts) as [|first rest] eqn:E; [discriminate|].
  rewrite H. reflexivity.
Qed.

Lemma unnamed_findPrimaryContact_links (contacts : list Contact) (s : Store)
      (p : Contact) :
  filter isPrimary contacts = [] ->
  snd (findPrimaryContact contacts s) = Ok p ->
  Unnamed.findPrimaryContact contacts s = (s, Ok p).
Proof.
  intros E H. unfold findPrimaryContact in H. unfold Unnamed.findPrimaryContact.
  rewrite E in *. cbv zeta in *.
  destruct (linkedIdsOf contacts) as [|i t]; [discriminate|].
  unfold bind, Prisma.findFirst in *.
  destruct (hd_error _) as [q|]; simpl in *; [inversion H; reflexivity | discriminate].
Qed.

(** X21. The two texts resolve the same primary unless two listed
    primaries share the earliest [createdAt] (the current text then answers
    the later of them in the list, the second text the earlier), and given
    secondaries only they fail on the same tables. *)
Theorem unnamed_findPrimaryContact_compared (contacts : list Contact) (s : Store) :
  (forall p, findPrimaryContact contacts s = (s, Ok p) ->
             (forall q, In q (filter isPrimary contacts) -> q <> p ->
                        createdAt p < createdAt q) ->
             Unnamed.findPrimaryContact contacts s = (s, Ok p))
  /\ ((exists e, snd (findPrimaryContact contacts s) = Err e)
      <-> exists e, snd (Unnamed.findPrimaryContact contacts s) = Err e)
  /\ forall a b, filter isPrimary contacts = [a; b] -> createdAt a = createdAt b ->
                 findPrimaryContact contacts s = (s, Ok b)
                 /\ Unnamed.findPrimaryContact contacts s = (s, Ok a).
Proof.
  split; [|split].
  - intros p Hp Hmin.
    destruct (filter isPrimary contacts) as [|first rest] eqn:E.
    + apply unnamed_findPrimaryContact_links; [exact E | rewrite Hp; reflexivity].
    + destruct (sortOn createdAt (first :: rest)) as [|o newer] eqn:Es.
      { apply sortOn_nil_iff in Es. discriminate. }
      rewrite <- E in Es. rewrite (unnamed_findPrimaryContact_listed contacts s Es).
      assert (Hpin : In p (filter isPrimary contacts)).
      { unfold findPrimaryContact in Hp. rewrite E in Hp. inversion Hp.
        rewrite E. apply reduce_older_In. }
      assert (Hoin : In o (filter isPrimary contacts)).
      { apply (hd_error_sortOn_In createdAt). rewrite Es. reflexivity. }
      assert (Hle : createdAt o <= createdAt p).
      { apply (@hd_error_sortOn_least _ createdAt (filter isPrimary contacts));
          [rewrite Es; reflexivity | exact Hpin]. }
      destruct (Contact_eq_dec o p) as [->|Hne]; [reflexivity|].
      rewrite E in Hoin. specialize (Hmin o Hoin Hne). lia.
  - unfold findPrimaryContact, Unnamed.findPrimaryContact.
    destruct (filter isPrimary contacts) as [|first rest].
    + cbv zeta. destruct (linkedIdsOf contacts) as [|i t] eqn:El.
      * unfold bind, Prisma.findFirst, primaryAmong. simpl memZ.
        rewrite filter_all_false by (intros; reflexivity). simpl.
        split; intros _; eexists; reflexivity.
      * unfold bind, Prisma.findFirst. destruct (hd_error _); simpl; tauto.
    + simpl. split; intros [e H]; discriminate.
  - intros a b E Ht. split.
    + unfold findPrimaryContact. rewrite E. unfold reduce, older. simpl.
      rewrite Ht, Z.ltb_irrefl. reflexivity.
    + apply (@unnamed_findPrimaryContact_listed contacts s a [b]).
      rewrite E. simpl. rewrite Ht.
      destruct (createdAt b <=? createdAt b) eqn:X; [reflexivity|].
      apply Z.leb_gt in X. lia.
Qed.

(** ** Its requests *)

Lemma unnamed_resolves (contacts : list Contact) (s : Store) :
  wfStore s ->
  contacts <> [] ->
  (forall c, In c contacts -> In c (rows s) /\ deletedAt c = None) ->
  exists P, Unnamed.findPrimaryContact contacts s = (s, Ok P)
            /\ In P (rows s) /\ linkPrecedence P = PRIMARY /\ deletedAt P = None.
Proof.
  intros Hwf Hne Hrows.
  destruct (filter isPrimary contacts) as [|first rest] eqn:E.
  - destruct (@findPrimaryContact_total contacts s Hwf Hne Hrows) as [P HP].
    exists P. split; [apply unnamed_findPrimaryContact_links; assumption|].
    apply (@findPrimaryContact_sound contacts s P Hrows HP).
  - destruct (sortOn createdAt (filter isPrimary contacts)) as [|o newer] eqn:Es.
    { apply sortOn_nil_iff in Es. rewrite E in Es. discriminate. }
    exists o. split; [apply (unnamed_findPrimaryContact_listed contacts s Es)|].
    assert (Ho : In o (filter isPrimary contacts)).
    { apply (sortOn_In createdAt). rewrite Es. left. reflexivity. }
    apply filter_In in Ho. destruct Ho as [Ho Hp].
    destruct (Hrows o Ho) as [H1 H2].
    split; [exact H1|]. split; [apply isPrimary_true; exact Hp | exact H2].
Qed.

Lemma unnamed_getAllContactsInChain_eq (m : list Contact) (s : Store) (P : Contact) :
  Unnamed.findPrimaryContact m s = (s, Ok P) ->
  Unnamed.getAllContactsInChain m s = (s, Ok (chainOf (id P) s)).
Proof.
  intros H. unfold Unnamed.getAllContactsInChain, bind. rewrite H. reflexivity.
Qed.

(** The primary the second text resolves after its writes is a primary row
    of the table it wrote, and not soft-deleted. *)
Lemma unnamed_resolves_after (e p : option string) (s : Store) (extra : list Contact) :
  wfStore s ->
  let m := matchingSet e p s in
  m <> [] ->
  (forall c, In c extra -> linkPrecedence c = SECONDARY) ->
  forall s2, rows s2 = map (mergeFn m) (rows s ++ extra) ->
  exists P, Unnamed.findPrimaryContact m s2 = (s2, Ok P)
            /\ In P (rows s2) /\ linkPrecedence P = PRIMARY /\ deletedAt P = None.
Proof.
  intros Hwf m Hne Hextra s2 Hrows.
  assert (Hm : forall c, In c m -> In c (rows s) /\ deletedAt c = None)
    by (intros c Hc; apply (matchingSet_rows _ _ _ _ Hc)).
  destruct (sortOn createdAt (filter isPrimary m)) as [|o newer] eqn:Es.
  - (* no primary is listed: nothing is merged *)
    rewrite (mergeFn_nil m Es) in Hrows.
    assert (Ep : filter isPrimary m = []) by (apply (sortOn_nil_iff createdAt); exact Es).
    destruct (@findPrimaryContact_total m s Hwf Hne Hm) as [P HP].
    destruct (@findPrimaryContact_sound m s P Hm HP) as [H1 [H2 H3]].
    exists P. split.
    + apply unnamed_findPrimaryContact_links; [exact Ep|].
      rewrite (@findPrimaryContact_more_rows m extra s s2 Hrows Hextra). exact HP.
    + split; [rewrite Hrows; apply in_or_app; left; exact H1 | auto].
  - (* the earliest listed primary is left as it is by the merge *)
    destruct (@matchingSet_survivor e p s o newer (wf_ids Hwf) Es) as [H1 [H2 [H3 H4]]].
    exists o. split; [apply (unnamed_findPrimaryContact_listed m s2 Es)|].
    split; [|auto].
    rewrite Hrows, (mergeFn_cons m _ Es).
    apply in_map_iff. exists o. split; [|apply in_or_app; left; exact H1].
    rewrite (@mergeRow_closed (id o) newer H4 o).
    apply mergedRow_keeps_primary; [exact H4|].
    apply (@linkOk_primary (rows s)); [apply (wf_links Hwf); assumption | exact H2].
Qed.

Lemma unnamed_answer (s : Store) (P : Contact) :
  In P (rows s) -> linkPrecedence P = PRIMARY -> deletedAt P = None ->
  exists r q, Unnamed.formatResponse (chainOf (id P) s) = Ok r
              /\ In q (rows s) /\ linkPrecedence q = PRIMARY /\ deletedAt q = None
              /\ primaryContactId r = id q.
Proof.
  intros Hin Hp Hd.
  destruct (@find_isPrimary_Some (chainOf (id P) s) P (chainOf_self s P Hin Hd) Hp)
    as [q Hq].
  destruct (find_isPrimary_primary _ Hq) as [Hqin Hqp].
  apply chainOf_In in Hqin. destruct Hqin as [Hqr Hqw].
  rewrite (unnamed_formatResponse_eq _ Hq).
  assert (Hfq : find isPrimary (q :: filter isSecondary (chainOf (id P) s)) = Some q).
  { simpl. rewrite (proj2 (isPrimary_true q) Hqp). reflexivity. }
  rewrite (formatResponse_eq _ Hfq). eexists. exists q.
  split; [reflexivity|]. split; [exact Hqr|]. split; [exact Hqp|].
  split; [|reflexivity].
  unfold chainWhere in Hqw. apply andb_true_iff in Hqw.
  apply notDeleted_true. tauto.
Qed.

(** X22. On a table that satisfies the chain invariants the second text
    fails only on a request without a usable field, which it refuses before
    it reads the table; every other request is answered, primaries created
    in the same millisecond included, and the primary id of the answer is
    the id of a primary row, not soft-deleted, of the table it leaves. *)
Theorem unnamed_identify_answers (now : Z) (data : IdentifyRequest) (s : Store) :
  wfStore s ->
  (rejected data = true ->
   Unnamed.identify now data s = (s, Unnamed.Failed Unnamed.EitherFieldRequired))
  /\ (rejected data = false ->
      exists s' r q,
        Unnamed.identify now data s = (s', Unnamed.Answered r)
        /\ In q (rows s') /\ linkPrecedence q = PRIMARY /\ deletedAt q = None
        /\ primaryContactId r = id q).
Proof.
  intros Hwf. unfold rejected, Unnamed.identify. split; intros Hrej; rewrite Hrej;
    [reflexivity|].
  set (e := req_email data). set (p := req_phoneNumber data).
  assert (Hrun : exists s' r q,
             Unnamed.reconcile now e p s = (s', Ok r)
             /\ In q (rows s') /\ linkPrecedence q = PRIMARY /\ deletedAt q = None
             /\ primaryContactId r = id q).
  { unfold Unnamed.reconcile. unfold bind at 1.
    rewrite unnamed_findMatchingContacts_eq.
    destruct (matchingSet e p s) as [|c0 t0] eqn:Em.
    - unfold bind, Prisma.create, lift. cbv zeta.
      eexists. eexists. eexists. split; [reflexivity|]. simpl.
      split; [apply in_or_app; right; left; reflexivity|].
      split; [reflexivity|]. split; reflexivity.
    - rewrite <- Em. set (m := matchingSet e p s).
      assert (Hne : m <> []) by (unfold m; rewrite Em; discriminate).
      assert (Hm : forall c, In c m -> In c (rows s) /\ deletedAt c = None)
        by (intros c Hc; apply (matchingSet_rows _ _ _ _ Hc)).
      (* the row added for a new combination, if any *)
      assert (Hcreate : exists s1 extra,
                 (if Unnamed.shouldCreateNewContact m e p
                  then
                    primaryContact <- Unnamed.findPrimaryContact m ;;
                    Prisma.create now e p (Some (id primaryContact)) SECONDARY ;;;
                    ret tt
                  else ret tt) s = (s1, Ok tt)
                 /\ rows s1 = rows s ++ extra
                 /\ forall c, In c extra -> linkPrecedence c = SECONDARY).
      { destruct (Unnamed.shouldCreateNewContact m e p).
        - destruct (@unnamed_resolves m s Hwf Hne Hm) as [P [HP _]].
          unfold bind. rewrite HP. unfold Prisma.create, ret.
          eexists. eexists. split; [reflexivity|]. simpl.
          split; [reflexivity|]. intros c [<-|[]]. reflexivity.
        - exists s, []. split; [reflexivity|].
          split; [rewrite app_nil_r; reflexivity | intros c []]. }
      destruct Hcreate as [s1 [extra [Hc [Hrows1 Hextra]]]].
      cbv zeta. unfold bind at 1. rewrite Hc.
      (* the merge *)
      assert (Hids : forall a, In a m -> In (id a) (map id (rows s1))).
      { intros a Ha. rewrite Hrows1, map_app. apply in_or_app. left.
        apply in_map. apply (Hm a Ha). }
      unfold bind at 1. rewrite (mergeStep_eq m s1 Hids).
      set (s2 := mkStore (map (mergeFn m) (rows s1)) (nextId s1)).
      assert (Hrows2 : rows s2 = map (mergeFn m) (rows s ++ extra))
        by (unfold s2; simpl; rewrite Hrows1; reflexivity).
      destruct (@unnamed_resolves_after e p s extra Hwf Hne Hextra s2 Hrows2)
        as [P [HP [H1 [H2 H3]]]].
      fold m in HP.
      unfold bind. rewrite (@unnamed_getAllContactsInChain_eq m s2 P HP).
      destruct (@unnamed_answer s2 P H1 H2 H3) as [r [q [Hr Hq]]].
      unfold lift. rewrite Hr. exists s2, r, q. split; [reflexivity | exact Hq]. }
  destruct Hrun as [s' [r [q [Hrun Hq]]]].
  rewrite Hrun. exists s', r, q. split; [reflexivity | exact Hq].
Qed.

Lemma tiedStore_wf : wfStore tiedStore.
Proof.
  constructor.
  - repeat constructor.
  - repeat constructor.
  - intros c [<-|[<-|[]]] Hd; reflexivity.
Defined.

Lemma unnamed_identify_answers_witness :
  (rejected bridgeRequest = true ->
   Unnamed.identify 3000 bridgeRequest tiedStore
   = (tiedStore, Unnamed.Failed Unnamed.EitherFieldRequired))
  /\ (rejected bridgeRequest = false ->
      exists s' r q,
        Unnamed.identify 3000 bridgeRequest tiedStore = (s', Unnamed.Answered r)
        /\ In q (rows s') /\ linkPrecedence q = PRIMARY /\ deletedAt q = None
        /\ primaryContactId r = id q).
Proof.
  apply (@unnamed_identify_answers 3000 bridgeRequest tiedStore).
  exact tiedStore_wf.
Defined.

(** * The controller and the service *)

Lemma sanitizeInput_processedData (body : IdentifyRequest) :
  req_email body <> Some "" ->
  sanitizeInput (processedData body) = sanitizeInput body.
Proof.
  intros He. destruct body as [e p]. unfold processedData, sanitizeInput, orUndefined.
  simpl in *. f_equal.
  - destruct e as [[|c t]|]; simpl; [congruence | reflexivity | reflexivity].
  - destruct p as [[|c t]|]; reflexivity.
Qed.

Lemma identify_sanitized (now : Z) (d d' : IdentifyRequest) (s : Store) :
  sanitizeInput d = sanitizeInput d' -> identify now d s = identify now d' s.
Proof. intros H. unfold identify. rewrite H. reflexivity. Qed.

(** X23. The conversions of the controller ([email || undefined], and the
    same for the phone number) are invisible to the service unless the
    email of the body is the empty string: a body with a usable field is
    answered with what [identify] answers for the body itself, status 200
    for a response and 500 for an error; and an empty email is handed over
    as an absent one. *)
Theorem controller_conversions (now : Z) (body : IdentifyRequest) (s : Store) :
  (rejected body = false -> req_email body <> Some "" ->
   controller now body s
   = match identify now body s with
     | (s', Ok r) => (s', Http200 r)
     | (s', Err e) => (s', Http500 e)
     end)
  /\ controller now (mkRequest (Some "") (req_phoneNumber body)) s
     = controller now (mkRequest None (req_phoneNumber body)) s.
Proof.
  split.
  - intros Hrej He. unfold controller. unfold rejected in Hrej. rewrite Hrej.
    cbv zeta. fold (processedData body).
    rewrite (@identify_sanitized now (processedData body) body s
               (sanitizeInput_processedData body He)).
    reflexivity.
  - reflexivity.
Qed.

(** * The merge, the new-record decision and the response on any listing *)

(** ** The chain invariants in any order of the rows *)

Lemma wfStore_invariants (s : Store) : wfStore s -> chainInvariants s.
Proof.
  intros H. constructor.
  - apply idsAscending_NoDup, (wf_ids H).
  - apply (wf_seq H).
  - apply (wf_links H).
Qed.

(** The primaries of a matching set are already in merge order, since the
    query returned them by [createdAt]. *)
Lemma matchingSet_primaries_in_order (e p : option string) (s : Store) :
  sortOn createdAt (filter isPrimary (matchingSet e p s))
  = filter isPrimary (matchingSet e p s).
Proof.
  apply sortOn_id, StronglySorted_filter. unfold matchingSet. apply sortOn_sorted.
Qed.

Lemma matchingSet_first_primary (e p : option string) (s : Store)
      (survivor : Contact) (newer : list Contact) :
  NoDup (map id (rows s)) ->
  filter isPrimary (matchingSet e p s) = survivor :: newer ->
  In survivor (rows s)
  /\ linkPrecedence survivor = PRIMARY
  /\ deletedAt survivor = None
  /\ ~ In (id survivor) (map id newer)
  /\ forall q, In q newer -> createdAt survivor <= createdAt q.
Proof.
  intros Hids E.
  assert (Hin : In survivor (filter isPrimary (matchingSet e p s)))
    by (rewrite E; left; reflexivity).
  apply filter_In in Hin. destruct Hin as [Hm Hp].
  destruct (matchingSet_rows _ _ _ _ Hm) as [Hr Hd].
  split; [exact Hr|]. split; [apply isPrimary_true, Hp|]. split; [exact Hd|].
  split.
  - assert (Hn : NoDup (map id (filter isPrimary (matchingSet e p s)))).
    { apply ids_NoDup_filter. unfold matchingSet.
      eapply Permutation_NoDup.
      - apply Permutation_map, Permutation_sym, sortOn_perm.
      - apply ids_NoDup_filter, Hids. }
    rewrite E in Hn. simpl in Hn. inversion Hn. assumption.
  - assert (Hs : StronglySorted (keyLe createdAt)
                   (filter isPrimary (matchingSet e p s))).
    { apply StronglySorted_filter. unfold matchingSet. apply sortOn_sorted. }
    rewrite E in Hs. inversion Hs as [|? ? _ Hall]; subst.
    rewrite Forall_forall in Hall. exact Hall.
Qed.

Lemma created_ids_NoDup (now : Z) (m : list Contact) (d : IdentifyRequest) (s : Store) :
  chainInvariants s -> NoDup (map id (rows s ++ createdRows now m d s)).
Proof.
  intros Hinv. pose proof (createdRows_length now m d s) as Hlen.
  pose proof (@createdRows_fields now m d s) as Hf.
  destruct (createdRows now m d s) as [|c [|c' t]].
  - rewrite app_nil_r. apply (inv_ids Hinv).
  - rewrite map_app. simpl. apply NoDup_app_remove_l with (l := []). simpl.
    apply Permutation_NoDup with (l := id c :: map id (rows s)).
    + apply Permutation_cons_append.
    + constructor; [|apply (inv_ids Hinv)].
      intros Hin. apply in_map_iff in Hin. destruct Hin as [x [Ex Hx]].
      pose proof (inv_seq Hinv) as Hseq. rewrite Forall_forall in Hseq.
      specialize (Hseq x Hx).
      destruct (Hf c (or_introl eq_refl)) as [Hid _]. lia.
  - simpl in Hlen. lia.
Qed.

(** C1 (as amended). When the matching set of a request holds more than
    one primary, the earliest-created of them, and among those of equal
    [createdAt] the one the matching query returned first, is left as it
    is; every other matched primary becomes a secondary linked to it; and
    every non-deleted contact that was linked to an absorbed primary is
    linked to it afterwards.  This holds in whatever order the table lists
    its rows. *)
Theorem merge_keeps_earliest_primary (now : Z) (req : IdentifyRequest) (s : Store) :
  chainInvariants s ->
  let d := sanitizeInput req in
  let primaries :=
    filter isPrimary (matchingSet (req_email d) (req_phoneNumber d) s) in
  (1 < List.length primaries)%nat ->
  exists survivor,
    hd_error primaries = Some survivor
    /\ (forall p, In p primaries -> createdAt survivor <= createdAt p)
    /\ let s' := fst (identify now req s) in
       rowById (id survivor) s' = Some survivor
       /\ linkPrecedence survivor = PRIMARY
       /\ (forall p, In p primaries -> p <> survivor ->
             exists p', rowById (id p) s' = Some p'
                        /\ linkPrecedence p' = SECONDARY
                        /\ linkedId p' = Some (id survivor))
       /\ (forall c p, In c (rows s) -> deletedAt c = None ->
             In p primaries -> p <> survivor -> linkedId c = Some (id p) ->
             exists c', rowById (id c) s' = Some c'
                        /\ linkedId c' = Some (id survivor)).
Proof.
  intros Hinv d primaries Hlen. subst primaries.
  set (m := matchingSet (req_email d) (req_phoneNumber d) s) in *.
  pose proof (matchingSet_primaries_in_order (req_email d) (req_phoneNumber d) s)
    as Hsorted.
  fold m in Hsorted.
  assert (Hm : m <> []).
  { intros E. rewrite E in Hlen. simpl in Hlen. lia. }
  assert (Hin : forall p, In p (filter isPrimary m) -> In p (rows s)).
  { intros p Hp. apply filter_In in Hp.
    apply (matchingSet_rows _ _ _ _ (proj1 Hp)). }
  assert (Hfail : writesFail m d s = None).
  { apply writesFail_primaries. intros E. rewrite E in Hlen. simpl in Hlen. lia. }
  destruct (filter isPrimary m) as [|survivor newer] eqn:Ep; [simpl in Hlen; lia|].
  destruct (@matchingSet_first_primary _ _ s survivor newer (inv_ids Hinv) Ep)
    as [HSr [HSp [HSd [HSn HSle]]]].
  exists survivor. split; [reflexivity|]. split.
  { intros p [<-|Hp]; [lia | apply HSle, Hp]. }
  (* the table after the request *)
  assert (Hstore : fst (identify now req s)
                   = mkStore (map (mergeRow (id survivor) newer)
                                  (rows s ++ createdRows now m d s))
                             (nextId s + Z.of_nat (List.length (createdRows now m d s)))).
  { assert (Hs2 : sortOn createdAt (filter isPrimary m) = survivor :: newer)
      by (rewrite Ep; exact Hsorted).
    rewrite identify_store_matched by exact Hm. fold d m. rewrite Hfail.
    rewrite (@mergeFn_cons m survivor newer _ Hs2). reflexivity. }
  cbv zeta. rewrite Hstore. unfold rowById. simpl rows.
  set (l' := rows s ++ createdRows now m d s).
  assert (Hl' : NoDup (map id l')) by (apply created_ids_NoDup, Hinv).
  assert (Hsub : forall x, In x (rows s) -> In x l').
  { intros x Hx. apply in_or_app. left. exact Hx. }
  assert (Hrow : forall x, In x (rows s) ->
            find (fun c => id c =? id x) (map (mergeRow (id survivor) newer) l')
            = Some (mergedRow (id survivor) newer x)).
  { intros x Hx. rewrite rowById_map; auto.
    - rewrite mergeRow_closed by exact HSn. reflexivity.
    - intros c. apply mergeRow_id. }
  assert (Hnewer : forall p, In p newer -> In p (rows s)
                             /\ memZ (id p) (map id newer) = true).
  { intros p Hp. split.
    - apply Hin. right. exact Hp.
    - apply memZ_In, in_map, Hp. }
  split; [|split; [exact HSp|split]].
  - rewrite (Hrow survivor HSr). f_equal.
    apply mergedRow_keeps_primary; [exact HSn|].
    apply (@linkOk_primary (rows s) survivor (inv_links Hinv survivor HSr HSd) HSp).
  - intros p [<-|Hp] Hne; [congruence|]. destruct (Hnewer p Hp) as [Hpr Hpm].
    rewrite (Hrow p Hpr). unfold mergedRow. rewrite Hpm.
    eexists. split; [reflexivity|]. simpl. auto.
  - intros c p Hc Hcd [<-|Hp] Hne Hl; [congruence|].
    destruct (Hnewer p Hp) as [Hpr Hpm].
    rewrite (Hrow c Hc). unfold mergedRow. rewrite Hl, Hpm.
    apply notDeleted_true in Hcd. rewrite Hcd. simpl.
    destruct (memZ (id c) (map id newer)); eexists; split; reflexivity.
Qed.

Lemma merge_keeps_earliest_primary_witness :
  let primaries :=
    filter isPrimary
           (matchingSet (req_email (sanitizeInput bridgeRequest))
                        (req_phoneNumber (sanitizeInput bridgeRequest)) hillValley) in
  exists survivor,
    hd_error primaries = Some survivor
    /\ (forall p, In p primaries -> createdAt survivor <= createdAt p)
    /\ let s' := fst (identify 3000 bridgeRequest hillValley) in
       rowById (id survivor) s' = Some survivor
       /\ linkPrecedence survivor = PRIMARY
       /\ (forall p, In p primaries -> p <> survivor ->
             exists p', rowById (id p) s' = Some p'
                        /\ linkPrecedence p' = SECONDARY
                        /\ linkedId p' = Some (id survivor))
       /\ (forall c p, In c (rows hillValley) -> deletedAt c = None ->
             In p primaries -> p <> survivor -> linkedId c = Some (id p) ->
             exists c', rowById (id c) s' = Some c'
                        /\ linkedId c' = Some (id survivor)).
Proof.
  apply (@merge_keeps_earliest_primary 3000 bridgeRequest hillValley).
  - exact (wfStore_invariants hillValley_wf).
  - vm_compute. reflexivity.
Defined.

Lemma swappedStore_invariants : chainInvariants swappedStore.
Proof.
  constructor.
  - repeat constructor; simpl; intuition discriminate.
  - repeat constructor.
  - intros c [<-|[<-|[]]] Hd; reflexivity.
Qed.

(** C1 (as stated) fails twice.  A soft-deleted contact linked to the
    absorbed primary keeps its [linkedId].  And of two primaries created
    in the same millisecond the one the query returned first survives,
    here the larger id: the contact with the smallest id is demoted. *)
Lemma merge_keeps_earliest_primary_counterexample :
  (wfStore hillValley
   /\ filter isPrimary
             (matchingSet (req_email (sanitizeInput bridgeRequest))
                          (req_phoneNumber (sanitizeInput bridgeRequest)) hillValley)
      = [george; biffLate]
   /\ rowById (id george) (fst (identify 3000 bridgeRequest hillValley)) = Some george
   /\ In needles (rows hillValley)
   /\ linkedId needles = Some (id biffLate)
   /\ rowById (id needles) (fst (identify 3000 bridgeRequest hillValley)) = Some needles
   /\ linkedId needles <> Some (id george))
  /\ (chainInvariants swappedStore
      /\ filter isPrimary
                (matchingSet (req_email (sanitizeInput bridgeRequest))
                             (req_phoneNumber (sanitizeInput bridgeRequest)) swappedStore)
         = [biff; george]
      /\ createdAt george = createdAt biff
      /\ id george < id biff
      /\ rowById (id biff) (fst (identify 3000 bridgeRequest swappedStore)) = Some biff
      /\ rowById (id george) (fst (identify 3000 bridgeRequest swappedStore))
         = Some (Prisma.setLink SECONDARY (Some (id biff)) george)).
Proof.
  split.
  - split; [exact hillValley_wf|].
    repeat split; try (vm_compute; reflexivity).
    + right. right. right. left. reflexivity.
    + vm_compute. discriminate.
  - split; [exact swappedStore_invariants|].
    repeat split; vm_compute; reflexivity.
Qed.

(** ** The new-record decision, as the engine acts on it *)

Lemma findPrimaryContact_resolves (contacts : list Contact) (s : Store) :
  chainInvariants s ->
  (forall c, In c contacts -> In c (rows s) /\ deletedAt c = None) ->
  resolves contacts s.
Proof.
  intros Hinv Hc. destruct contacts as [|c t]; [left; reflexivity|]. right.
  destruct (snd (findPrimaryContact (c :: t) s)) as [p|e] eqn:E;
    [exists p; reflexivity|].
  exfalso.
  destruct (proj1 (findPrimaryContact_fails_iff (c :: t) s)) as [H1 H2];
    [exists e; exact E|].
  destruct (Hc c (or_introl eq_refl)) as [Hr Hd].
  pose proof (proj1 (no_primary_listed (c :: t)) H1 c (or_introl eq_refl)) as Hsec.
  destruct (@linkOk_secondary (rows s) c (inv_links Hinv c Hr Hd) Hsec)
    as [q [Hq [Hl [Hqp Hqd]]]].
  apply (proj1 (no_primary_among _ _) H2). exists q. repeat split; auto.
  apply linkedIdsOf_In. exists c. split; [left; reflexivity | exact Hl].
Qed.

Lemma newRecordPolicy_nil (e p : option string) :
  newRecordPolicy [] e p = supplied e || supplied p.
Proof.
  unfold newRecordPolicy. simpl.
  destruct (supplied e), (supplied p); reflexivity.
Qed.

Lemma matchingSet_unsupplied (e p : option string) (s : Store) :
  supplied e || supplied p = false -> matchingSet e p s = [].
Proof.
  intros H. apply orb_false_iff in H. destruct H as [He Hp].
  unfold matchingSet. rewrite filter_all_false; [reflexivity|].
  intros c _. apply matchesWhere_falsy; assumption.
Qed.

(** The number of rows after a request, case by case. *)
Lemma identify_rows (now : Z) (req : IdentifyRequest) (s : Store) :
  let d := sanitizeInput req in
  let m := matchingSet (req_email d) (req_phoneNumber d) s in
  List.length (rows (fst (identify now req s)))
  = match m with
    | [] => S (List.length (rows s))
    | _ => if newRecordPolicy m (req_email d) (req_phoneNumber d)
           then match snd (findPrimaryContact m s) with
                | Ok _ => S (List.length (rows s))
                | Err _ => List.length (rows s)
                end
           else List.length (rows s)
    end.
Proof.
  intros d m. destruct m as [|c t] eqn:Em.
  - rewrite (@identify_no_match now req s Em), handleNewContact_eq. simpl.
    rewrite length_app. simpl. lia.
  - assert (Hm : matchingSet (req_email d) (req_phoneNumber d) s <> [])
      by (fold m; rewrite Em; discriminate).
    rewrite (@identify_store_matched now req s Hm). fold d. fold m.
    rewrite <- Em. unfold writesFail, createdRows.
    rewrite shouldCreateNewContact_policy.
    destruct (newRecordPolicy m (req_email d) (req_phoneNumber d)).
    + destruct (snd (findPrimaryContact m s)); simpl.
      * rewrite length_map, length_app. simpl. lia.
      * reflexivity.
    + simpl. rewrite length_map, app_nil_r. reflexivity.
Qed.

(** C3 (as amended). The engine adds a row exactly when the input supplies
    no field, or the policy of section 4.3 says so and primary resolution
    answers on the matching set; in every other case the table keeps its
    number of rows.  On a table that satisfies the chain invariants
    primary resolution always answers. *)
Theorem identify_creates_by_policy (now : Z) (req : IdentifyRequest) (s : Store) :
  let d := sanitizeInput req in
  let m := matchingSet (req_email d) (req_phoneNumber d) s in
  let decided :=
    supplied (req_email d) || supplied (req_phoneNumber d) = false
    \/ (newRecordPolicy m (req_email d) (req_phoneNumber d) = true /\ resolves m s) in
  (createsRow now req s <-> decided)
  /\ (createsNoRow now req s <-> ~ decided)
  /\ (chainInvariants s -> resolves m s).
Proof.
  intros d m decided. unfold createsRow, createsNoRow.
  pose proof (identify_rows now req s) as Hrows. cbv zeta in Hrows.
  fold d in Hrows. fold m in Hrows. rewrite Hrows. clear Hrows.
  assert (Hres : chainInvariants s -> resolves m s).
  { intros Hinv. apply findPrimaryContact_resolves; [exact Hinv|].
    intros c Hc. apply (matchingSet_rows _ _ _ _ Hc). }
  set (n := List.length (rows s)).
  set (L := match m with
            | [] => S n
            | _ :: _ =>
                if newRecordPolicy m (req_email d) (req_phoneNumber d)
                then match snd (findPrimaryContact m s) with
                     | Ok _ => S n
                     | Err _ => n
                     end
                else n
            end).
  assert (Hcase : (L = S n /\ decided) \/ (L = n /\ ~ decided)).
  { subst L decided. unfold resolves.
    destruct (supplied (req_email d) || supplied (req_phoneNumber d)) eqn:Es.
    - destruct m as [|c t] eqn:Em.
      + left. split; [reflexivity|]. right.
        rewrite newRecordPolicy_nil, Es. split; [reflexivity | left; reflexivity].
      + rewrite <- Em.
        destruct (newRecordPolicy m (req_email d) (req_phoneNumber d)).
        * destruct (snd (findPrimaryContact m s)) as [q|e].
          -- left. split; [reflexivity|]. right.
             split; [reflexivity | right; exists q; reflexivity].
          -- right. split; [reflexivity|].
             intros [H|[_ [H|[p H]]]]; try discriminate.
             rewrite Em in H. discriminate.
        * right. split; [reflexivity|]. intros [H|[H _]]; discriminate.
    - assert (Em : m = []) by (apply matchingSet_unsupplied; exact Es).
      rewrite Em. left. split; [reflexivity | left; reflexivity]. }
  split; [|split; [|exact Hres]].
  - split.
    + intros H. destruct Hcase as [[_ HD]|[HL _]]; [exact HD | lia].
    + intros HD. destruct Hcase as [[HL _]|[_ HN]]; [exact HL | contradiction].
  - split.
    + intros H. destruct Hcase as [[HL _]|[_ HN]]; [lia | exact HN].
    + intros HN. destruct Hcase as [[_ HD]|[HL _]]; [contradiction | exact HL].
Qed.

(** C3 (as stated) fails both ways.  A body whose email is white space
    passes the controller, supplies no field once normalized, and gets a
    row although the policy says no.  And a request for which the policy
    says yes gets no row when its matching set is a secondary whose
    primary has no row: primary resolution throws before the insert. *)
Lemma identify_creates_by_policy_counterexample :
  (let req := mkRequest (Some "  ") None in
   sanitizeInput req = mkRequest (Some "") None
   /\ newRecordPolicy (matchingSet (Some "") None hillValley) (Some "") None = false
   /\ createsRow 3000 req hillValley
   /\ exists r, controller 3000 req hillValley
                = (fst (identify 3000 req hillValley), Http200 r))
  /\ (let req := mkRequest (Some "griff@hillvalley.edu") (Some "313131") in
      sanitizeInput req = req
      /\ matchingSet (req_email req) (req_phoneNumber req) strandedStore = [griff]
      /\ newRecordPolicy [griff] (req_email req) (req_phoneNumber req) = true
      /\ identify 3000 req strandedStore = (strandedStore, Err NoPrimaryForLinkedIds)
      /\ ~ createsRow 3000 req strandedStore).
Proof.
  split.
  - split; [reflexivity|]. split; [reflexivity|]. split; [reflexivity|].
    eexists. vm_compute. reflexivity.
  - split; [reflexivity|]. split; [reflexivity|]. split; [reflexivity|].
    split; [vm_compute; reflexivity|].
    unfold createsRow. vm_compute. discriminate.
Qed.

(** ** The order of a response *)

Lemma sameMillisecond_invariants : chainInvariants sameMillisecond.
Proof.
  constructor.
  - repeat constructor; simpl; intuition discriminate.
  - repeat constructor.
  - intros c [<-|[<-|[]]] Hd; [|reflexivity].
    exists lorraine. simpl. repeat split. right. left. reflexivity.
Qed.

(** C5. [formatResponse] lists the values in the order in which the chain
    query returned the contacts and never moves the primary to the front.
    The query orders by [createdAt] only, so a secondary created in the
    same millisecond as its primary may be returned first: its email then
    comes first in the response, where the text of [formatResponse] in
    [src/unnamed/part_000] puts the primary's.  Returned after the primary,
    the same two contacts give the order the specification asks for. *)
Theorem formatResponse_keeps_query_order :
  let request := mkRequest (Some "lorraine@hillvalley.edu") (Some "123456") in
  chainInvariants sameMillisecond
  /\ createdAt jennifer = createdAt lorraine
  /\ linkPrecedence lorraine = PRIMARY
  /\ email lorraine = Some "lorraine@hillvalley.edu"
  /\ chainOf (id lorraine) sameMillisecond = [jennifer; lorraine]
  /\ identify 3000 request sameMillisecond
     = (sameMillisecond,
        Ok (mkResponse 1 ["jennifer@hillvalley.edu"; "lorraine@hillvalley.edu"]
                       ["123456"] [2]))
  /\ Unnamed.formatResponse [jennifer; lorraine]
     = Ok (mkResponse 1 ["lorraine@hillvalley.edu"; "jennifer@hillvalley.edu"]
                      ["123456"] [2])
  /\ snd (identify 3000 request (mkStore [lorraine; jennifer] 3))
     = Ok (mkResponse 1 ["lorraine@hillvalley.edu"; "jennifer@hillvalley.edu"]
                      ["123456"] [2]).
Proof.
  split; [exact sameMillisecond_invariants|].
  repeat split; vm_compute; reflexivity.
Qed.
